(** * maze-3d: seeded maze generation, door placement and wall collision

    A shallow embedding of the algorithmic core of the repository:
    - [utils/mazeGenerator.ts]: the seeded generator [seededRandom], the
      class [MazeGenerator] ([constructor], [initializeGrid],
      [getNeighbors], [removeWall], [generate], [getStartPosition]);
    - [components/FirstPersonController.tsx]: [checkCollision] and the
      per-axis commit of [useFrame];
    - [components/Maze3D.tsx] and [App.tsx]: the door draws of the scene
      builder and of [printMazeASCII], the meshes of the scene and the
      positions of its doors;
    - [components/CeilingLights.tsx] and [App.tsx]: the light loops of the
      component, in both versions, and of [printMazeASCII];
    - [components/FirstPersonController.tsx]: the key handlers of both
      versions, the mouse look, and the leveling and the keyboard rotation
      of [useFrame];
    - [utils/doorUtils.ts]: [hashCoordinates];
    - [App.tsx]: the condition on a state read from the URL hash,
      [saveState] and [loadState].

    Numbers.  Grid indices and cell coordinates are array indices, modelled
    as [nat]; widths, heights, seeds and the generator words are JavaScript
    integers, modelled as [Z] with the 32-bit conversions written out.  The
    value returned by the seeded generator is [n / 2^32] for a 32-bit [n],
    which a double holds exactly, as it holds its product with an array
    length below [2^21]; it is modelled as the rational [n # 2^32].  Player
    coordinates are doubles; they are modelled as exact rationals ([Q]), so
    every arithmetic operation of the collision code is taken without
    rounding, and decimal literals stand for their decimal values.

    Environment.  What the code takes from outside is a parameter of the
    model: the value [Math.random()] returns to the constructor, the scaled
    velocity of a frame, and whether the ray cast of a frame meets a door;
    the values [Math.random()] returns to the unseeded light loops, the key,
    mouse and pointer lock events with the durations of the frames, and the
    value the parser returns for the URL hash.

    Objects.  The cells of the grid are shared mutable objects; the grid is
    the store, and a reference to a cell is its position in the grid.

    Loops.  The loop of [generate] is [while (true)]; the model runs it on a
    fuel of two iterations per cell, which is shown never to run out.  The
    light loops step by a drawn amount; they run on a fuel of one iteration
    per column, or per cell of a column, and one more, which is shown to be
    enough. *)

From Stdlib Require Import ZArith QArith Qround Lia Lqa.
From stdpp Require Import base tactics option list relations.

#[local] Set Warnings "-clear-no-such-hyp".

(** ** JavaScript integer conversions *)

Module JS.
Local Open Scope Z_scope.

(** ToUint32 and ToInt32 on an integral number. *)
Definition toUint32 (n : Z) : Z := n mod 4294967296.

Definition toInt32 (n : Z) : Z :=
  let u := toUint32 n in
  if 2147483648 <=? u then u - 4294967296 else u.

(** [a & b], [a >> k], [a << k] and [a >>> 0]. *)
Definition and (a b : Z) : Z := toInt32 (Z.land (toInt32 a) (toInt32 b)).
Definition sar (a k : Z) : Z := Z.shiftr (toInt32 a) k.
Definition shl (a k : Z) : Z := toInt32 (Z.shiftl (toInt32 a) k).
Definition ushr0 (a : Z) : Z := toUint32 a.

(** [Math.floor(r * n)] used as an array index. *)
Definition floorIndex (r : Q) (n : nat) : nat :=
  Z.to_nat (Qfloor (r * inject_Z (Z.of_nat n))).

(** [a < b] and [a > b] on numbers. *)
Definition lt (a b : Q) : bool := negb (Qle_bool b a).
Definition gt (a b : Q) : bool := negb (Qle_bool a b).
End JS.

(** ** Outcomes of fallible code

    [TypeError] is the exception JavaScript raises when a property of
    [undefined] is read; [OutOfFuel] is the loop model running out of fuel. *)

Inductive Outcome (A : Type) : Type :=
  | Ok (a : A)
  | TypeError
  | OutOfFuel.
Arguments Ok {A} a.
Arguments TypeError {A}.
Arguments OutOfFuel {A}.

Definition bind {A B : Type} (m : Outcome A) (k : A -> Outcome B) : Outcome B :=
  match m with
  | Ok a => k a
  | TypeError => TypeError
  | OutOfFuel => OutOfFuel
  end.

Definition defined {A : Type} (o : option A) : Outcome A :=
  match o with
  | Some a => Ok a
  | None => TypeError
  end.

Declare Scope outcome_scope.
Delimit Scope outcome_scope with outcome.
Notation "'let*' x ':=' m 'in' k" := (bind m (fun x => k))
  (at level 10, x pattern, m at level 100, k at level 200) : outcome_scope.

(** ** The seeded generator ([seededRandom]) *)

Module Prng.
Local Open Scope Z_scope.

(** The two words captured by the closure. *)
Record state : Type := mkState { m_z : Z; m_w : Z }.

Definition mask : Z := 4294967295.

Definition mix (k v : Z) : Z :=
  JS.and (k * JS.and v 65535 + JS.sar v 16) mask.

(** [seededRandom(seed)]: the closure right after seeding. *)
Definition seededRandom (seed : Z) : state :=
  {| m_z := mix 36969 seed; m_w := mix 18000 seed |}.

(** The 32-bit numerator of one draw. *)
Definition output (s : state) : Z :=
  JS.ushr0 (JS.shl (m_z s) 16 + JS.and (m_w s) 65535).

(** One call of the closure: the value drawn and the closure afterwards. *)
Definition next (s : state) : Q * state :=
  let s' := {| m_z := mix 36969 (m_z s); m_w := mix 18000 (m_w s) |} in
  (Qmake (output s') 4294967296, s').
End Prng.

(** ** The maze generator ([MazeGenerator]) *)

Module MazeGenerator.
Local Open Scope outcome_scope.

Record Walls : Type := mkWalls
  { north : bool; south : bool; east : bool; west : bool }.

Record MazeCell : Type := mkCell
  { x : nat; z : nat; walls : Walls; visited : bool }.

(** [MazeCell[][]]: the outer index is x, the inner index is z. *)
Abbreviation Grid := (list (list MazeCell)) (only parsing).

(** Cells are shared objects: the grid is the store, and a reference to
    the object [grid[i][j]] is its position [(i, j)]. *)
Abbreviation Ref := (nat * nat)%type (only parsing).

Definition deref (g : Grid) (r : Ref) : option MazeCell :=
  match g !! r.1 with
  | Some col => col !! r.2
  | None => None
  end.

(** Assignment to a property of the object behind a reference. *)
Definition update (f : MazeCell -> MazeCell) (r : Ref) (g : Grid) : Grid :=
  alter (alter f r.2) r.1 g.

Definition setWalls (f : Walls -> Walls) (c : MazeCell) : MazeCell :=
  {| x := x c; z := z c; walls := f (walls c); visited := visited c |}.
Definition setVisited (b : bool) (c : MazeCell) : MazeCell :=
  {| x := x c; z := z c; walls := walls c; visited := b |}.

Definition clearNorth (w : Walls) : Walls :=
  {| north := false; south := south w; east := east w; west := west w |}.
Definition clearSouth (w : Walls) : Walls :=
  {| north := north w; south := false; east := east w; west := west w |}.
Definition clearEast (w : Walls) : Walls :=
  {| north := north w; south := south w; east := false; west := west w |}.
Definition clearWest (w : Walls) : Walls :=
  {| north := north w; south := south w; east := east w; west := false |}.

(** The instance: its fields, with [random] the state of the closure. *)
Record t : Type := mk
  { width : Z; height : Z; grid : Grid; seed : Z; random : Prng.state }.

Definition withGrid (this : t) (g : Grid) : t :=
  {| width := width this; height := height this; grid := g;
     seed := seed this; random := random this |}.
Definition withRandom (this : t) (s : Prng.state) : t :=
  {| width := width this; height := height this; grid := grid this;
     seed := seed this; random := s |}.

(** [initializeGrid]: the two counting loops. *)
Definition freshCell (i j : nat) : MazeCell :=
  {| x := i; z := j; walls := mkWalls true true true true; visited := false |}.

Definition initializeGrid (width height : Z) : Grid :=
  map (fun i => map (fun j => freshCell i j) (seq 0 (Z.to_nat height)))
      (seq 0 (Z.to_nat width)).

(** [seed || Math.floor(Math.random() * 1000000)]: an omitted seed and the
    seed 0 are falsy; [mathRandom] is the value [Math.random()] returns
    when it is called. *)
Definition chooseSeed (seed : option Z) (mathRandom : Q) : Z :=
  match seed with
  | Some s => if (s =? 0)%Z then Qfloor (mathRandom * 1000000) else s
  | None => Qfloor (mathRandom * 1000000)
  end.

Definition constructor (width height : Z) (seed : option Z) (mathRandom : Q) : t :=
  let s := chooseSeed seed mathRandom in
  {| width := width; height := height; grid := initializeGrid width height;
     seed := s; random := Prng.seededRandom s |}.

(** [this.grid[i][j]] read as an object to be pushed: the reference, or a
    TypeError where the column or the cell is missing. *)
Definition cellAt (g : Grid) (i j : nat) : Outcome Ref :=
  let* _ := defined (deref g (i, j)) in Ok (i, j).

Definition pushIf (cond : bool) (r : Outcome Ref) (acc : list Ref)
  : Outcome (list Ref) :=
  if cond then (let* n := r in Ok (acc ++ [n])) else Ok acc.

Fixpoint filterUnvisited (g : Grid) (l : list Ref) : Outcome (list Ref) :=
  match l with
  | [] => Ok []
  | r :: l' =>
      let* c := defined (deref g r) in
      let* rest := filterUnvisited g l' in
      Ok (if visited c then rest else r :: rest)
  end.

Definition getNeighbors (this : t) (cell : Ref) : Outcome (list Ref) :=
  let g := grid this in
  let* c := defined (deref g cell) in
  let cx := x c in
  let cz := z c in
  let* n1 := pushIf (0 <? cx)%nat (cellAt g (cx - 1) cz) [] in
  let* n2 := pushIf (Z.of_nat cx <? width this - 1)%Z (cellAt g (cx + 1) cz) n1 in
  let* n3 := pushIf (0 <? cz)%nat (cellAt g cx (cz - 1)) n2 in
  let* n4 := pushIf (Z.of_nat cz <? height this - 1)%Z (cellAt g cx (cz + 1)) n3 in
  filterUnvisited g n4.

Definition removeWall (g : Grid) (current neighbor : Ref) : Outcome Grid :=
  let* c := defined (deref g current) in
  let* n := defined (deref g neighbor) in
  let dx := (Z.of_nat (x c) - Z.of_nat (x n))%Z in
  let dz := (Z.of_nat (z c) - Z.of_nat (z n))%Z in
  if (dx =? 1)%Z then
    Ok (update (setWalls clearEast) neighbor (update (setWalls clearWest) current g))
  else if (dx =? -1)%Z then
    Ok (update (setWalls clearWest) neighbor (update (setWalls clearEast) current g))
  else if (dz =? 1)%Z then
    Ok (update (setWalls clearSouth) neighbor (update (setWalls clearNorth) current g))
  else if (dz =? -1)%Z then
    Ok (update (setWalls clearNorth) neighbor (update (setWalls clearSouth) current g))
  else Ok g.

(** The variables of the [while (true)] loop of [generate]; the head of
    [stack] is the top of the backtrack stack. *)
Record Loop : Type := mkLoop
  { this : t; stack : list Ref; currentCell : Ref }.

(** One iteration: [inl] continues with the new variables, [inr] is the
    [break]. *)
Definition iteration (s : Loop) : Outcome (Loop + t) :=
  let* neighbors := getNeighbors (this s) (currentCell s) in
  if (0 <? length neighbors)%nat then
    let (r, rnd) := Prng.next (random (this s)) in
    let* randomNeighbor :=
      defined (neighbors !! JS.floorIndex r (length neighbors)) in
    let* g := removeWall (grid (this s)) (currentCell s) randomNeighbor in
    let g := update (setVisited true) randomNeighbor g in
    Ok (inl {| this := withRandom (withGrid (this s) g) rnd;
               stack := currentCell s :: stack s;
               currentCell := randomNeighbor |})
  else
    match stack s with
    | top :: rest =>
        Ok (inl {| this := this s; stack := rest; currentCell := top |})
    | [] => Ok (inr (this s))
    end.

Fixpoint loop (fuel : nat) (s : Loop) : Outcome t :=
  match fuel with
  | O => OutOfFuel
  | S fuel' =>
      let* r := iteration s in
      match r with
      | inl s' => loop fuel' s'
      | inr final => Ok final
      end
  end.

(** The statements of [generate] before the loop. *)
Definition enter (this : t) : Outcome Loop :=
  let* _ := defined (grid this !! 0%nat) in
  let* _ := defined (deref (grid this) (0, 0)%nat) in
  Ok {| this := withGrid this (update (setVisited true) (0, 0)%nat (grid this));
        stack := []; currentCell := (0, 0)%nat |}.

(** Iterations granted to the loop: two per cell are enough. *)
Definition fuelFor (this : t) : nat :=
  2 * (Z.to_nat (width this) * Z.to_nat (height this)).

(** [generate()]: the instance after the call; the value returned is its
    [grid]. *)
Definition generate (this : t) : Outcome t :=
  let* s := enter this in loop (fuelFor this) s.

Definition getMaze (this : t) : Grid := grid this.

(** [new MazeGenerator(width, height, seed)].  The constructor has no
    [throw] statement and reads no property of a value that may be
    undefined, so the expression always evaluates to the instance. *)
Definition new (width height : Z) (seed : option Z) (mathRandom : Q) : Outcome t :=
  Ok (constructor width height seed mathRandom).

(** [Object.values(cell.walls).filter(Boolean).length]. *)
Definition wallCountOf (c : MazeCell) : nat :=
  length (filter (fun b : bool => b = true)
            [north (walls c); south (walls c); east (walls c); west (walls c)]).

(** An entry of [candidates]: world coordinates and wall count. *)
Record Candidate : Type := mkCandidate
  { cand_x : Z; cand_z : Z; wallCount : nat }.

(** The scan of [getStartPosition]: x from 1 while [x < width - 1], z from
    1 while [z < height - 1]; a cell with at most two walls is pushed with
    the world coordinates of its centre and its wall count. *)
Definition candidateAt (i j : nat) (cell : MazeCell) : Candidate :=
  {| cand_x := Z.of_nat i * 4 + 2; cand_z := Z.of_nat j * 4 + 2;
     wallCount := wallCountOf cell |}.

Definition scanCell (g : Grid) (i j : nat) (acc : list Candidate)
  : Outcome (list Candidate) :=
  let* col := defined (g !! i) in
  let* cell := defined (col !! j) in
  if (wallCountOf cell <=? 2)%nat then Ok (acc ++ [candidateAt i j cell])
  else Ok acc.

Fixpoint scanColumn (g : Grid) (i : nat) (zs : list nat) (acc : list Candidate)
  : Outcome (list Candidate) :=
  match zs with
  | [] => Ok acc
  | j :: zs' => let* acc' := scanCell g i j acc in scanColumn g i zs' acc'
  end.

Fixpoint scanColumns (g : Grid) (xs zs : list nat) (acc : list Candidate)
  : Outcome (list Candidate) :=
  match xs with
  | [] => Ok acc
  | i :: xs' => let* acc' := scanColumn g i zs acc in scanColumns g xs' zs acc'
  end.

Definition interior (n : Z) : list nat := seq 1 (Z.to_nat (n - 2)).

Definition scanCandidates (this : t) : Outcome (list Candidate) :=
  scanColumns (grid this) (interior (width this)) (interior (height this)) [].

(** [candidates.sort((a, b) => a.wallCount - b.wallCount)]: the sort of
    the language is stable; insertion keeps equal entries in their order. *)
Fixpoint insertCandidate (c : Candidate) (l : list Candidate) : list Candidate :=
  match l with
  | [] => [c]
  | d :: l' =>
      if (wallCount c <=? wallCount d)%nat then c :: d :: l'
      else d :: insertCandidate c l'
  end.

Definition sortCandidates (l : list Candidate) : list Candidate :=
  foldr insertCandidate [] l.

(** [getStartPosition()]: the position returned and the instance after
    the call (the tie break draws from [random]). *)
Definition getStartPosition (this : t) : Outcome ((Z * Z) * t) :=
  let* candidates := scanCandidates this in
  if (0 <? length candidates)%nat then
    let sorted := sortCandidates candidates in
    let* first := defined (sorted !! 0%nat) in
    let topCandidates :=
      filter (fun c => wallCount c = wallCount first) sorted in
    let (r, rnd) := Prng.next (random this) in
    let* chosen :=
      defined (topCandidates !! JS.floorIndex r (length topCandidates)) in
    Ok ((cand_x chosen, cand_z chosen), withRandom this rnd)
  else Ok ((2, 2)%Z, this).
End MazeGenerator.

(** ** Movement and collision ([FirstPersonController]) *)

Module FirstPersonController.
Import MazeGenerator.
Local Open Scope outcome_scope.
Local Open Scope Q_scope.

Record Vector3 : Type := mkVector3 { vx : Q; vy : Q; vz : Q }.

Definition add (a b : Vector3) : Vector3 :=
  {| vx := vx a + vx b; vy := vy a + vy b; vz := vz a + vz b |}.
Definition setX (p : Vector3) (v : Q) : Vector3 :=
  {| vx := v; vy := vy p; vz := vz p |}.
Definition setZ (p : Vector3) (v : Q) : Vector3 :=
  {| vx := vx p; vy := vy p; vz := v |}.

Definition buffer : Q := 3 # 10.

(** [Math.floor(v / cellSize)]. *)
Definition mazeCoord (cellSize v : Q) : Z := Qfloor (v / cellSize).

(** [v - mazeCoord * cellSize]. *)
Definition localCoord (cellSize v : Q) : Q :=
  v - inject_Z (mazeCoord cellSize v) * cellSize.

(** [checkCollision]; both versions of the component carry the same
    function.  The disjunction of the bounds test is evaluated left to
    right, so [maze[0].length] is read only when the three tests before it
    fail; a missing cell raises on [cell.walls]. *)
Definition checkCollision (maze : Grid) (cellSize : Q) (newPosition : Vector3)
  : Outcome bool :=
  let mazeX := mazeCoord cellSize (vx newPosition) in
  let mazeZ := mazeCoord cellSize (vz newPosition) in
  if ((mazeX <? 0) || (Z.of_nat (length maze) <=? mazeX) || (mazeZ <? 0))%Z
  then Ok true
  else
    let* first := defined (maze !! 0%nat) in
    if (Z.of_nat (length first) <=? mazeZ)%Z then Ok true
    else
      let* cell := defined (deref maze (Z.to_nat mazeX, Z.to_nat mazeZ)) in
      let localX := localCoord cellSize (vx newPosition) in
      let localZ := localCoord cellSize (vz newPosition) in
      if north (walls cell) && JS.lt localZ buffer then Ok true
      else if south (walls cell) && JS.gt localZ (cellSize - buffer) then Ok true
      else if west (walls cell) && JS.lt localX buffer then Ok true
      else if east (walls cell) && JS.gt localX (cellSize - buffer) then Ok true
      else Ok false.

(** [velocity.length() > 0]. *)
Definition moving (velocity : Vector3) : bool :=
  negb (Qeq_bool (vx velocity) 0 && Qeq_bool (vy velocity) 0
        && Qeq_bool (vz velocity) 0).

(** The movement part of [useFrame].  [velocity] is the scaled velocity
    vector of the frame; [doorAhead] says whether the ray cast along the
    camera direction meets a door closer than 1.0, in which case the
    callback returns before any position is committed.  The result is
    [currentPosition.current] after the frame. *)
Definition useFrame (maze : Grid) (cellSize : Q)
    (currentPosition velocity : Vector3) (doorAhead : bool) : Outcome Vector3 :=
  if moving velocity && doorAhead then Ok currentPosition
  else
    let newPosition := add currentPosition velocity in
    let testPositionX := setX currentPosition (vx newPosition) in
    let* hitX := checkCollision maze cellSize testPositionX in
    let current1 := if hitX then currentPosition
                    else setX currentPosition (vx newPosition) in
    let testPositionZ := setZ current1 (vz newPosition) in
    let* hitZ := checkCollision maze cellSize testPositionZ in
    Ok (if hitZ then current1 else setZ current1 (vz newPosition)).
End FirstPersonController.

(** ** Door draws: the scene builder ([Maze3D]) and the debug view ([App]) *)

Inductive Direction : Type := North | South | East | West.

#[global] Instance Direction_eq_dec : EqDecision Direction.
Proof. solve_decision. Defined.

(** A door is named by the indices of its cell and the side of the wall. *)
Abbreviation DoorKey := (nat * nat * Direction)%type (only parsing).

(** [array.forEach((item, index) => ...)] threading the variables the
    callback assigns. *)
Fixpoint forEach {A S : Type} (f : A -> nat -> S -> S) (l : list A)
    (index : nat) (s : S) : S :=
  match l with
  | [] => s
  | a :: l' => forEach f l' (Datatypes.S index) (f a index s)
  end.

(** The literal [0.1] of [random() < 0.1]. *)
Definition doorChance : Q := 1 # 10.

Module Maze3D.
Import MazeGenerator.

(** The pieces pushed for one wall: a plain wall, or the three parts of a
    door frame and the door itself. *)
Inductive Piece : Type := Left | Right | Top | Door | Plain.

(** A mesh of [wallElements], by its key ([wall-north-left-x-z],
    [door-north-x-z], [wall-north-x-z], ...) and the [isDoor] flag of its
    [userData]; positions, geometry and material do not enter here. *)
Record Mesh : Type := mkMesh
  { piece : Piece; side : Direction; mx : nat; mz : nat; isDoor : bool }.

Definition State : Type := (Prng.state * list Mesh)%type.

(** One [if (cell.walls.d) { const hasDoor = random() < 0.1; ... }]. *)
Definition wall (present : bool) (d : Direction) (i j : nat) (s : State) : State :=
  if present then
    let (r, rnd) := Prng.next s.1 in
    if JS.lt r doorChance then
      (rnd, s.2 ++ [mkMesh Left d i j false; mkMesh Right d i j false;
                    mkMesh Top d i j false; mkMesh Door d i j true])
    else (rnd, s.2 ++ [mkMesh Plain d i j false])
  else s.

Definition cellWalls (i : nat) (cell : MazeCell) (j : nat) (s : State) : State :=
  let s := wall (north (walls cell)) North i j s in
  let s := wall (south (walls cell)) South i j s in
  let s := wall (east (walls cell)) East i j s in
  wall (west (walls cell)) West i j s.

(** The [walls] memo: [wallElements] after both loops. *)
Definition wallElements (maze : Grid) (seed : Z) : list Mesh :=
  (forEach (fun row i s => forEach (cellWalls i) row 0 s) maze 0
     (Prng.seededRandom seed, [])).2.

(** The doors of the scene: the meshes flagged [isDoor]. *)
Definition doors (maze : Grid) (seed : Z) : list DoorKey :=
  map (fun m => (mx m, mz m, side m)) (filter (fun m => isDoor m = true)
                                         (wallElements maze seed)).
End Maze3D.

Module App.
Import MazeGenerator.

(** [Set<string>] of keys [x,z,side], in insertion order. *)
Definition setAdd (k : DoorKey) (s : list DoorKey) : list DoorKey :=
  if decide (k ∈ s) then s else s ++ [k].

Definition State : Type := (Prng.state * list DoorKey)%type.

Definition wall (present : bool) (d : Direction) (i j : nat) (s : State) : State :=
  if present then
    let (r, rnd) := Prng.next s.1 in
    if JS.lt r doorChance then (rnd, setAdd (i, j, d) s.2) else (rnd, s.2)
  else s.

Definition cellWalls (i : nat) (cell : MazeCell) (j : nat) (s : State) : State :=
  let s := wall (north (walls cell)) North i j s in
  let s := wall (south (walls cell)) South i j s in
  let s := wall (east (walls cell)) East i j s in
  wall (west (walls cell)) West i j s.

(** [doorMap] of [printMazeASCII]. *)
Definition doorMap (maze : Grid) (seed : Z) : list DoorKey :=
  (forEach (fun row i s => forEach (cellWalls i) row 0 s) maze 0
     (Prng.seededRandom seed, [])).2.
End App.

(** ** Vocabulary of the properties *)

Module MazeSpec.
Import MazeGenerator.

(** The wall of a cell on a given side, and the assignment removing it. *)
Definition wallOf (d : Direction) (w : Walls) : bool :=
  match d with
  | North => north w | South => south w | East => east w | West => west w
  end.

Definition clear (d : Direction) : Walls -> Walls :=
  match d with
  | North => clearNorth | South => clearSouth
  | East => clearEast | West => clearWest
  end.

Definition opposite (d : Direction) : Direction :=
  match d with
  | North => South | South => North | East => West | West => East
  end.

(** The cell next to [r] on side [d]: west and north are the lower x and
    the lower z, as in [getNeighbors] and [removeWall]. *)
Definition move (d : Direction) (r : Ref) : option Ref :=
  match d with
  | West => match r.1 with O => None | S i => Some (i, r.2) end
  | East => Some (S r.1, r.2)
  | North => match r.2 with O => None | S j => Some (r.1, j) end
  | South => Some (r.1, S r.2)
  end.

(** [r] is a cell of a [w] by [h] grid. *)
Definition inside (w h : nat) (r : Ref) : Prop := r.1 < w ∧ r.2 < h.

(** The grid is [w] columns of [h] cells, each cell carrying its own
    indices. *)
Definition wellFormed (w h : nat) (g : Grid) : Prop :=
  length g = w
  ∧ (∀ i col, g !! i = Some col → length col = h)
  ∧ (∀ r c, deref g r = Some c → x c = r.1 ∧ z c = r.2).

Definition visitedAt (g : Grid) (r : Ref) : Prop :=
  ∃ c, deref g r = Some c ∧ visited c = true.

(** Both sides of every shared boundary agree. *)
Definition symmetric (g : Grid) : Prop :=
  ∀ d a b ca cb,
    move d a = Some b → deref g a = Some ca → deref g b = Some cb →
    wallOf d (walls ca) = wallOf (opposite d) (walls cb).

(** One step from [a] to the adjacent cell [b] through an open wall. *)
Definition passage (g : Grid) (a b : Ref) : Prop :=
  ∃ d ca, move d a = Some b ∧ deref g a = Some ca ∧ is_Some (deref g b)
          ∧ wallOf d (walls ca) = false.

Definition reachable (g : Grid) : Ref → Ref → Prop := rtc (passage g).

(** Sums over the cells of a grid. *)
Definition total {A : Type} (f : A → nat) (l : list A) : nat :=
  foldr (fun a n => f a + n) 0 l.
Definition gridTotal (f : MazeCell → nat) (g : Grid) : nat :=
  total (total f) g.

Definition flag (b : bool) : nat := if b then 0 else 1.

(** Shared boundaries that are open, each counted once, from its west or
    north cell. *)
Definition removedWalls (g : Grid) : nat :=
  gridTotal (fun c => flag (east (walls c)) + flag (south (walls c))) g.

(** Wall flags that are off, over all cells. *)
Definition openFlags (g : Grid) : nat :=
  gridTotal (fun c => flag (north (walls c)) + flag (south (walls c))
                      + flag (east (walls c)) + flag (west (walls c))) g.

Definition visitedCount (g : Grid) : nat :=
  gridTotal (fun c => if visited c then 1 else 0) g.
Definition unvisitedCount (g : Grid) : nat :=
  gridTotal (fun c => if visited c then 0 else 1) g.

(** The grid after the carving branch of an iteration: the wall between
    [cur] and its neighbour [nb] on side [d] removed on both sides, and
    [nb] marked visited. *)
Definition carved (g : Grid) (d : Direction) (cur nb : Ref) : Grid :=
  update (setVisited true) nb
    (update (setWalls (clear (opposite d))) nb
       (update (setWalls (clear d)) cur g)).

Definition allWalls : Walls := mkWalls true true true true.

(** The passages between visited cells form a tree rooted at the cell
    (0, 0): every other visited cell has a passage to its parent, which is
    nearer to the root, and there is no other passage. *)
Definition rootedTree (g : Grid) (parent : Ref → Ref) (depth : Ref → nat) : Prop :=
  parent (0, 0) = (0, 0)
  ∧ (∀ r, visitedAt g r → r ≠ (0, 0) →
          passage g r (parent r) ∧ depth (parent r) < depth r)
  ∧ (∀ a b, passage g a b → b = parent a ∨ a = parent b).

(** What holds of the loop variables at the head of every iteration, on a
    [w] by [h] grid. *)
Record Invariant (w h : nat) (s : Loop) : Prop := mkInvariant
  { inv_width : width (this s) = Z.of_nat w;
    inv_height : height (this s) = Z.of_nat h;
    inv_wf : wellFormed w h (grid (this s));
    inv_current : visitedAt (grid (this s)) (currentCell s);
    inv_stack : ∀ r, r ∈ stack s → visitedAt (grid (this s)) r;
    inv_origin : visitedAt (grid (this s)) (0, 0);
    inv_symmetric : symmetric (grid (this s));
    inv_closed : ∀ r c, deref (grid (this s)) r = Some c →
                        visited c = false → walls c = allWalls;
    inv_connected : ∀ r, visitedAt (grid (this s)) r →
                         reachable (grid (this s)) (0, 0) r;
    inv_explored : ∀ r, visitedAt (grid (this s)) r →
        r = currentCell s ∨ r ∈ stack s
        ∨ ∀ d n c, move d r = Some n → deref (grid (this s)) n = Some c →
                   visited c = true;
    inv_removed : removedWalls (grid (this s)) + 1 = visitedCount (grid (this s));
    inv_flags : openFlags (grid (this s)) + 2 = 2 * visitedCount (grid (this s));
    inv_tree : ∃ parent depth, rootedTree (grid (this s)) parent depth }.

(** Iterations left: two for every unvisited cell, one for every entry of
    the stack. *)
Definition measure (s : Loop) : nat :=
  2 * unvisitedCount (grid (this s)) + length (stack s).

(** One independent run: a new instance, [generate()], then
    [getStartPosition()]; the wall layout and the start position. *)
Definition run (width height : Z) (seed : option Z) (mathRandom : Q)
  : Outcome (Grid * (Z * Z)) :=
  bind (new width height seed mathRandom) (fun this0 =>
  bind (generate this0) (fun this1 =>
  bind (getStartPosition this1) (fun r => Ok (grid this1, r.1)))).

(** The walls of every cell of a grid. *)
Definition layout (g : Grid) : list (list Walls) := map (map walls) g.

(** The grid cell a world position lies in, for the cell size 4 that the
    generator hard-codes, and the cells off the outermost ring. *)
Definition cellOfWorld (p : Z * Z) : Z * Z := ((p.1 / 4)%Z, (p.2 / 4)%Z).
Definition interiorCell (width height : Z) (cell : Z * Z) : Prop :=
  (1 ≤ cell.1 < width - 1 ∧ 1 ≤ cell.2 < height - 1)%Z.

(** The loop states of [generate] on an instance: the state at loop entry
    and every state an iteration continues with. *)
Inductive Reached (this0 : t) : Loop → Prop :=
  | reached_enter s : enter this0 = Ok s → Reached this0 s
  | reached_iteration s s' :
      Reached this0 s → iteration s = Ok (inl s') → Reached this0 s'.
End MazeSpec.

Module CollisionSpec.
Import MazeGenerator FirstPersonController.
Local Open Scope Q_scope.

(** The grid cell a position maps to. *)
Definition cellOf (cellSize : Q) (p : Vector3) : Ref :=
  (Z.to_nat (mazeCoord cellSize (vx p)), Z.to_nat (mazeCoord cellSize (vz p))).

(** The position maps to a cell of a [w] by [h] grid. *)
Definition inBounds (w h : nat) (cellSize : Q) (p : Vector3) : Prop :=
  (0 ≤ mazeCoord cellSize (vx p) < Z.of_nat w
   ∧ 0 ≤ mazeCoord cellSize (vz p) < Z.of_nat h)%Z.

(** The local offset of the position is closer than the buffer to a wall
    that the cell has: north and west are the low edges, south and east
    the high edges. *)
Definition nearWall (cell : MazeCell) (cellSize : Q) (p : Vector3) : Prop :=
  (north (walls cell) = true ∧ localCoord cellSize (vz p) < buffer)
  ∨ (south (walls cell) = true ∧ cellSize - buffer < localCoord cellSize (vz p))
  ∨ (west (walls cell) = true ∧ localCoord cellSize (vx p) < buffer)
  ∨ (east (walls cell) = true ∧ cellSize - buffer < localCoord cellSize (vx p)).

(** The distance from the position to every wall the cell has is at least
    the buffer. *)
Definition clearOfWalls (cell : MazeCell) (cellSize : Q) (p : Vector3) : Prop :=
  (north (walls cell) = true → buffer <= localCoord cellSize (vz p))
  ∧ (south (walls cell) = true → buffer <= cellSize - localCoord cellSize (vz p))
  ∧ (west (walls cell) = true → buffer <= localCoord cellSize (vx p))
  ∧ (east (walls cell) = true → buffer <= cellSize - localCoord cellSize (vx p)).

(** The four wall tests of [checkCollision], as one disjunction. *)
Definition wallTests (cellSize : Q) (cell : MazeCell) (p : Vector3) : bool :=
  (north (walls cell) && JS.lt (localCoord cellSize (vz p)) buffer
   || south (walls cell) && JS.gt (localCoord cellSize (vz p)) (cellSize - buffer)
   || west (walls cell) && JS.lt (localCoord cellSize (vx p)) buffer
   || east (walls cell) && JS.gt (localCoord cellSize (vx p)) (cellSize - buffer))%bool.

(** The walls of the cell of the wall-blocking scenario. *)
Definition scenarioWalls : Walls :=
  {| north := true; south := false; east := true; west := false |}.
End CollisionSpec.

(** The door placement function in the words of the specification
    ([computeDoors], section 4.4), to be compared with the two consumers: a
    fresh generator from the seed; the outer loop over x ascending, the inner
    loop over z ascending; in each cell the walls in the order north, south,
    east, west; for each wall that is present one draw, and a door when the
    value is below the threshold. *)
Module DoorSpec.
Import MazeGenerator.

Definition State : Type := (Prng.state * list DoorKey)%type.

Definition drawDoor (threshold : Q) (present : bool) (k : DoorKey) (s : State)
  : State :=
  if present then
    let (r, rnd) := Prng.next s.1 in
    (rnd, if JS.lt r threshold then s.2 ++ [k] else s.2)
  else s.

Definition cellDoors (threshold : Q) (i j : nat) (cell : MazeCell) (s : State)
  : State :=
  drawDoor threshold (west (walls cell)) (i, j, West)
    (drawDoor threshold (east (walls cell)) (i, j, East)
       (drawDoor threshold (south (walls cell)) (i, j, South)
          (drawDoor threshold (north (walls cell)) (i, j, North) s))).

Fixpoint columnDoors (threshold : Q) (i j : nat) (col : list MazeCell) (s : State)
  : State :=
  match col with
  | [] => s
  | cell :: col' => columnDoors threshold i (S j) col' (cellDoors threshold i j cell s)
  end.

Fixpoint gridDoors (threshold : Q) (i : nat) (g : Grid) (s : State) : State :=
  match g with
  | [] => s
  | col :: g' => gridDoors threshold (S i) g' (columnDoors threshold i 0 col s)
  end.

Definition computeDoors (g : Grid) (seed : Z) (threshold : Q) : list DoorKey :=
  (gridDoors threshold 0 g (Prng.seededRandom seed, [])).2.

(** The double nearest to 0.1, as a rational. *)
Definition doubleTenth : Q := 3602879701896397 # 36028797018963968.

(** The doors among the meshes of the scene builder. *)
Definition doorKeys (l : list Maze3D.Mesh) : list DoorKey :=
  map (fun m => (Maze3D.mx m, Maze3D.mz m, Maze3D.side m))
    (filter (fun m => Maze3D.isDoor m = true) l).

(** The scene builder against the specification: same generator state,
    same doors in the same order. *)
Definition sceneAgrees (s : Maze3D.State) (t : State) : Prop :=
  s.1 = t.1 ∧ doorKeys s.2 = t.2.

(** The debug view against the specification: same generator state, same
    set of doors. *)
Definition viewAgrees (s : App.State) (t : State) : Prop :=
  s.1 = t.1 ∧ ∀ k, k ∈ s.2 ↔ k ∈ t.2.
End DoorSpec.

(** ** Further vocabulary: the stream of the generator, the rim of the grid *)

Module StreamSpec.
(** The closure after [n] calls, and the value of the call after those. *)
Definition advance (n : nat) (s : Prng.state) : Prng.state :=
  Nat.iter n (fun st => (Prng.next st).2) s.

Definition draw (n : nat) (s : Prng.state) : Q := (Prng.next (advance n s)).1.

(** Both words fit a signed 32-bit integer. *)
Definition int32 (n : Z) : Prop := (-2147483648 ≤ n < 2147483648)%Z.
Definition wordsInRange (s : Prng.state) : Prop :=
  int32 (Prng.m_z s) ∧ int32 (Prng.m_w s).
End StreamSpec.

Module RimSpec.
Import MazeGenerator MazeSpec.

(** Side [d] of the cell [r] faces the outside of a [w] by [h] grid. *)
Definition outward (w h : nat) (r : nat * nat) (d : Direction) : Prop :=
  match move d r with
  | None => True
  | Some n => ¬ inside w h n
  end.

(** Every wall that faces the outside stands. *)
Definition rimStands (w h : nat) (g : Grid) : Prop :=
  ∀ r c d, deref g r = Some c → outward w h r d → wallOf d (walls c) = true.

(** Walls that are present, over all cells. *)
Definition presentWalls (g : Grid) : nat := gridTotal wallCountOf g.
End RimSpec.

(** The walls in the order the two door loops meet them: for every cell,
    by ascending x then z, its four sides with the flag of each. *)
Module DoorScan.
Import MazeGenerator.

Definition Item : Type := (bool * DoorKey)%type.

Definition cellItems (i j : nat) (cell : MazeCell) : list Item :=
  [(north (walls cell), (i, j, North)); (south (walls cell), (i, j, South));
   (east (walls cell), (i, j, East)); (west (walls cell), (i, j, West))].

Fixpoint columnItems (i j : nat) (col : list MazeCell) : list Item :=
  match col with
  | [] => []
  | cell :: col' => cellItems i j cell ++ columnItems i (S j) col'
  end.

Fixpoint gridItems (i : nat) (g : Grid) : list Item :=
  match g with
  | [] => []
  | col :: g' => columnItems i 0 col ++ gridItems (S i) g'
  end.

(** The walls that are present, in scan order. *)
Definition present (items : list Item) : list DoorKey :=
  map snd (filter (fun it : Item => it.1 = true) items).
Definition presentSides (g : Grid) : list DoorKey := present (gridItems 0 g).

(** The present walls whose draw is below the threshold, each present wall
    taking the next value of the stream. *)
Fixpoint pick (threshold : Q) (s : Prng.state) (sides : list DoorKey) : list DoorKey :=
  match sides with
  | [] => []
  | k :: sides' =>
      (if JS.lt (Prng.next s).1 threshold then [k] else [])
      ++ pick threshold (Prng.next s).2 sides'
  end.

(** The meshes of the present walls: the frame and the door where the
    draw is below the threshold, a plain wall elsewhere. *)
Definition frame (k : DoorKey) : list Maze3D.Mesh :=
  [Maze3D.mkMesh Maze3D.Left k.2 k.1.1 k.1.2 false;
   Maze3D.mkMesh Maze3D.Right k.2 k.1.1 k.1.2 false;
   Maze3D.mkMesh Maze3D.Top k.2 k.1.1 k.1.2 false;
   Maze3D.mkMesh Maze3D.Door k.2 k.1.1 k.1.2 true].
Definition plain (k : DoorKey) : list Maze3D.Mesh :=
  [Maze3D.mkMesh Maze3D.Plain k.2 k.1.1 k.1.2 false].

Fixpoint meshes (threshold : Q) (s : Prng.state) (sides : list DoorKey)
  : list Maze3D.Mesh :=
  match sides with
  | [] => []
  | k :: sides' =>
      (if JS.lt (Prng.next s).1 threshold then frame k else plain k)
      ++ meshes threshold (Prng.next s).2 sides'
  end.

(** The wall a mesh belongs to. *)
Definition keyOf (m : Maze3D.Mesh) : DoorKey :=
  (Maze3D.mx m, Maze3D.mz m, Maze3D.side m).

Definition sceneStep (s : Maze3D.State) (it : Item) : Maze3D.State :=
  Maze3D.wall it.1 it.2.2 it.2.1.1 it.2.1.2 s.
Definition viewStep (s : App.State) (it : Item) : App.State :=
  App.wall it.1 it.2.2 it.2.1.1 it.2.1.2 s.
End DoorScan.

(** ** Ceiling lights: the component ([CeilingLights]) and the debug view *)

Module Lights.
Import MazeGenerator.
Local Open Scope outcome_scope.



(** [Set.add] on the keys [x,z], in insertion order. *)
Definition setAdd (k : nat * nat) (s : list (nat * nat)) : list (nat * nat) :=
  if decide (k ∈ s) then s else s ++ [k].

Section Loops.
(** The source of the draws ([Math.random] or a closure of [seededRandom])
    and the way a light is recorded ([push] on an array, [add] on a set). *)
Context {R : Type} (random : R -> Q * R).
Context (add : nat * nat -> list (nat * nat) -> list (nat * nat)).




End Loops.
End Lights.

(** The seeded component: the cells that get a light, in the order of the
    keys [ceiling-light-x-z], and the closure after the loops. *)
Module CeilingLights.
Import MazeGenerator.


End CeilingLights.

(** [lightMap] of [printMazeASCII]. *)
Module PrintMaze.
Import MazeGenerator.

End PrintMaze.

Module LightSpec.
Import MazeGenerator.





End LightSpec.

(** ** Keys and orientation ([FirstPersonController]) *)

From Stdlib Require String Ascii.
Import String.StringSyntax.
Delimit Scope string_scope with string.

(** The functions of [Math] the code calls, on exact rationals. *)
Module JSMath.
Local Open Scope Q_scope.

(** [Math.PI]: the double nearest to the number, which is
    [884279719003555 / 2^48]. *)
Definition PI : Q := 884279719003555 # 281474976710656.

Definition min (a b : Q) : Q := if Qle_bool a b then a else b.
Definition max (a b : Q) : Q := if Qle_bool a b then b else a.
Definition abs (a : Q) : Q := if Qle_bool 0 a then a else - a.
Definition sign (a : Q) : Q :=
  if JS.lt 0 a then 1 else if JS.lt a 0 then - (1) else 0.

(** [Math.round]: the nearest integer, a half going up. *)
Definition round (a : Q) : Z := Qfloor (a + (1 # 2)).
End JSMath.

Module Keyboard.

Record MoveState : Type := mkMoveState
  { forward : bool; backward : bool; left : bool; right : bool }.
Record RotationState : Type := mkRotationState
  { rotateLeft : bool; rotateRight : bool }.

(** [event.code] is one of the labels of a [case] group. *)
Definition oneOf (code : String.string) (labels : list String.string) : bool :=
  existsb (String.eqb code) labels.

(** The first version of the component: the arrow keys move. *)
Definition handleKeyDown1 (code : String.string) (m : MoveState) : MoveState :=
  if oneOf code ["KeyW"%string; "ArrowUp"%string] then
    {| forward := true; backward := backward m; left := left m; right := right m |}
  else if oneOf code ["KeyS"%string; "ArrowDown"%string] then
    {| forward := forward m; backward := true; left := left m; right := right m |}
  else if oneOf code ["KeyA"%string; "ArrowLeft"%string] then
    {| forward := forward m; backward := backward m; left := true; right := right m |}
  else if oneOf code ["KeyD"%string; "ArrowRight"%string] then
    {| forward := forward m; backward := backward m; left := left m; right := true |}
  else m.

Definition handleKeyUp1 (code : String.string) (m : MoveState) : MoveState :=
  if oneOf code ["KeyW"%string; "ArrowUp"%string] then
    {| forward := false; backward := backward m; left := left m; right := right m |}
  else if oneOf code ["KeyS"%string; "ArrowDown"%string] then
    {| forward := forward m; backward := false; left := left m; right := right m |}
  else if oneOf code ["KeyA"%string; "ArrowLeft"%string] then
    {| forward := forward m; backward := backward m; left := false; right := right m |}
  else if oneOf code ["KeyD"%string; "ArrowRight"%string] then
    {| forward := forward m; backward := backward m; left := left m; right := false |}
  else m.

(** The second version: the left and right arrows turn the camera. *)
Definition handleKeyDown (code : String.string) (s : MoveState * RotationState)
  : MoveState * RotationState :=
  let (m, r) := s in
  if oneOf code ["KeyW"%string; "ArrowUp"%string] then
    ({| forward := true; backward := backward m; left := left m; right := right m |}, r)
  else if oneOf code ["KeyS"%string; "ArrowDown"%string] then
    ({| forward := forward m; backward := true; left := left m; right := right m |}, r)
  else if oneOf code ["KeyA"%string] then
    ({| forward := forward m; backward := backward m; left := true; right := right m |}, r)
  else if oneOf code ["KeyD"%string] then
    ({| forward := forward m; backward := backward m; left := left m; right := true |}, r)
  else if oneOf code ["ArrowLeft"%string] then
    (m, {| rotateLeft := true; rotateRight := rotateRight r |})
  else if oneOf code ["ArrowRight"%string] then
    (m, {| rotateLeft := rotateLeft r; rotateRight := true |})
  else s.

Definition handleKeyUp (code : String.string) (s : MoveState * RotationState)
  : MoveState * RotationState :=
  let (m, r) := s in
  if oneOf code ["KeyW"%string; "ArrowUp"%string] then
    ({| forward := false; backward := backward m; left := left m; right := right m |}, r)
  else if oneOf code ["KeyS"%string; "ArrowDown"%string] then
    ({| forward := forward m; backward := false; left := left m; right := right m |}, r)
  else if oneOf code ["KeyA"%string] then
    ({| forward := forward m; backward := backward m; left := false; right := right m |}, r)
  else if oneOf code ["KeyD"%string] then
    ({| forward := forward m; backward := backward m; left := left m; right := false |}, r)
  else if oneOf code ["ArrowLeft"%string] then
    (m, {| rotateLeft := false; rotateRight := rotateRight r |})
  else if oneOf code ["ArrowRight"%string] then
    (m, {| rotateLeft := rotateLeft r; rotateRight := false |})
  else s.

(** The events the two listeners receive, and the refs after a sequence of
    them, from the initial values of [useRef]. *)
Inductive KeyEvent : Type :=
  | KeyDown (code : String.string)
  | KeyUp (code : String.string).

Definition initialMove : MoveState := mkMoveState false false false false.
Definition initialRotation : RotationState := mkRotationState false false.

Definition dispatch1 (m : MoveState) (e : KeyEvent) : MoveState :=
  match e with
  | KeyDown code => handleKeyDown1 code m
  | KeyUp code => handleKeyUp1 code m
  end.

Definition dispatch (s : MoveState * RotationState) (e : KeyEvent)
  : MoveState * RotationState :=
  match e with
  | KeyDown code => handleKeyDown code s
  | KeyUp code => handleKeyUp code s
  end.

Definition after1 (events : list KeyEvent) : MoveState :=
  foldl dispatch1 initialMove events.
Definition after (events : list KeyEvent) : MoveState * RotationState :=
  foldl dispatch (initialMove, initialRotation) events.
End Keyboard.

Module KeySpec.
Import Keyboard.

Definition codeOf (e : KeyEvent) : String.string :=
  match e with KeyDown c | KeyUp c => c end.

(** The last event on one of the keys [labels] was a press. *)
Definition held (labels : list String.string) (events : list KeyEvent) : Prop :=
  ∃ before code later,
    events = before ++ KeyDown code :: later
    ∧ oneOf code labels = true
    ∧ ∀ e, e ∈ later → oneOf (codeOf e) labels = false.
End KeySpec.

(** Which of the eight codes of the handlers an event code is, if any. *)
Ltac which_key c :=
  unfold Keyboard.oneOf; cbn [existsb];
  destruct (String.eqb_spec c "KeyW"%string); [subst; reflexivity|];
  destruct (String.eqb_spec c "ArrowUp"%string); [subst; reflexivity|];
  destruct (String.eqb_spec c "KeyS"%string); [subst; reflexivity|];
  destruct (String.eqb_spec c "ArrowDown"%string); [subst; reflexivity|];
  destruct (String.eqb_spec c "KeyA"%string); [subst; reflexivity|];
  destruct (String.eqb_spec c "ArrowLeft"%string); [subst; reflexivity|];
  destruct (String.eqb_spec c "KeyD"%string); [subst; reflexivity|];
  destruct (String.eqb_spec c "ArrowRight"%string); [subst; reflexivity|];
  reflexivity.

(** The orientation of the camera.  The handlers read [euler] back from the
    quaternion of the camera before they change it and write it to the
    quaternion afterwards; the model keeps the pitch [euler.x] and the yaw
    [euler.y] themselves, the conversion taken as exact (the yaw up to full
    turns), as rationals. *)
Module Look.
Import Keyboard.
Local Open Scope Q_scope.

Record State : Type := mkState
  { pitch : Q; yaw : Q;
    isPointerLocked : bool;
    isLeveling : bool; targetX : Q }.

Definition sensitivity : Q := 2 # 1000.
Definition levelingSpeed : Q := 2.
Definition rotationSpeed : Q := 2.

(** The refs as [useRef] initialises them. *)
Definition initial : State := mkState 0 0 false false 0.

(** [handleMouseMove], with [event.movementX] and [event.movementY]. *)
Definition handleMouseMove (movementX movementY : Q) (s : State) : State :=
  if negb (isPointerLocked s) then s
  else
    let y := yaw s - movementX * sensitivity in
    let x := pitch s - movementY * sensitivity in
    let x := JSMath.max (- JSMath.PI / 2) (JSMath.min (JSMath.PI / 2) x) in
    {| pitch := x; yaw := y; isPointerLocked := isPointerLocked s;
       isLeveling := isLeveling s; targetX := targetX s |}.

(** [handlePointerLockChange]; [locked] is
    [document.pointerLockElement === document.body]. *)
Definition handlePointerLockChange (locked : bool) (s : State) : State :=
  let wasPointerLocked := isPointerLocked s in
  if wasPointerLocked && negb locked then
    {| pitch := pitch s; yaw := yaw s; isPointerLocked := locked;
       isLeveling := true; targetX := 0 |}
  else
    {| pitch := pitch s; yaw := yaw s; isPointerLocked := locked;
       isLeveling := isLeveling s; targetX := targetX s |}.

(** The orientation part of [useFrame]: leveling, or else the rotation by
    the arrow keys. *)
Definition turn (delta : Q) (r : RotationState) (s : State) : State :=
  if isLeveling s then
    let deltaX := targetX s - pitch s in
    let absDeltaX := JSMath.abs deltaX in
    if JS.lt absDeltaX (1 # 100) then
      {| pitch := targetX s; yaw := yaw s; isPointerLocked := isPointerLocked s;
         isLeveling := false; targetX := targetX s |}
    else
      let direction := JSMath.sign deltaX in
      let moveAmount := JSMath.min absDeltaX (levelingSpeed * delta) in
      {| pitch := pitch s + direction * moveAmount; yaw := yaw s;
         isPointerLocked := isPointerLocked s;
         isLeveling := isLeveling s; targetX := targetX s |}
  else if rotateLeft r || rotateRight r then
    let y := yaw s in
    let y := if rotateLeft r then y + rotationSpeed * delta else y in
    let y := if rotateRight r then y - rotationSpeed * delta else y in
    {| pitch := pitch s; yaw := y; isPointerLocked := isPointerLocked s;
       isLeveling := isLeveling s; targetX := targetX s |}
  else s.

(** What reaches the component: mouse moves, pointer lock changes, and
    frames with the time since the last one and the rotation flags. *)
Inductive Event : Type :=
  | MouseMove (movementX movementY : Q)
  | PointerLockChange (locked : bool)
  | Frame (delta : Q) (r : RotationState).

Definition step (s : State) (e : Event) : State :=
  match e with
  | MouseMove mx my => handleMouseMove mx my s
  | PointerLockChange locked => handlePointerLockChange locked s
  | Frame delta r => turn delta r s
  end.

Definition run (events : list Event) (s : State) : State := foldl step s events.
End Look.

Module LookSpec.
Import Look.
Local Open Scope Q_scope.

(** The pitch is between a quarter turn down and a quarter turn up, and
    leveling aims at the horizon. *)
Definition inRange (s : State) : Prop :=
  - JSMath.PI / 2 <= pitch s ∧ pitch s <= JSMath.PI / 2 ∧ targetX s == 0.

(** No frame goes back in time. *)
Definition forward (e : Event) : Prop :=
  match e with Frame delta _ => 0 <= delta | _ => True end.

(** A frame of at least [d] seconds. *)
Definition frameOf (d : Q) (e : Event) : Prop :=
  match e with Frame delta _ => d <= delta | _ => False end.
End LookSpec.

(** ** Door hashes ([doorUtils]) *)

From Stdlib Require DecimalString HexadecimalString.

Module DoorUtils.
Local Open Scope Z_scope.

(** The text a template literal gives for an integral number: its decimal
    digits, after a minus sign when it is negative (numbers below [10^21] in
    absolute value; beyond, the language switches to the exponent form). *)
Definition numberToString (n : Z) : String.string :=
  DecimalString.NilZero.string_of_int (Z.to_int n).

(** [n.toString(16)] for a natural number. *)
Definition toString16 (n : Z) : String.string :=
  HexadecimalString.NilZero.string_of_uint (N.to_hex_uint (Z.to_N n)).

(** [str.charCodeAt(i)] for [i] from 0 to [str.length - 1]. *)
Definition charCodes (str : String.string) : list Z :=
  map (fun a => Z.of_N (Ascii.N_of_ascii a)) (String.list_ascii_of_string str).

(** The string that is hashed: the three coordinates in hundredths. *)
Definition coordinateString (x y z : Q) : String.string :=
  String.append (numberToString (JSMath.round (x * 100)))
    (String.append ","%string
       (String.append (numberToString (JSMath.round (y * 100)))
          (String.append ","%string (numberToString (JSMath.round (z * 100)))))).

(** One pass of the loop: [hash = ((hash << 5) - hash) + char;
    hash = hash & hash]. *)
Definition hashStep (hash char : Z) : Z :=
  let hash := (JS.shl hash 5 - hash) + char in
  JS.and hash hash.

Definition hashString (str : String.string) : Z :=
  foldl hashStep 0 (charCodes str).

Definition hashCoordinates (x y z : Q) : String.string :=
  toString16 (Z.abs (hashString (coordinateString x y z))).
End DoorUtils.

Module HashSpec.
Local Open Scope Z_scope.

(** The polynomial hash with multiplier 31, on unbounded integers. *)
Definition poly31 (codes : list Z) : Z := foldl (fun h c => 31 * h + c) 0 codes.
End HashSpec.

(** ** The state in the URL hash ([App]) *)

Module HashState.
Local Open Scope outcome_scope.

#[local] Set Warnings "-register-all".

(** What [JSON.parse] returns. *)
Inductive Json : Type :=
  | JNull
  | JBool (b : bool)
  | JNumber (q : Q)
  | JString (s : String.string)
  | JArray (l : list Json)
  | JObject (fields : list (String.string * Json)).

(** The value of a key of an object; of two entries with one key the parser
    keeps the later. *)
Definition field (k : String.string) (fields : list (String.string * Json))
  : option Json :=
  foldl (fun acc (e : String.string * Json) =>
           if String.eqb e.1 k then Some e.2 else acc) None fields.

(** [v.k] for the keys the application reads ([seed], [position],
    [rotation], [x], [y], [z]): [undefined] ([None]) where the value has no
    such property, as on numbers, booleans, strings and arrays; a TypeError
    on [null] and [undefined]. *)
Definition get (v : option Json) (k : String.string) : Outcome (option Json) :=
  match v with
  | None | Some JNull => TypeError
  | Some (JObject fields) => Ok (field k fields)
  | Some _ => Ok None
  end.












End HashState.

Module HashStateSpec.
Import HashState.


End HashStateSpec.

(** ** Walking: the movement of successive frames *)

Module Walk.
Import MazeGenerator FirstPersonController.
Local Open Scope outcome_scope.
Local Open Scope Q_scope.

(** [currentPosition.current] after the frames whose scaled velocities and
    door tests are [inputs]. *)
Fixpoint frames (maze : Grid) (cellSize : Q) (position : Vector3)
    (inputs : list (Vector3 * bool)) : Outcome Vector3 :=
  match inputs with
  | [] => Ok position
  | input :: rest =>
      let* p := useFrame maze cellSize position input.1 input.2 in
      frames maze cellSize p rest
  end.

(** At least the buffer inside the outline of a maze of [width] by
    [height] cells, on both axes. *)
Definition withinOutline (width height : Z) (cellSize : Q) (p : Vector3) : Prop :=
  buffer <= vx p ∧ vx p <= inject_Z width * cellSize - buffer
  ∧ buffer <= vz p ∧ vz p <= inject_Z height * cellSize - buffer.

(** The same cell, or the cell next to it through a side without wall. *)
Definition through (g : Grid) (a b : Ref) : Prop := a = b ∨ MazeSpec.passage g a b.

(** A velocity of less than twice the buffer per frame on both axes of the
    ground. *)
Definition slow (velocity : Vector3) : Prop :=
  - (2 * buffer) < vx velocity ∧ vx velocity < 2 * buffer
  ∧ - (2 * buffer) < vz velocity ∧ vz velocity < 2 * buffer.
End Walk.

(** ** Where a door is ([Maze3D], [userData.position]) *)

Module DoorPlace.
Local Open Scope Q_scope.

(** The position a door mesh carries in its [userData], which
    [handleDoorCollision] hands to [hashCoordinates]: the middle of the wall,
    at half the height of the walls. *)
Definition doorPosition (cellSize wallHeight : Q) (k : DoorKey) : Q * Q * Q :=
  let baseX := inject_Z (Z.of_nat k.1.1) * cellSize + cellSize / 2 in
  let baseZ := inject_Z (Z.of_nat k.1.2) * cellSize + cellSize / 2 in
  let wallY := wallHeight / 2 in
  match k.2 with
  | North => (baseX, wallY, baseZ - cellSize / 2)
  | South => (baseX, wallY, baseZ + cellSize / 2)
  | East => (baseX + cellSize / 2, wallY, baseZ)
  | West => (baseX - cellSize / 2, wallY, baseZ)
  end.

(** The position of a door in half cells: odd along the wall, even across
    it. *)
Definition halfCells (k : DoorKey) : Z * Z :=
  let x := Z.of_nat k.1.1 in
  let z := Z.of_nat k.1.2 in
  match k.2 with
  | North => (2 * x + 1, 2 * z)%Z
  | South => (2 * x + 1, 2 * z + 2)%Z
  | East => (2 * x + 2, 2 * z + 1)%Z
  | West => (2 * x, 2 * z + 1)%Z
  end.

(** The same point of space. *)
Definition samePoint (p q : Q * Q * Q) : Prop :=
  p.1.1 == q.1.1 ∧ p.1.2 == q.1.2 ∧ p.2 == q.2.

(** The hash of the door on side [k] of a wall. *)
Definition doorHash (cellSize wallHeight : Q) (k : DoorKey) : String.string :=
  let p := doorPosition cellSize wallHeight k in
  DoorUtils.hashCoordinates p.1.1 p.1.2 p.2.
End DoorPlace.

(** * Properties *)

Import MazeGenerator MazeSpec.

(** ** The grid as a store *)

Section Store.
Implicit Types (g : Grid) (r : Ref) (f : MazeCell → MazeCell).

Lemma deref_update_eq f r g : deref (update f r g) r = f <$> deref g r.
Proof.
  unfold deref, update. rewrite list_lookup_alter_eq.
  destruct (g !! r.1) as [col|]; simpl; [|done].
  by rewrite list_lookup_alter_eq.
Qed.

Lemma deref_update_ne f r r' g : r ≠ r' → deref (update f r g) r' = deref g r'.
Proof.
  intros Hne. unfold deref, update.
  destruct (decide (r.1 = r'.1)) as [e|n].
  - rewrite <- e, list_lookup_alter_eq.
    destruct (g !! r.1) as [col|]; simpl; [|done].
    apply list_lookup_alter_ne. intros e2. apply Hne.
    destruct r, r'; simpl in *; congruence.
  - by rewrite list_lookup_alter_ne.
Qed.

Lemma deref_update f r r' g :
  deref (update f r g) r' = if decide (r = r') then f <$> deref g r' else deref g r'.
Proof.
  destruct (decide (r = r')) as [->|]; [apply deref_update_eq|by apply deref_update_ne].
Qed.

Lemma deref_inside w h g r :
  wellFormed w h g → inside w h r → is_Some (deref g r).
Proof.
  intros (Hl & Hc & _) [H1 H2]. unfold deref.
  destruct (lookup_lt_is_Some_2 g r.1) as [col Hcol]; [lia|].
  rewrite Hcol. apply lookup_lt_is_Some_2. rewrite (Hc _ _ Hcol). lia.
Qed.

Lemma inside_deref w h g r c :
  wellFormed w h g → deref g r = Some c → inside w h r.
Proof.
  intros (Hl & Hc & _). unfold deref, inside.
  destruct (g !! r.1) as [col|] eqn:Hcol; [|done]. intros Hr.
  apply lookup_lt_Some in Hr. rewrite (Hc _ _ Hcol) in Hr.
  apply lookup_lt_Some in Hcol. lia.
Qed.

Lemma wellFormed_update w h f r g :
  (∀ c, x (f c) = x c ∧ z (f c) = z c) →
  wellFormed w h g → wellFormed w h (update f r g).
Proof.
  intros Hf (Hl & Hc & Hi). split; [|split].
  - unfold update. by rewrite length_alter.
  - intros i col. unfold update. rewrite list_lookup_alter.
    destruct (decide (r.1 = i)) as [<-|]; [|apply Hc].
    destruct (g !! r.1) as [col0|] eqn:E; simpl; [|done].
    intros [= <-]. rewrite length_alter. eauto.
  - intros r' c. rewrite deref_update.
    destruct (decide (r = r')) as [<-|]; [|apply Hi].
    destruct (deref g r) as [c0|] eqn:E; simpl; [|done].
    intros [= <-]. destruct (Hf c0) as [-> ->]. by apply Hi.
Qed.

Lemma total_alter {A} (m : A → nat) (h : A → A) (l : list A) i a :
  l !! i = Some a → total m (alter h i l) + m a = total m l + m (h a).
Proof.
  revert i. induction l as [|b l IH]; intros [|i] Hi; simplify_eq/=.
  - lia.
  - specialize (IH _ Hi). unfold total in *. lia.
Qed.

Lemma gridTotal_update (m : MazeCell → nat) f r g c :
  deref g r = Some c →
  gridTotal m (update f r g) + m c = gridTotal m g + m (f c).
Proof.
  unfold deref, gridTotal, update. intros Hr.
  destruct (g !! r.1) as [col|] eqn:Hcol; [|done].
  pose proof (total_alter (total m) (alter f r.2) g r.1 col Hcol) as H1.
  pose proof (total_alter m f col r.2 c Hr) as H2. lia.
Qed.
End Store.

(** ** Sides and neighbours *)

Section Sides.
Implicit Types (d : Direction) (r : Ref) (w : Walls).

Lemma opposite_opposite d : opposite (opposite d) = d.
Proof. by destruct d. Qed.

Lemma wallOf_clear d0 d w :
  wallOf d0 (clear d w) = if decide (d0 = d) then false else wallOf d0 w.
Proof. by destruct d0, d, w. Qed.

Lemma move_opposite d a b : move d a = Some b → move (opposite d) b = Some a.
Proof.
  destruct a as [i j], b as [i' j'], d; simpl; intros H;
    repeat case_match; simplify_eq/=; done.
Qed.

Lemma move_ne d a b : move d a = Some b → a ≠ b.
Proof.
  destruct a as [i j], b as [i' j'], d; simpl; intros H E;
    repeat case_match; simplify_eq/=; lia.
Qed.

Lemma move_side d d' a b : move d a = Some b → move d' a = Some b → d = d'.
Proof.
  destruct a as [i j], b as [i' j'], d, d'; simpl; intros H H';
    repeat case_match; simplify_eq/=; try done; lia.
Qed.

(** On a symmetric grid a passage can be taken both ways. *)
Lemma passage_symmetric (g : Grid) a b :
  symmetric g → passage g a b → passage g b a.
Proof.
  intros Hs (d & ca & Hm & Ha & [cb Hb] & Hw).
  exists (opposite d), cb. split_and!; eauto using move_opposite.
  rewrite <- Hw. symmetry.
  rewrite (Hs d a b ca cb Hm Ha Hb). done.
Qed.

Lemma reachable_symmetric (g : Grid) a b :
  symmetric g → reachable g a b → reachable g b a.
Proof.
  intros Hs. induction 1 as [|a b c Hab _ IH]; [apply rtc_refl|].
  eapply rtc_r; [apply IH|]. by apply passage_symmetric.
Qed.
End Sides.

(** ** The draws of the generator *)

Section Draws.
Local Open Scope Z_scope.

Lemma output_range (s : Prng.state) : 0 ≤ Prng.output s < 4294967296.
Proof. unfold Prng.output, JS.ushr0, JS.toUint32. apply Z.mod_pos_bound. lia. Qed.

(** [Math.floor(random() * n)] is the integer quotient [o * n / 2^32]. *)
Lemma floorIndex_quotient (o : Z) (n : nat) :
  JS.floorIndex (Qmake o 4294967296) n = Z.to_nat (o * Z.of_nat n / 4294967296).
Proof. unfold JS.floorIndex. simpl. by rewrite Pos.mul_1_r. Qed.

(** A draw scaled by the length of a non-empty array is an index of it. *)
Lemma floorIndex_next (s : Prng.state) (n : nat) :
  (0 < n)%nat → (JS.floorIndex (Prng.next s).1 n < n)%nat.
Proof.
  intros Hn. unfold Prng.next. cbn [fst]. rewrite floorIndex_quotient.
  set (o := Prng.output _). pose proof (output_range
    {| Prng.m_z := Prng.mix 36969 (Prng.m_z s);
       Prng.m_w := Prng.mix 18000 (Prng.m_w s) |}) as Ho. fold o in Ho.
  assert (0 ≤ o * Z.of_nat n / 4294967296 < Z.of_nat n); [|lia].
  split; [apply Z.div_pos; lia|]. apply Z.div_lt_upper_bound; nia.
Qed.
End Draws.

(** ** [getNeighbors] and [removeWall] on a well-formed grid *)

Section Neighbours.
Local Open Scope outcome_scope.
Context (w h : nat).
Implicit Types (g : Grid) (r n : Ref) (d : Direction).

Lemma filterUnvisited_spec g (l : list Ref) :
  (∀ n, n ∈ l → is_Some (deref g n)) →
  ∃ l', filterUnvisited g l = Ok l'
        ∧ ∀ n, n ∈ l' ↔ n ∈ l ∧ ∃ c, deref g n = Some c ∧ visited c = false.
Proof.
  induction l as [|a l IH]; intros Hl; simpl.
  - exists []. split; [done|]. intros n. split; [inversion 1|intros [H _]; inversion H].
  - destruct (Hl a) as [c Hc]; [left|]. rewrite Hc. simpl.
    destruct IH as (l' & -> & Hl'); [intros n Hn; apply Hl; by right|]. simpl.
    eexists. split; [done|]. intros n.
    destruct (visited c) eqn:Hv; rewrite ?elem_of_cons, Hl'.
    + split; [naive_solver|]. intros [[->|Hn] (c' & Hc' & Hv')]; [congruence|eauto].
    + split; [intros [->|?]; naive_solver|naive_solver].
Qed.

Lemma pushIf_spec g (cond : bool) i j (acc : list Ref) :
  (cond = true → is_Some (deref g (i, j))) →
  ∃ l, pushIf cond (cellAt g i j) acc = Ok l
       ∧ ∀ n, n ∈ l ↔ n ∈ acc ∨ (cond = true ∧ n = (i, j)).
Proof.
  intros Hc. unfold pushIf, cellAt. destruct cond.
  - destruct Hc as [c Hc]; [done|]. rewrite Hc. simpl. eexists. split; [done|].
    intros n. rewrite elem_of_app, list_elem_of_singleton. naive_solver.
  - eexists. split; [done|]. naive_solver.
Qed.

Lemma getNeighbors_spec (this : t) r :
  width this = Z.of_nat w → height this = Z.of_nat h →
  wellFormed w h (grid this) → inside w h r →
  ∃ l, getNeighbors this r = Ok l
       ∧ ∀ n, n ∈ l ↔ ∃ d c, move d r = Some n
                             ∧ deref (grid this) n = Some c ∧ visited c = false.
Proof.
  intros Hw Hh Hwf Hr. destruct r as [i j]. destruct Hr as [Hi Hj]. simpl in Hi, Hj.
  destruct (deref_inside w h (grid this) (i, j) Hwf) as [c Hc]; [done|].
  pose proof Hwf as (_ & _ & Hxz). destruct (Hxz _ _ Hc) as [Hx Hz]. simpl in Hx, Hz.
  unfold getNeighbors. rewrite Hc. cbn [defined bind]. rewrite Hx, Hz, Hw, Hh.
  assert (Hin : ∀ a b, (a < w)%nat → (b < h)%nat → is_Some (deref (grid this) (a, b)))
    by (intros; by apply (deref_inside w h)).
  destruct (pushIf_spec (grid this) (0 <? i)%nat (i - 1) j []) as (l1 & -> & H1).
  { intros ?%Nat.ltb_lt. apply Hin; lia. }
  cbn [bind].
  destruct (pushIf_spec (grid this) (Z.of_nat i <? Z.of_nat w - 1)%Z (i + 1) j l1)
    as (l2 & -> & H2).
  { intros ?%Z.ltb_lt. apply Hin; lia. }
  cbn [bind].
  destruct (pushIf_spec (grid this) (0 <? j)%nat i (j - 1) l2) as (l3 & -> & H3).
  { intros ?%Nat.ltb_lt. apply Hin; lia. }
  cbn [bind].
  destruct (pushIf_spec (grid this) (Z.of_nat j <? Z.of_nat h - 1)%Z i (j + 1) l3)
    as (l4 & -> & H4).
  { intros ?%Z.ltb_lt. apply Hin; lia. }
  cbn [bind].
  destruct (filterUnvisited_spec (grid this) l4) as (l & -> & Hl).
  { intros n. rewrite H4, H3, H2, H1, !Nat.ltb_lt, !Z.ltb_lt.
    intros [[[[Hn|[? ->]]|[? ->]]|[? ->]]|[? ->]]; [inversion Hn|..];
      apply Hin; lia. }
  exists l. split; [done|]. intros n. rewrite Hl, H4, H3, H2, H1.
  rewrite !Nat.ltb_lt, !Z.ltb_lt. split.
  - intros [Hn (c' & Hc' & Hv)].
    destruct Hn as [[[[Hn|[? ->]]|[? ->]]|[? ->]]|[? ->]]; [inversion Hn|..].
    + exists West, c'. destruct i as [|i']; [lia|].
      replace (S i' - 1)%nat with i' in Hc' |- * by lia. done.
    + exists East, c'. replace (i + 1)%nat with (S i) in Hc' |- * by lia. done.
    + exists North, c'. destruct j as [|j']; [lia|].
      replace (S j' - 1)%nat with j' in Hc' |- * by lia. done.
    + exists South, c'. replace (j + 1)%nat with (S j) in Hc' |- * by lia. done.
  - intros (d & c' & Hm & Hc' & Hv). split; [|eauto].
    pose proof (inside_deref w h _ _ _ Hwf Hc') as [Hn1 Hn2].
    destruct d; simpl in Hm; repeat case_match; simplify_eq/=.
    + left. right. split; [lia|]. f_equal; lia.
    + right. split; [lia|]. f_equal; lia.
    + left. left. right. split; [lia|]. f_equal; lia.
    + left. left. left. right. split; [lia|]. f_equal; lia.
Qed.

Lemma removeWall_spec g d cur nb :
  wellFormed w h g → move d cur = Some nb →
  is_Some (deref g cur) → is_Some (deref g nb) →
  removeWall g cur nb
  = Ok (update (setWalls (clear (opposite d))) nb
          (update (setWalls (clear d)) cur g)).
Proof.
  intros (_ & _ & Hxz) Hm [c Hc] [n Hn]. unfold removeWall. rewrite Hc, Hn.
  cbn [defined bind].
  destruct (Hxz _ _ Hc) as [-> ->], (Hxz _ _ Hn) as [-> ->].
  destruct cur as [i j], nb as [i' j'], d; simpl in Hm; repeat case_match;
    simplify_eq/=; try done;
    repeat match goal with
      | H : (_ =? _)%Z = true |- _ => apply Z.eqb_eq in H
      | H : (_ =? _)%Z = false |- _ => apply Z.eqb_neq in H
      end; lia.
Qed.
End Neighbours.

(** ** Carving a passage *)

Section Carve.
Context (g : Grid) (d : Direction) (cur nb : Ref) (c n : MazeCell).
Hypothesis Hmove : move d cur = Some nb.
Hypothesis Hcur : deref g cur = Some c.
Hypothesis Hnb : deref g nb = Some n.

Lemma deref_carved r :
  deref (carved g d cur nb) r
  = if decide (r = nb)
    then Some (setVisited true (setWalls (clear (opposite d)) n))
    else if decide (r = cur) then Some (setWalls (clear d) c) else deref g r.
Proof using Hmove Hcur Hnb.
  pose proof (move_ne _ _ _ Hmove) as Hne. unfold carved.
  destruct (decide (r = nb)) as [->|Hr].
  - rewrite deref_update_eq, deref_update_eq, deref_update_ne, Hnb by done. done.
  - rewrite !(deref_update_ne _ nb r) by done.
    destruct (decide (r = cur)) as [->|Hr'].
    + by rewrite deref_update_eq, Hcur.
    + by rewrite deref_update_ne.
Qed.

Lemma wellFormed_carved w h :
  wellFormed w h g → wellFormed w h (carved g d cur nb).
Proof. intros H. unfold carved. by repeat apply wellFormed_update. Qed.

Lemma is_Some_carved r : is_Some (deref (carved g d cur nb) r) ↔ is_Some (deref g r).
Proof using Hmove Hcur Hnb.
  rewrite deref_carved. repeat case_decide; subst; rewrite ?Hnb, ?Hcur; split; eauto.
Qed.

Lemma visitedAt_carved r :
  visitedAt (carved g d cur nb) r ↔ r = nb ∨ visitedAt g r.
Proof using Hmove Hcur Hnb.
  unfold visitedAt. rewrite deref_carved. repeat case_decide; subst.
  - split; [by left|]. intros _. eexists. split; [done|]. done.
  - rewrite Hcur. split.
    + intros (c' & [= <-] & Hv). right. eauto.
    + intros [?|(c' & [= <-] & Hv)]; [done|]. eexists. split; [done|]. done.
  - naive_solver.
Qed.

Lemma unvisited_carved r c' :
  deref (carved g d cur nb) r = Some c' → visited c' = false →
  deref g r = Some c' ∨ (r = cur ∧ visited c = false).
Proof using Hmove Hcur Hnb.
  rewrite deref_carved. repeat case_decide; subst.
  - by intros [= <-].
  - intros [= <-]. simpl. by right.
  - by left.
Qed.

Lemma symmetric_carved : symmetric g → symmetric (carved g d cur nb).
Proof using Hmove Hcur Hnb.
  intros Hs d0 a b ca cb Hm. rewrite !deref_carved.
  pose proof (move_ne _ _ _ Hm) as Hab.
  pose proof (move_opposite _ _ _ Hmove) as Hback.
  pose proof (move_opposite _ _ _ Hm) as Hm'.
  repeat case_decide; subst; try done; intros Ha Hb; simplify_eq/=;
    rewrite ?wallOf_clear; repeat case_decide; subst;
    rewrite ?opposite_opposite in *; try done.
  all: try (by pose proof (move_side _ _ _ _ Hm Hmove)).
  all: try (by pose proof (move_side _ _ _ _ Hm Hback)).
  all: try (by pose proof (move_side _ _ _ _ Hm' Hmove)).
  all: try (by pose proof (move_side _ _ _ _ Hm' Hback)).
  all: try (pose proof (move_side _ _ _ _ Hm' Hback) as E; subst;
            by rewrite opposite_opposite in *).
  all: try (pose proof (move_side _ _ _ _ Hm' Hmove) as E; subst;
            by rewrite opposite_opposite in *).
  all: try (eapply Hs; eauto).
  all: congruence.
Qed.

Lemma passage_carved a b : passage g a b → passage (carved g d cur nb) a b.
Proof using Hmove Hcur Hnb.
  intros (d0 & ca & Hm & Ha & Hb & Hw).
  assert (∃ ca', deref (carved g d cur nb) a = Some ca'
                 ∧ wallOf d0 (walls ca') = false) as (ca' & Ha' & Hw').
  { rewrite deref_carved. repeat case_decide; subst; simplify_eq;
      eexists; (split; [done|]); simpl; rewrite ?wallOf_clear;
      by repeat case_decide. }
  exists d0, ca'. split_and!; try done. by apply is_Some_carved.
Qed.

Lemma passage_carved_new : passage (carved g d cur nb) cur nb.
Proof using Hmove Hcur Hnb.
  pose proof (move_ne _ _ _ Hmove) as Hne.
  exists d, (setWalls (clear d) c). split_and!; [done| | |].
  - rewrite deref_carved. by rewrite decide_False, decide_True.
  - apply is_Some_carved. by rewrite Hnb.
  - simpl. rewrite wallOf_clear. by rewrite decide_True.
Qed.

Lemma gridTotal_carved (m : MazeCell → nat) :
  gridTotal m (carved g d cur nb) + m c + m n
  = gridTotal m g + m (setWalls (clear d) c)
    + m (setVisited true (setWalls (clear (opposite d)) n)).
Proof using Hmove Hcur Hnb.
  pose proof (move_ne _ _ _ Hmove) as Hne. unfold carved.
  pose proof (gridTotal_update m (setWalls (clear d)) cur g c Hcur) as H1.
  set (g1 := update (setWalls (clear d)) cur g) in *.
  assert (Hn1 : deref g1 nb = Some n) by (unfold g1; by rewrite deref_update_ne).
  pose proof (gridTotal_update m (setWalls (clear (opposite d))) nb g1 n Hn1) as H2.
  set (g2 := update (setWalls (clear (opposite d))) nb g1) in *.
  assert (Hn2 : deref g2 nb = Some (setWalls (clear (opposite d)) n))
    by (unfold g2; by rewrite deref_update_eq, Hn1).
  pose proof (gridTotal_update m (setVisited true) nb g2 _ Hn2) as H3. lia.
Qed.

(** The counts, when the neighbour is unvisited with all its walls and the
    wall towards it stands. *)
Hypothesis Hwall : wallOf d (walls c) = true.
Hypothesis Hfresh : visited n = false.
Hypothesis Hwalls : walls n = allWalls.

(** The only passages carving adds are the two ways through the removed
    wall. *)
Lemma passage_carved_inv a b :
  passage (carved g d cur nb) a b →
  passage g a b ∨ (a = cur ∧ b = nb) ∨ (a = nb ∧ b = cur).
Proof using All.
  intros (d0 & ca & Hm & Ha & Hb & Hw).
  apply is_Some_carved in Hb. rewrite deref_carved in Ha.
  pose proof (move_opposite _ _ _ Hmove) as Hback.
  repeat case_decide; subst; simplify_eq/=.
  - rewrite wallOf_clear, Hwalls in Hw. case_decide; [subst|by destruct d0].
    right; right. split; [done|]. congruence.
  - rewrite wallOf_clear in Hw. case_decide; [subst|].
    + right; left. split; [done|]. congruence.
    + left. exists d0, c. done.
  - left. exists d0, ca. done.
Qed.

Lemma removedWalls_carved :
  removedWalls (carved g d cur nb) = removedWalls g + 1.
Proof using All.
  pose proof (gridTotal_carved
    (fun c => flag (east (walls c)) + flag (south (walls c)))) as H.
  unfold removedWalls. simpl in H. rewrite Hwalls in H.
  destruct d, (walls c) as [[] [] [] []]; simpl in *; try done; lia.
Qed.

Lemma openFlags_carved : openFlags (carved g d cur nb) = openFlags g + 2.
Proof using All.
  pose proof (gridTotal_carved
    (fun c => flag (north (walls c)) + flag (south (walls c))
              + flag (east (walls c)) + flag (west (walls c)))) as H.
  unfold openFlags. simpl in H. rewrite Hwalls in H.
  destruct d, (walls c) as [[] [] [] []]; simpl in *; try done; lia.
Qed.

Lemma visitedCount_carved :
  visitedCount (carved g d cur nb) = visitedCount g + 1.
Proof using All.
  pose proof (gridTotal_carved (fun c => if visited c then 1 else 0)) as H.
  unfold visitedCount. simpl in H. rewrite Hfresh in H. lia.
Qed.

Lemma unvisitedCount_carved :
  unvisitedCount (carved g d cur nb) + 1 = unvisitedCount g.
Proof using All.
  pose proof (gridTotal_carved (fun c => if visited c then 0 else 1)) as H.
  unfold unvisitedCount. simpl in H. rewrite Hfresh in H. lia.
Qed.
End Carve.

(** ** One iteration of the loop of [generate] *)

Section Iteration.
Context (w h : nat).
Implicit Types (s : Loop).

(** The two branches of an iteration on a state satisfying the invariant:
    it carves towards an unvisited neighbour, or no neighbour is unvisited
    and it backtracks or stops. *)
Lemma iteration_spec s :
  Invariant w h s →
  (∃ d nb n,
      move d (currentCell s) = Some nb
      ∧ deref (grid (this s)) nb = Some n ∧ visited n = false
      ∧ iteration s
        = Ok (inl {| this := withRandom
                       (withGrid (this s)
                          (carved (grid (this s)) d (currentCell s) nb))
                       (Prng.next (random (this s))).2;
                     stack := currentCell s :: stack s;
                     currentCell := nb |}))
  ∨ ((∀ d n c, move d (currentCell s) = Some n →
               deref (grid (this s)) n = Some c → visited c = true)
     ∧ iteration s
       = Ok (match stack s with
             | top :: rest =>
                 inl {| this := this s; stack := rest; currentCell := top |}
             | [] => inr (this s)
             end)).
Proof.
  intros I. destruct (inv_current _ _ _ I) as (c & Hc & Hv).
  pose proof (inside_deref _ _ _ _ _ (inv_wf _ _ _ I) Hc) as Hin.
  destruct (getNeighbors_spec w h (this s) (currentCell s)
    (inv_width _ _ _ I) (inv_height _ _ _ I) (inv_wf _ _ _ I) Hin) as (l & Hget & Hl).
  unfold iteration. rewrite Hget. cbn [bind].
  destruct l as [|a l].
  - right. split.
    + intros d n c' Hm Hn. destruct (visited c') eqn:E; [done|].
      assert (Hel : n ∈ @nil (nat * nat)) by (apply Hl; eauto). inversion Hel.
    + simpl. by destruct (stack s).
  - left. set (l0 := a :: l) in *.
    assert (Hlen : 0 < length l0) by (simpl; lia).
    replace (0 <? length l0) with true by (symmetry; by apply Nat.ltb_lt).
    pose proof (floorIndex_next (random (this s)) _ Hlen) as Hidx.
    destruct (Prng.next (random (this s))) as [r rnd] eqn:Enext. cbn [fst] in Hidx.
    destruct (lookup_lt_is_Some_2 l0 _ Hidx) as [nb Hnb]. rewrite Hnb.
    cbn [defined bind].
    assert (Hel : nb ∈ l0) by (eapply list_elem_of_lookup_2; eauto).
    apply Hl in Hel as (d & n & Hm & Hn & Hvn).
    exists d, nb, n. split_and!; try done.
    rewrite (removeWall_spec w h _ d) by eauto using inv_wf. done.
Qed.

(** Passages join visited cells only. *)
Lemma passage_visited s a b :
  Invariant w h s → passage (grid (this s)) a b →
  visitedAt (grid (this s)) a ∧ visitedAt (grid (this s)) b.
Proof.
  intros I (d & ca & Hm & Ha & [cb Hb] & Hw).
  pose proof (inv_symmetric _ _ _ I d a b ca cb Hm Ha Hb) as Hsym.
  split.
  - exists ca. split; [done|]. destruct (visited ca) eqn:E; [done|].
    rewrite (inv_closed _ _ _ I a ca Ha E) in Hw. by destruct d.
  - exists cb. split; [done|]. destruct (visited cb) eqn:E; [done|].
    rewrite (inv_closed _ _ _ I b cb Hb E), Hw in Hsym. by destruct d.
Qed.

Lemma Invariant_carve s d nb n rnd :
  Invariant w h s →
  move d (currentCell s) = Some nb →
  deref (grid (this s)) nb = Some n → visited n = false →
  let s' := {| this := withRandom
                 (withGrid (this s) (carved (grid (this s)) d (currentCell s) nb))
                 rnd;
               stack := currentCell s :: stack s;
               currentCell := nb |} in
  Invariant w h s' ∧ measure s' + 1 = measure s.
Proof.
  intros I Hm Hn Hvn. destruct (inv_current _ _ _ I) as (c & Hc & Hv).
  pose proof (inv_closed _ _ _ I _ _ Hn Hvn) as Hwalls.
  assert (Hwall : wallOf d (walls c) = true).
  { rewrite (inv_symmetric _ _ _ I d _ _ _ _ Hm Hc Hn), Hwalls. by destruct d. }
  set (g := grid (this s)) in *. set (cur := currentCell s) in *.
  pose proof (visitedAt_carved g d cur nb c n Hm Hc Hn) as Hvis.
  split; [split|]; simpl.
  - apply (inv_width _ _ _ I).
  - apply (inv_height _ _ _ I).
  - apply wellFormed_carved, (inv_wf _ _ _ I).
  - apply Hvis. by left.
  - intros r [->|Hr]%elem_of_cons; apply Hvis; right.
    + by exists c.
    + by apply (inv_stack _ _ _ I).
  - apply Hvis. right. apply (inv_origin _ _ _ I).
  - eapply symmetric_carved; eauto. apply (inv_symmetric _ _ _ I).
  - intros r c' Hr Hvr.
    destruct (unvisited_carved g d cur nb c n Hm Hc Hn r c' Hr Hvr) as [Hg|[_ Hf]].
    + by apply (inv_closed _ _ _ I r).
    + congruence.
  - intros r [->|Hr]%Hvis.
    + eapply rtc_r; [|by eapply passage_carved_new].
      eapply rtc_subrel; [|apply (inv_connected _ _ _ I); by exists c].
      intros a b. by eapply passage_carved.
    + eapply rtc_subrel; [|by apply (inv_connected _ _ _ I)].
      intros a b. by eapply passage_carved.
  - intros r [->|Hr]%Hvis; [by left|]. right.
    destruct (inv_explored _ _ _ I r Hr) as [->|[Hs|Hex]].
    + left. by left.
    + left. by right.
    + right. intros d0 n0 c0 Hm0. rewrite (deref_carved g d cur nb c n) by done.
      repeat case_decide; subst.
      * by intros [= <-].
      * by intros [= <-].
      * intros ?. by eapply Hex.
  - rewrite (removedWalls_carved g d cur nb c n), (visitedCount_carved g d cur nb c n)
      by done. pose proof (inv_removed _ _ _ I). fold g in H. lia.
  - rewrite (openFlags_carved g d cur nb c n), (visitedCount_carved g d cur nb c n)
      by done. pose proof (inv_flags _ _ _ I). fold g in H. lia.
  - destruct (inv_tree _ _ _ I) as (parent & depth & Hroot & Hup & Honly).
    fold g in Hup, Honly.
    assert (Hfresh : ¬ visitedAt g nb) by (intros (n' & Hn' & Hv'); congruence).
    exists (fun r => if decide (r = nb) then cur else parent r),
      (fun r => if decide (r = nb) then S (depth cur) else depth r).
    assert (Hcn : cur ≠ nb) by (by eapply move_ne).
    split; [|split].
    + rewrite decide_False; [done|]. intros <-. apply Hfresh, (inv_origin _ _ _ I).
    + intros r [->|Hr]%Hvis Hr0.
      * cbn beta. rewrite !(decide_True (P := nb = nb)) by done.
        rewrite !(decide_False (P := cur = nb)) by done.
        split; [|lia]. apply passage_symmetric.
        -- eapply symmetric_carved; eauto. apply (inv_symmetric _ _ _ I).
        -- by eapply passage_carved_new.
      * assert (r ≠ nb) by (by intros ->). cbn beta.
        rewrite !(decide_False (P := r = nb)) by done.
        destruct (Hup r Hr Hr0) as [Hp Hd].
        assert (parent r ≠ nb).
        { intros E. apply Hfresh. rewrite <- E.
          by apply (passage_visited s r (parent r) I Hp). }
        rewrite !(decide_False (P := parent r = nb)) by done.
        split; [by eapply passage_carved|done].
    + intros a b Hab.
      destruct (passage_carved_inv g d cur nb c n Hm Hc Hn Hwall Hvn Hwalls a b Hab)
        as [Hold|[[-> ->]|[-> ->]]].
      * destruct (passage_visited s a b I Hold) as [Ha Hb].
        assert (a ≠ nb) by (by intros ->). assert (b ≠ nb) by (by intros ->).
        cbn beta. rewrite !(decide_False (P := a = nb)) by done.
        rewrite !(decide_False (P := b = nb)) by done. by apply Honly.
      * right. cbn beta. by rewrite (decide_True (P := nb = nb)).
      * left. cbn beta. by rewrite (decide_True (P := nb = nb)).
  - unfold measure. simpl.
    pose proof (unvisitedCount_carved g d cur nb c n Hm Hc Hn Hwall Hvn Hwalls). fold g. lia.
Qed.

Lemma Invariant_pop s top rest :
  Invariant w h s →
  (∀ d n c, move d (currentCell s) = Some n →
            deref (grid (this s)) n = Some c → visited c = true) →
  stack s = top :: rest →
  let s' := {| this := this s; stack := rest; currentCell := top |} in
  Invariant w h s' ∧ measure s' + 1 = measure s.
Proof.
  intros [Hw Hh Hwf Hcur Hstk Horig Hsym Hcl Hconn Hexp Hrem Hfl Htree] Hdone Hst.
  split; [split|]; simpl; try done.
  - apply Hstk. rewrite Hst. by left.
  - intros r Hr. apply Hstk. rewrite Hst. by right.
  - intros r Hr. destruct (Hexp r Hr) as [->|[Hs|Hex]].
    + by right; right.
    + rewrite Hst in Hs. apply elem_of_cons in Hs as [->|Hs]; [by left|].
      right. by left.
    + by right; right.
  - unfold measure. simpl. rewrite Hst. simpl. lia.
Qed.

(** An iteration that continues keeps the invariant and uses up one unit
    of the measure. *)
Lemma iteration_continue s s' :
  Invariant w h s → iteration s = Ok (inl s') →
  Invariant w h s' ∧ measure s' + 1 = measure s.
Proof.
  intros I Hit.
  destruct (iteration_spec s I) as [(d & nb & n & Hm & Hn & Hv & E)|[Hdone E]];
    rewrite E in Hit.
  - injection Hit as <-. by eapply Invariant_carve.
  - destruct (stack s) as [|top rest] eqn:Hst; [done|].
    injection Hit as <-. by apply Invariant_pop.
Qed.

(** An iteration on a state satisfying the invariant does not raise. *)
Lemma iteration_total s :
  Invariant w h s → ∃ r, iteration s = Ok r.
Proof.
  intros I.
  destruct (iteration_spec s I) as [(d & nb & n & Hm & Hn & Hv & E)|[Hdone E]];
    rewrite E; eauto.
Qed.

(** When the loop breaks, every cell is visited. *)
Lemma iteration_break s final :
  Invariant w h s → iteration s = Ok (inr final) →
  final = this s ∧ ∀ r, inside w h r → visitedAt (grid (this s)) r.
Proof.
  intros I Hit.
  destruct (iteration_spec s I) as [(d & nb & n & Hm & Hn & Hv & E)|[Hdone E]];
    rewrite E in Hit; [done|].
  destruct (stack s) as [|top rest] eqn:Hst; [|done].
  injection Hit as <-. split; [done|].
  assert (Hex : ∀ r d n, visitedAt (grid (this s)) r → move d r = Some n →
                         inside w h n → visitedAt (grid (this s)) n).
  { intros r d n Hr Hm Hn.
    destruct (deref_inside _ _ _ _ (inv_wf _ _ _ I) Hn) as [c Hc].
    exists c. split; [done|].
    destruct (inv_explored _ _ _ I r Hr) as [->|[Hs|Hex]].
    - by eapply Hdone.
    - rewrite Hst in Hs. inversion Hs.
    - by eapply Hex. }
  assert (Hcol : ∀ j, j < h → visitedAt (grid (this s)) (0, j)).
  { induction j as [|j IH]; intros Hj; [apply (inv_origin _ _ _ I)|].
    apply (Hex (0, j) South); [apply IH; lia|done|]. split; simpl; [|done].
    destruct (inv_origin _ _ _ I) as (c0 & Hc0 & _).
    apply (inside_deref _ _ _ _ _ (inv_wf _ _ _ I)) in Hc0 as [? _]. done. }
  intros [i j] [Hi Hj]. simpl in Hi, Hj. induction i as [|i IH]; [by apply Hcol|].
  apply (Hex (i, j) East); [apply IH; lia|done|]. by split.
Qed.
End Iteration.

(** ** The grid at construction and at loop entry *)

Section Initial.
Implicit Types (width height : Z) (r : Ref).

Lemma deref_initializeGrid width height r :
  deref (initializeGrid width height) r
  = if decide (inside (Z.to_nat width) (Z.to_nat height) r)
    then Some (freshCell r.1 r.2) else None.
Proof.
  unfold deref, initializeGrid, inside. rewrite list_lookup_fmap.
  destruct (decide (r.1 < Z.to_nat width)) as [H1|H1].
  - rewrite lookup_seq_lt by done. simpl. rewrite list_lookup_fmap.
    destruct (decide (r.2 < Z.to_nat height)) as [H2|H2].
    + rewrite lookup_seq_lt by done. simpl. by rewrite decide_True.
    + rewrite lookup_seq_ge by lia. simpl. rewrite decide_False; [done|lia].
  - rewrite lookup_seq_ge by lia. simpl. rewrite decide_False; [done|lia].
Qed.

Lemma wellFormed_initializeGrid width height :
  wellFormed (Z.to_nat width) (Z.to_nat height) (initializeGrid width height).
Proof.
  split; [|split].
  - unfold initializeGrid. by rewrite length_map, length_seq.
  - intros i col. unfold initializeGrid. rewrite list_lookup_fmap.
    destruct (seq 0 (Z.to_nat width) !! i); simpl; [|done].
    intros [= <-]. by rewrite length_map, length_seq.
  - intros r c. rewrite deref_initializeGrid. case_decide; [|done].
    by intros [= <-].
Qed.

Lemma total_map_const {A B} (m : B → nat) (f : A → B) (l : list A) k :
  (∀ a, m (f a) = k) → total m (map f l) = length l * k.
Proof. intros Hk. induction l as [|a l IH]; simpl; [done|]. rewrite Hk, IH. lia. Qed.

Lemma gridTotal_initializeGrid (m : MazeCell → nat) width height k :
  (∀ i j, m (freshCell i j) = k) →
  gridTotal m (initializeGrid width height)
  = Z.to_nat width * (Z.to_nat height * k).
Proof.
  intros Hk. unfold gridTotal, initializeGrid.
  rewrite (total_map_const _ _ _ (Z.to_nat height * k)), length_seq; [done|].
  intros i. rewrite (total_map_const _ _ _ k), length_seq; [done|]. apply Hk.
Qed.

(** A grid without a cell (0,0) makes [generate] raise before the loop. *)
Lemma enter_degenerate width height seed mathRandom :
  (width ≤ 0 ∨ height ≤ 0)%Z →
  enter (constructor width height seed mathRandom) = TypeError.
Proof.
  intros Hd. unfold enter. simpl.
  destruct (initializeGrid width height !! 0) as [col|] eqn:E; [|done]. simpl.
  pose proof (deref_initializeGrid width height (0, 0)) as H.
  rewrite decide_False in H by (unfold inside; simpl; lia). by rewrite H.
Qed.

(** On a grid with at least one cell the loop is entered with the
    invariant, and with fewer than [2 * width * height] iterations left. *)
Lemma enter_spec width height seed mathRandom :
  (1 ≤ width)%Z → (1 ≤ height)%Z →
  ∃ s, enter (constructor width height seed mathRandom) = Ok s
       ∧ Invariant (Z.to_nat width) (Z.to_nat height) s
       ∧ measure s + 2 = 2 * (Z.to_nat width * Z.to_nat height).
Proof.
  intros Hw Hh. set (g0 := initializeGrid width height).
  assert (H00 : deref g0 (0, 0) = Some (freshCell 0 0)).
  { unfold g0. rewrite deref_initializeGrid, decide_True; [done|].
    unfold inside. simpl. lia. }
  assert (Hcol : is_Some (g0 !! 0)).
  { unfold deref in H00. simpl in H00. destruct (g0 !! 0); [eauto|done]. }
  destruct Hcol as [col Hcol].
  set (g := update (setVisited true) (0, 0) g0).
  assert (Hderef : ∀ r c, deref g r = Some c →
            walls c = allWalls ∧ (visited c = true ↔ r = (0, 0))).
  { intros r c. unfold g. rewrite deref_update. case_decide as E.
    - subst r. rewrite H00. simpl. by intros [= <-].
    - unfold g0. rewrite deref_initializeGrid. case_decide; [|done].
      intros [= <-]. simpl. split; [done|]. split; [done|]. intros ->. done. }
  assert (Hg00 : visitedAt g (0, 0)).
  { exists (setVisited true (freshCell 0 0)). split; [|done].
    unfold g. by rewrite deref_update_eq, H00. }
  eexists. split.
  { unfold enter. cbn [constructor grid]. fold g0. rewrite Hcol, H00. done. }
  pose proof (gridTotal_update (fun c => flag (east (walls c)) + flag (south (walls c)))
                (setVisited true) (0, 0) g0 _ H00) as Hrem.
  pose proof (gridTotal_update
                (fun c => flag (north (walls c)) + flag (south (walls c))
                          + flag (east (walls c)) + flag (west (walls c)))
                (setVisited true) (0, 0) g0 _ H00) as Hfl.
  pose proof (gridTotal_update (fun c => if visited c then 1 else 0)
                (setVisited true) (0, 0) g0 _ H00) as Hvis.
  pose proof (gridTotal_update (fun c => if visited c then 0 else 1)
                (setVisited true) (0, 0) g0 _ H00) as Hunv.
  unfold g0 in Hrem, Hfl, Hvis, Hunv.
  rewrite (gridTotal_initializeGrid _ _ _ 0) in Hrem by done.
  rewrite (gridTotal_initializeGrid _ _ _ 0) in Hfl by done.
  rewrite (gridTotal_initializeGrid _ _ _ 0) in Hvis by done.
  rewrite (gridTotal_initializeGrid _ _ _ 1) in Hunv by done.
  fold g0 in Hrem, Hfl, Hvis, Hunv. fold g in Hrem, Hfl, Hvis, Hunv.
  simpl in Hrem, Hfl, Hvis, Hunv.
  split; [split|]; cbn [this stack currentCell withGrid grid MazeGenerator.width
         MazeGenerator.height constructor];
    fold g0; fold g.
  - lia.
  - lia.
  - apply wellFormed_update; [done|]. apply wellFormed_initializeGrid.
  - done.
  - intros r Hr. inversion Hr.
  - done.
  - intros d a b ca cb _ [-> _]%Hderef [-> _]%Hderef. by destruct d.
  - intros r c [-> _]%Hderef. done.
  - intros r (c & Hc & Hv). destruct (Hderef _ _ Hc) as [_ Hr].
    rewrite (proj1 Hr Hv). apply rtc_refl.
  - intros r (c & Hc & Hv). destruct (Hderef _ _ Hc) as [_ Hr].
    left. by apply Hr.
  - unfold removedWalls, visitedCount. lia.
  - unfold openFlags, visitedCount. lia.
  - exists (fun r => r), (fun _ => 0). split; [done|]. split.
    + intros r (c & Hc & Hv) Hr. destruct (Hderef _ _ Hc) as [_ Hr']. tauto.
    + intros a b (d & ca & _ & Ha & _ & Hopen). destruct (Hderef _ _ Ha) as [Hall _].
      rewrite Hall in Hopen. by destruct d.
  - unfold measure, unvisitedCount.
    cbn [this stack currentCell withGrid grid]. fold g0; fold g. simpl. lia.
Qed.
End Initial.

(** ** The loop of [generate] *)

Section Loop.
Context (w h : nat).

(** With more fuel than the measure, the loop breaks: it returns the
    instance of a state that satisfies the invariant and has every cell
    visited. *)
Lemma loop_terminates fuel s :
  Invariant w h s → measure s < fuel →
  ∃ s', loop fuel s = Ok (this s') ∧ Invariant w h s'
        ∧ ∀ r, inside w h r → visitedAt (grid (this s')) r.
Proof.
  revert s. induction fuel as [|fuel IH]; intros s I Hm; [lia|].
  destruct (iteration_total w h s I) as [[s1|final] Hit]; simpl; rewrite Hit; simpl.
  - destruct (iteration_continue w h s s1 I Hit) as [I1 Hm1].
    apply IH; [done|lia].
  - destruct (iteration_break w h s final I Hit) as [-> Hall]. eauto.
Qed.

(** Every state the loop goes through satisfies the invariant. *)
Lemma Reached_Invariant width height seed mathRandom s :
  Reached (constructor width height seed mathRandom) s →
  Invariant (Z.to_nat width) (Z.to_nat height) s.
Proof.
  induction 1 as [s Hs|s s' _ IH Hit].
  - destruct (decide (1 ≤ width ∧ 1 ≤ height)%Z) as [[Hw Hh]|Hd].
    + destruct (enter_spec width height seed mathRandom Hw Hh) as (s0 & E & I & _).
      congruence.
    + rewrite enter_degenerate in Hs by lia. done.
  - by destruct (iteration_continue _ _ s s' IH Hit).
Qed.

End Loop.

(** ** [generate] as a whole *)

Section Generate.
Implicit Types (width height : Z) (seed : option Z) (mathRandom : Q).

Lemma total_const {A} (m : A → nat) (l : list A) k :
  (∀ i a, l !! i = Some a → m a = k) → total m l = length l * k.
Proof.
  induction l as [|b l IH]; intros Hk; simpl; [done|].
  rewrite (Hk 0 b) by done. rewrite IH; [lia|].
  intros i a Hi. by apply (Hk (S i)).
Qed.

Lemma gridTotal_const w h (m : MazeCell → nat) (g : Grid) k :
  wellFormed w h g → (∀ r c, deref g r = Some c → m c = k) →
  gridTotal m g = w * (h * k).
Proof.
  intros (Hl & Hc & _) Hk. unfold gridTotal.
  rewrite (total_const _ _ (h * k)), Hl; [done|].
  intros i col Hcol. rewrite (total_const _ _ k), (Hc _ _ Hcol); [done|].
  intros j a Ha. apply (Hk (i, j)). unfold deref. simpl. by rewrite Hcol.
Qed.

(** [generate] on a grid with at least one cell returns, and what it
    returns is the instance of a loop state that satisfies the invariant
    and has every cell visited. *)
Lemma generate_final width height seed mathRandom :
  (1 ≤ width)%Z → (1 ≤ height)%Z →
  ∃ s, generate (constructor width height seed mathRandom) = Ok (this s)
       ∧ Invariant (Z.to_nat width) (Z.to_nat height) s
       ∧ ∀ r, inside (Z.to_nat width) (Z.to_nat height) r →
              visitedAt (grid (this s)) r.
Proof.
  intros Hw Hh.
  destruct (enter_spec width height seed mathRandom Hw Hh) as (s0 & E & I & Hm).
  unfold generate. rewrite E. cbn [bind].
  apply loop_terminates; [done|]. unfold fuelFor. simpl. lia.
Qed.

(** The fuel granted to the loop is never what ends [generate]. *)
Lemma generate_never_times_out width height seed mathRandom :
  generate (constructor width height seed mathRandom) ≠ OutOfFuel.
Proof.
  destruct (decide (1 ≤ width ∧ 1 ≤ height)%Z) as [[Hw Hh]|Hd].
  - destruct (generate_final width height seed mathRandom Hw Hh) as (s & -> & _).
    done.
  - unfold generate. rewrite enter_degenerate by lia. done.
Qed.

(** Whatever the fuel, a result of the loop is the instance of a state
    that satisfies the invariant. *)
Lemma loop_result w h fuel s final :
  Invariant w h s → loop fuel s = Ok final →
  ∃ s', Invariant w h s' ∧ final = this s'.
Proof.
  revert s. induction fuel as [|fuel IH]; intros s I; simpl; [done|].
  destruct (iteration_total w h s I) as [[s1|f] Hit]; rewrite Hit; simpl.
  - apply IH. by destruct (iteration_continue w h s s1 I Hit).
  - intros [= <-]. destruct (iteration_break w h s f I Hit) as [-> _]. eauto.
Qed.
End Generate.

(** ** Claims on the generator *)

(** C2.  For every width and height of at least 1, [generate] terminates
    and returns a grid in which every cell is reachable from every other
    cell through open walls, with exactly [width * height - 1] walls
    removed.  The passages form a spanning tree of the cells, rooted at the
    cell (0, 0): every other cell has a passage to a parent nearer to the
    root, and every passage joins a cell and its parent.  Each removed wall
    is off on both of its sides, which makes [2 * (width * height - 1)]
    flags. *)
Theorem generate_spanning_tree (width height : Z) (seed : option Z) (mathRandom : Q) :
  (1 ≤ width)%Z → (1 ≤ height)%Z →
  ∃ final,
    generate (constructor width height seed mathRandom) = Ok final
    ∧ wellFormed (Z.to_nat width) (Z.to_nat height) (grid final)
    ∧ (∀ a b, inside (Z.to_nat width) (Z.to_nat height) a →
              inside (Z.to_nat width) (Z.to_nat height) b →
              reachable (grid final) a b)
    ∧ removedWalls (grid final) = Z.to_nat width * Z.to_nat height - 1
    ∧ openFlags (grid final) = 2 * (Z.to_nat width * Z.to_nat height - 1)
    ∧ ∃ (parent : nat * nat → nat * nat) (depth : nat * nat → nat),
        parent (0, 0) = (0, 0)
        ∧ (∀ r, inside (Z.to_nat width) (Z.to_nat height) r → r ≠ (0, 0) →
                passage (grid final) r (parent r) ∧ depth (parent r) < depth r)
        ∧ (∀ a b, passage (grid final) a b → b = parent a ∨ a = parent b).
Proof.
  intros Hw Hh.
  destruct (generate_final width height seed mathRandom Hw Hh) as (s & E & I & Hall).
  exists (this s). split; [done|]. split; [apply I|].
  assert (Hcount : visitedCount (grid (this s)) = Z.to_nat width * Z.to_nat height).
  { unfold visitedCount.
    rewrite (gridTotal_const _ _ _ _ 1 (inv_wf _ _ _ I)); [lia|].
    intros r c Hc.
    destruct (Hall r (inside_deref _ _ _ _ _ (inv_wf _ _ _ I) Hc)) as (c' & Hc' & Hv).
    rewrite Hc in Hc'. injection Hc' as <-. by rewrite Hv. }
  split; [|split; [|split]].
  - intros a b Ha Hb. etrans.
    + apply reachable_symmetric; [apply I|]. apply (inv_connected _ _ _ I), Hall, Ha.
    + apply (inv_connected _ _ _ I), Hall, Hb.
  - pose proof (inv_removed _ _ _ I). lia.
  - pose proof (inv_flags _ _ _ I). lia.
  - destruct (inv_tree _ _ _ I) as (parent & depth & Hroot & Hup & Honly).
    exists parent, depth. split; [done|]. split; [|done].
    intros r Hr. by apply Hup, Hall.
Qed.

Lemma generate_spanning_tree_witness :
  ∃ final,
    generate (constructor 5 5 (Some 42%Z) 0) = Ok final
    ∧ wellFormed 5 5 (grid final)
    ∧ (∀ a b, inside 5 5 a → inside 5 5 b → reachable (grid final) a b)
    ∧ removedWalls (grid final) = 24
    ∧ openFlags (grid final) = 48
    ∧ ∃ (parent : nat * nat → nat * nat) (depth : nat * nat → nat),
        parent (0, 0) = (0, 0)
        ∧ (∀ r, inside 5 5 r → r ≠ (0, 0) →
                passage (grid final) r (parent r) ∧ depth (parent r) < depth r)
        ∧ (∀ a b, passage (grid final) a b → b = parent a ∨ a = parent b).
Proof. apply (generate_spanning_tree 5 5 (Some 42%Z) 0); lia. Defined.

(** C6.  Before generation, at the head of every iteration of the loop of
    [generate], and in the grid it returns, the two sides of every shared
    boundary agree: the wall of a cell on side [d] is open exactly when the
    wall of its neighbour on that side is open on the opposite side.  The
    two assignments of one [removeWall] call are taken together. *)
Theorem wall_symmetry_invariant (width height : Z) (seed : option Z) (mathRandom : Q) :
  symmetric (grid (constructor width height seed mathRandom))
  ∧ (∀ s, Reached (constructor width height seed mathRandom) s →
          symmetric (grid (this s)))
  ∧ (∀ final, generate (constructor width height seed mathRandom) = Ok final →
              symmetric (grid final)).
Proof.
  split; [|split].
  - intros d a b ca cb _. simpl. rewrite !deref_initializeGrid.
    repeat case_decide; try done. intros [= <-] [= <-]. by destruct d.
  - intros s Hs. apply (inv_symmetric _ _ _ (Reached_Invariant _ _ _ _ _ Hs)).
  - intros final. unfold generate.
    destruct (enter (constructor width height seed mathRandom)) as [s0| |] eqn:E;
      simpl; try done.
    intros Hloop.
    assert (I0 : Invariant (Z.to_nat width) (Z.to_nat height) s0)
      by (eapply Reached_Invariant; by constructor).
    destruct (loop_result _ _ _ _ _ I0 Hloop) as (s' & I' & ->). apply I'.
Qed.

(** ** Seeds *)

Section Seeds.
Implicit Types (width height s : Z) (mathRandom : Q).

(** A supplied seed other than 0 fixes the instance, whatever
    [Math.random] would return. *)
Lemma constructor_nonzero_seed width height s mathRandom mathRandom' :
  s ≠ 0%Z →
  constructor width height (Some s) mathRandom
  = constructor width height (Some s) mathRandom'.
Proof.
  intros Hs. unfold constructor, chooseSeed.
  by rewrite (proj2 (Z.eqb_neq s 0) Hs).
Qed.

Lemma run_nonzero_seed width height s mathRandom mathRandom' :
  s ≠ 0%Z →
  run width height (Some s) mathRandom = run width height (Some s) mathRandom'.
Proof.
  intros Hs. unfold run, new.
  by rewrite (constructor_nonzero_seed _ _ _ mathRandom mathRandom' Hs).
Qed.
End Seeds.



(** C1, at the seed the constructor treats as omitted.  Two independent
    instances built as the application builds them, with width 25, height
    25 and seed 0, where [Math.random] returns 0.0000015 for the first and
    0.0000025 for the second: the instances are seeded with 1 and 2, and the
    runs end with different wall layouts (the cell (0, 0) is open to the
    east in the first, to the south in the second) and different start
    positions.  For every other seed the two runs agree
    ([run_nonzero_seed]). *)
Theorem seed_zero_runs_differ :
  ∃ g1 p1 g2 p2,
    run 25 25 (Some 0%Z) (15 # 10000000) = Ok (g1, p1)
    ∧ run 25 25 (Some 0%Z) (25 # 10000000) = Ok (g2, p2)
    ∧ (walls <$> deref g1 (0, 0)) = Some (mkWalls true true false true)
    ∧ (walls <$> deref g2 (0, 0)) = Some (mkWalls true false true true)
    ∧ layout g1 ≠ layout g2 ∧ p1 = (70, 62)%Z ∧ p2 = (42, 34)%Z.
Proof.
  do 4 eexists. split; [vm_compute; reflexivity|]. split; [vm_compute; reflexivity|].
  split; [reflexivity|]. split; [reflexivity|].
  split; [|done]. vm_compute. discriminate.
Qed.

(** C5, as the claim states it, fails: the constructor called with width 0
    returns an instance, with its fields assigned and an empty grid. *)
Lemma constructor_accepts_zero_width :
  ∃ this0, new 0 5 (Some 42%Z) 0 = Ok this0
           ∧ MazeGenerator.width this0 = 0%Z ∧ MazeGenerator.height this0 = 5%Z
           ∧ MazeGenerator.seed this0 = 42%Z ∧ grid this0 = [].
Proof. eexists. split; [reflexivity|]. by vm_compute. Qed.

(** C5, amended.  Constructing a [MazeGenerator] with a width or a height
    of 0 or less does not fail: the constructor returns an instance that
    stores the width and the height and whose grid has no cell; the failure
    comes with [generate], which raises a TypeError on it. *)
Theorem degenerate_dimensions_accepted
    (width height : Z) (seed : option Z) (mathRandom : Q) :
  (width ≤ 0 ∨ height ≤ 0)%Z →
  ∃ this0, new width height seed mathRandom = Ok this0
           ∧ MazeGenerator.width this0 = width
           ∧ MazeGenerator.height this0 = height
           ∧ (∀ r, deref (grid this0) r = None)
           ∧ generate this0 = TypeError.
Proof.
  intros Hd. eexists. split; [reflexivity|]. split; [done|]. split; [done|]. split.
  - intros r. simpl. rewrite deref_initializeGrid. rewrite decide_False; [done|].
    unfold inside. lia.
  - unfold generate. by rewrite enter_degenerate.
Qed.

Lemma degenerate_dimensions_accepted_witness :
  ∃ this0, new 0 5 (Some 42%Z) 0 = Ok this0
           ∧ MazeGenerator.width this0 = 0%Z
           ∧ MazeGenerator.height this0 = 5%Z
           ∧ (∀ r, deref (grid this0) r = None)
           ∧ generate this0 = TypeError.
Proof. apply (degenerate_dimensions_accepted 0 5 (Some 42%Z) 0). lia. Defined.

(** ** [getStartPosition] *)

Section StartPosition.
Local Open Scope outcome_scope.
Implicit Types (g : Grid) (c d : Candidate) (l : list Candidate).

Lemma scanColumn_spec g i (zs : list nat) l :
  (∀ j, j ∈ zs → is_Some (deref g (i, j))) →
  ∃ l', scanColumn g i zs l = Ok l'
        ∧ ∀ c, c ∈ l' ↔ c ∈ l ∨ ∃ j cell, j ∈ zs ∧ deref g (i, j) = Some cell
                                ∧ wallCountOf cell ≤ 2 ∧ c = candidateAt i j cell.
Proof.
  revert l. induction zs as [|j zs IH]; intros l Hz; simpl.
  - exists l. split; [done|]. intros c. split; [by left|].
    intros [?|(j & cell & Hj & _)]; [done|inversion Hj].
  - destruct (Hz j) as [cell Hcell]; [by left|].
    unfold scanCell. unfold deref in Hcell. simpl in Hcell.
    destruct (g !! i) as [col|] eqn:Hcol; [|done]. cbn [defined bind].
    rewrite Hcell. cbn [defined bind].
    assert (Hd : deref g (i, j) = Some cell) by (unfold deref; simpl; by rewrite Hcol).
    destruct (wallCountOf cell <=? 2) eqn:Hn; cbn [bind].
    + apply Nat.leb_le in Hn.
      destruct (IH (l ++ [candidateAt i j cell])) as (l' & -> & Hl').
      { intros j' Hj'. apply Hz. by right. }
      exists l'. split; [done|]. intros c. rewrite Hl', elem_of_app,
        list_elem_of_singleton. split.
      * intros [[?| ->]|(j' & cell' & Hj' & ?)]; [by left|right..].
        -- exists j, cell. split; [by left|done].
        -- exists j', cell'. split; [by right|done].
      * intros [?|(j' & cell' & [->|Hj']%elem_of_cons & Hd' & Hw & ->)].
        -- by left; left.
        -- left; right. congruence.
        -- right. eauto 10.
    + apply Nat.leb_gt in Hn.
      destruct (IH l) as (l' & -> & Hl').
      { intros j' Hj'. apply Hz. by right. }
      exists l'. split; [done|]. intros c. rewrite Hl'. split.
      * intros [?|(j' & cell' & Hj' & ?)]; [by left|right].
        exists j', cell'. split; [by right|done].
      * intros [?|(j' & cell' & [->|Hj']%elem_of_cons & Hd' & Hw & ->)].
        -- by left.
        -- rewrite Hd in Hd'. injection Hd' as <-. lia.
        -- right. eauto 10.
Qed.

Lemma scanColumns_spec g (xs zs : list nat) l :
  (∀ i j, i ∈ xs → j ∈ zs → is_Some (deref g (i, j))) →
  ∃ l', scanColumns g xs zs l = Ok l'
        ∧ ∀ c, c ∈ l' ↔ c ∈ l ∨ ∃ i j cell, i ∈ xs ∧ j ∈ zs
                                ∧ deref g (i, j) = Some cell
                                ∧ wallCountOf cell ≤ 2 ∧ c = candidateAt i j cell.
Proof.
  revert l. induction xs as [|i xs IH]; intros l Hx; simpl.
  - exists l. split; [done|]. intros c. split; [by left|].
    intros [?|(i & j & cell & Hi & _)]; [done|inversion Hi].
  - destruct (scanColumn_spec g i zs l) as (l1 & -> & Hl1).
    { intros j Hj. apply Hx; [by left|done]. }
    cbn [bind]. destruct (IH l1) as (l' & -> & Hl').
    { intros i' j Hi' Hj. apply Hx; [by right|done]. }
    exists l'. split; [done|]. intros c. rewrite Hl', Hl1. split.
    + intros [[?|(j & cell & Hj & ?)]|(i' & j & cell & Hi' & ?)]; [by left|right..].
      * exists i, j, cell. split; [by left|done].
      * exists i', j, cell. split; [by right|done].
    + intros [?|(i' & j & cell & [->|Hi']%elem_of_cons & ?)].
      * by left; left.
      * left; right. eauto.
      * right. eauto 10.
Qed.

Lemma elem_of_interior (n : Z) (i : nat) :
  i ∈ interior n ↔ 1 ≤ i ∧ (Z.of_nat i < n - 1)%Z.
Proof. unfold interior. rewrite elem_of_seq. lia. Qed.

Lemma elem_of_insertCandidate c d l :
  d ∈ insertCandidate c l ↔ d = c ∨ d ∈ l.
Proof.
  induction l as [|e l IH]; simpl.
  - by rewrite list_elem_of_singleton, elem_of_nil; naive_solver.
  - case_match; rewrite !elem_of_cons, ?IH; naive_solver.
Qed.

Lemma elem_of_sortCandidates d l : d ∈ sortCandidates l ↔ d ∈ l.
Proof.
  induction l as [|c l IH]; simpl; [done|].
  rewrite elem_of_insertCandidate, elem_of_cons, IH. done.
Qed.

(** The first entry after sorting has the fewest walls. *)
Lemma sortCandidates_first l first :
  sortCandidates l !! 0 = Some first → ∀ c, c ∈ l → wallCount first ≤ wallCount c.
Proof.
  revert first. induction l as [|a l IH]; intros first; simpl; [done|].
  destruct (sortCandidates l) as [|b sl] eqn:E; simpl.
  - intros [= <-] c [->|Hc]%elem_of_cons; [done|].
    apply elem_of_sortCandidates in Hc. rewrite E in Hc. inversion Hc.
  - destruct (wallCount a <=? wallCount b) eqn:Hab; simpl; intros [= <-].
    + apply Nat.leb_le in Hab. intros c [->|Hc]%elem_of_cons; [done|].
      specialize (IH b eq_refl c Hc). lia.
    + apply Nat.leb_gt in Hab. intros c [->|Hc]%elem_of_cons; [lia|].
      by apply IH.
Qed.

(** The sort is stable: the entries of any one wall count keep the order
    of the scan. *)
Lemma filter_insertCandidate k c l :
  filter (fun d => wallCount d = k) (insertCandidate c l)
  = filter (fun d => wallCount d = k) (c :: l).
Proof.
  induction l as [|e l IH]; simpl; [done|].
  destruct (wallCount c <=? wallCount e) eqn:Hce; [done|].
  apply Nat.leb_gt in Hce. rewrite (filter_cons _ e), IH, !filter_cons.
  repeat case_decide; try done; lia.
Qed.

Lemma filter_sortCandidates k l :
  filter (fun d => wallCount d = k) (sortCandidates l)
  = filter (fun d => wallCount d = k) l.
Proof.
  induction l as [|c l IH]; simpl; [done|].
  by rewrite filter_insertCandidate, !filter_cons, IH.
Qed.

(** The two outcomes of [getStartPosition], from the candidates of the
    scan: the fallback (2, 2) without a draw when there is none, and
    otherwise the candidate that one draw of the generator selects among
    those with the fewest walls, taken in the order of the scan. *)
Lemma getStartPosition_spec (this0 : t) (cands : list Candidate) :
  scanCandidates this0 = Ok cands →
  match cands with
  | [] => getStartPosition this0 = Ok ((2, 2)%Z, this0)
  | _ :: _ =>
      ∃ chosen top,
        getStartPosition this0
        = Ok ((cand_x chosen, cand_z chosen),
              withRandom this0 (Prng.next (random this0)).2)
        ∧ chosen ∈ cands
        ∧ (∀ c, c ∈ cands → wallCount chosen ≤ wallCount c)
        ∧ top = filter (fun c => wallCount c = wallCount chosen) cands
        ∧ top !! JS.floorIndex (Prng.next (random this0)).1 (length top)
          = Some chosen
  end.
Proof.
  intros Hscan. unfold getStartPosition. rewrite Hscan. cbn [bind].
  destruct cands as [|c0 cands']; [done|]. set (cands := c0 :: cands') in *.
  replace (0 <? length cands) with true by done.
  destruct (sortCandidates cands !! 0) as [first|] eqn:Hfirst.
  2:{ apply lookup_ge_None_1 in Hfirst.
      assert (Hc0 : c0 ∈ sortCandidates cands)
        by (apply elem_of_sortCandidates; by left).
      destruct (sortCandidates cands); [inversion Hc0|simpl in Hfirst; lia]. }
  cbn [defined bind]. rewrite filter_sortCandidates.
  set (top := filter (fun c => wallCount c = wallCount first) cands).
  assert (Hin : first ∈ top).
  { apply list_elem_of_filter. split; [done|].
    apply elem_of_sortCandidates. by eapply list_elem_of_lookup_2. }
  assert (Hlen : 0 < length top) by (destruct top; [inversion Hin|simpl; lia]).
  pose proof (floorIndex_next (random this0) _ Hlen) as Hidx.
  destruct (Prng.next (random this0)) as [r rnd] eqn:Enext. cbn [fst snd] in *.
  destruct (lookup_lt_is_Some_2 top _ Hidx) as [chosen Hchosen].
  rewrite Hchosen. cbn [defined bind].
  assert (Hel : chosen ∈ top) by (by eapply list_elem_of_lookup_2).
  apply list_elem_of_filter in Hel as [Hwc Hel].
  exists chosen, top. split; [done|]. split; [done|]. split.
  { intros c Hc. rewrite Hwc. by eapply sortCandidates_first. }
  split; [|done]. unfold top. by rewrite Hwc.
Qed.
End StartPosition.

(** C7, as the claim states it, fails.  On the 3 by 3 maze of seed 5 the
    only interior cell (1, 1) is a dead end with three walls, and
    [getStartPosition] returns the fallback (2, 2), a position inside the
    corner cell (0, 0).  On a 2 by 2 maze the scan has no cell to visit and
    the result is the same, whatever the seed. *)
Lemma start_position_on_boundary :
  (∃ final final',
     generate (constructor 3 3 (Some 5%Z) 0) = Ok final
     ∧ (wallCountOf <$> deref (grid final) (1, 1)) = Some 3
     ∧ getStartPosition final = Ok ((2, 2)%Z, final')
     ∧ cellOfWorld (2, 2)%Z = (0, 0)%Z
     ∧ ¬ interiorCell 3 3 (cellOfWorld (2, 2)%Z)
     ∧ interiorCell 3 3 (1, 1)%Z)
  ∧ (∃ final,
       generate (constructor 2 2 (Some 42%Z) 0) = Ok final
       ∧ getStartPosition final = Ok ((2, 2)%Z, final)
       ∧ ¬ interiorCell 2 2 (cellOfWorld (2, 2)%Z)).
Proof.
  split.
  - do 2 eexists. split; [vm_compute; reflexivity|].
    split; [vm_compute; reflexivity|].
    split; [vm_compute; reflexivity|]. split; [reflexivity|].
    split; [|unfold interiorCell; simpl; lia].
    intros [[H _] _]. change (cellOfWorld (2, 2)%Z).1 with 0%Z in H. lia.
  - eexists. split; [vm_compute; reflexivity|]. split; [reflexivity|].
    intros [[H _] _]. change (cellOfWorld (2, 2)%Z).1 with 0%Z in H. lia.
Qed.

(** C7, amended.  After [generate], [getStartPosition] returns.  The
    candidates are the interior cells (off the outermost ring) with at most
    two walls, each with the centre [(4 * i + 2, 4 * j + 2)] of its cell
    (cell size 4).  When there is a candidate, the result is the centre of
    one with the fewest walls, selected among those, in the order of the
    scan, by the next draw of the generator of the instance (the stream
    [generate] left); it lies in an interior cell.  When there is none, the
    result is the fixed position (2, 2), which lies in the corner cell
    (0, 0), and nothing is drawn.  With seed 42, width 5 and height 5 the
    result is (14, 14), the centre of the interior cell (3, 3), on every
    run. *)
Theorem start_position_spec (width height : Z) (seed : option Z) (mathRandom : Q) :
  (1 ≤ width)%Z → (1 ≤ height)%Z →
  (∃ final cands p final',
    generate (constructor width height seed mathRandom) = Ok final
    ∧ scanCandidates final = Ok cands
    ∧ (∀ c, c ∈ cands ↔
            ∃ i j cell, interiorCell width height (Z.of_nat i, Z.of_nat j)
                        ∧ deref (grid final) (i, j) = Some cell
                        ∧ wallCountOf cell ≤ 2 ∧ c = candidateAt i j cell)
    ∧ getStartPosition final = Ok (p, final')
    ∧ match cands with
      | [] => p = (2, 2)%Z ∧ final' = final ∧ cellOfWorld p = (0, 0)%Z
      | _ :: _ =>
          ∃ chosen top,
            chosen ∈ cands ∧ p = (cand_x chosen, cand_z chosen)
            ∧ (∀ c, c ∈ cands → wallCount chosen ≤ wallCount c)
            ∧ top = filter (fun c => wallCount c = wallCount chosen) cands
            ∧ top !! JS.floorIndex (Prng.next (random final)).1 (length top)
              = Some chosen
            ∧ final' = withRandom final (Prng.next (random final)).2
            ∧ interiorCell width height (cellOfWorld p)
      end)
  ∧ (∃ g, run 5 5 (Some 42%Z) mathRandom = Ok (g, (14, 14)%Z)
          ∧ cellOfWorld (14, 14)%Z = (3, 3)%Z ∧ interiorCell 5 5 (3, 3)%Z).
Proof.
  intros Hw Hh. split.
  2:{ rewrite (run_nonzero_seed 5 5 42 mathRandom 0) by done.
      eexists. split; [vm_compute; reflexivity|]. split; [reflexivity|].
      unfold interiorCell. simpl. lia. }
  destruct (generate_final width height seed mathRandom Hw Hh) as (s & E & I & _).
  pose proof (inv_wf _ _ _ I) as Hwf.
  destruct (scanColumns_spec (grid (this s)) (interior (MazeGenerator.width (this s)))
              (interior (MazeGenerator.height (this s))) []) as (cands & Hscan & Hc).
  { intros i j [_ Hi]%elem_of_interior [_ Hj]%elem_of_interior.
    rewrite (inv_width _ _ _ I) in Hi. rewrite (inv_height _ _ _ I) in Hj.
    apply (deref_inside _ _ _ _ Hwf). split; simpl; lia. }
  assert (Hcands : ∀ c, c ∈ cands ↔
            ∃ i j cell, interiorCell width height (Z.of_nat i, Z.of_nat j)
                        ∧ deref (grid (this s)) (i, j) = Some cell
                        ∧ wallCountOf cell ≤ 2 ∧ c = candidateAt i j cell).
  { intros c. rewrite Hc. unfold interiorCell. simpl. split.
    - intros [Hn|(i & j & cell & Hi%elem_of_interior & Hj%elem_of_interior & ?)];
        [inversion Hn|].
      rewrite (inv_width _ _ _ I) in Hi. rewrite (inv_height _ _ _ I) in Hj.
      exists i, j, cell. split; [lia|done].
    - intros (i & j & cell & Hij & ?). right. exists i, j, cell.
      rewrite !elem_of_interior, (inv_width _ _ _ I), (inv_height _ _ _ I).
      split; [lia|]. split; [lia|done]. }
  pose proof (getStartPosition_spec (this s) cands Hscan) as Hstart.
  destruct cands as [|c0 cands'].
  - exists (this s), [], (2, 2)%Z, (this s). split_and!; done.
  - destruct Hstart as (chosen & top & Hget & Hin & Hmin & Htop & Hpick).
    exists (this s), (c0 :: cands'), (cand_x chosen, cand_z chosen),
      (withRandom (this s) (Prng.next (random (this s))).2).
    split; [done|]. split; [done|]. split; [done|]. split; [done|].
    exists chosen, top. split_and!; try done.
    apply Hcands in Hin as (i & j & cell & Hij & _ & _ & ->).
    unfold interiorCell, cellOfWorld in *. simpl in *.
    assert ((Z.of_nat i * 4 + 2) / 4 = Z.of_nat i)%Z as ->
      by (symmetry; apply (Z.div_unique _ 4 _ 2); lia).
    assert ((Z.of_nat j * 4 + 2) / 4 = Z.of_nat j)%Z as ->
      by (symmetry; apply (Z.div_unique _ 4 _ 2); lia).
    done.
Qed.

Lemma start_position_spec_witness :
  ∃ g, run 5 5 (Some 42%Z) (1 # 2) = Ok (g, (14, 14)%Z)
       ∧ cellOfWorld (14, 14)%Z = (3, 3)%Z ∧ interiorCell 5 5 (3, 3)%Z.
Proof.
  apply (start_position_spec 5 5 (Some 42%Z) (1 # 2)); lia.
Defined.

(** ** Collision *)

Import FirstPersonController CollisionSpec.

Section Collision.
Local Open Scope Q_scope.
Context (w h : nat) (maze : Grid) (cellSize : Q).
Hypothesis Hwf : wellFormed w h maze.
Implicit Types (p : Vector3).

Lemma lt_spec (a b : Q) : JS.lt a b = true ↔ a < b.
Proof.
  unfold JS.lt. rewrite negb_true_iff, <- not_true_iff_false, Qle_bool_iff.
  split; [apply Qnot_le_lt|apply Qlt_not_le].
Qed.

Lemma gt_spec (a b : Q) : JS.gt a b = true ↔ b < a.
Proof.
  unfold JS.gt. rewrite negb_true_iff, <- not_true_iff_false, Qle_bool_iff.
  split; [apply Qnot_le_lt|apply Qlt_not_le].
Qed.

(** The local offset lies in [[0, cellSize)]. *)
Lemma localCoord_range (v : Q) :
  0 < cellSize → 0 <= localCoord cellSize v ∧ localCoord cellSize v < cellSize.
Proof.
  intros Hcs. unfold localCoord, mazeCoord.
  pose proof (Qfloor_le (v / cellSize)) as H1.
  pose proof (Qlt_floor (v / cellSize)) as H2.
  rewrite inject_Z_plus in H2. change (inject_Z 1) with 1 in H2.
  assert (Hv : v == (v / cellSize) * cellSize)
    by (field; intros E; rewrite E in Hcs; by apply Qlt_irrefl in Hcs).
  set (q := v / cellSize) in *. set (f := inject_Z (Qfloor q)) in *.
  split; nra.
Qed.

Lemma checkCollision_outside p :
  ¬ inBounds w h cellSize p → checkCollision maze cellSize p = Ok true.
Proof using Hwf.
  unfold checkCollision, inBounds. intros Hout.
  set (mx := mazeCoord cellSize (vx p)) in *.
  set (mz := mazeCoord cellSize (vz p)) in *.
  pose proof Hwf as (Hl & Hc & _). rewrite Hl.
  destruct ((mx <? 0) || (Z.of_nat w <=? mx) || (mz <? 0))%Z eqn:Ex; [done|].
  apply orb_false_iff in Ex as [Ex Ex3%Z.ltb_ge].
  apply orb_false_iff in Ex as [Ex1%Z.ltb_ge Ex2%Z.leb_gt].
  destruct (lookup_lt_is_Some_2 maze 0%nat) as [first Hfirst]; [lia|].
  rewrite Hfirst. cbn [defined bind]. rewrite (Hc _ _ Hfirst).
  destruct (Z.of_nat h <=? mz)%Z eqn:Ez; [done|].
  apply Z.leb_gt in Ez. lia.
Qed.

Lemma checkCollision_inside p cell :
  inBounds w h cellSize p → deref maze (cellOf cellSize p) = Some cell →
  checkCollision maze cellSize p = Ok (wallTests cellSize cell p).
Proof using Hwf.
  unfold checkCollision, inBounds, cellOf, wallTests. intros Hin Hcell.
  set (mx := mazeCoord cellSize (vx p)) in *.
  set (mz := mazeCoord cellSize (vz p)) in *.
  pose proof Hwf as (Hl & Hc & _). rewrite Hl.
  replace (mx <? 0)%Z with false by (symmetry; apply Z.ltb_ge; lia).
  replace (Z.of_nat w <=? mx)%Z with false by (symmetry; apply Z.leb_gt; lia).
  replace (mz <? 0)%Z with false by (symmetry; apply Z.ltb_ge; lia).
  cbn [orb].
  destruct (lookup_lt_is_Some_2 maze 0%nat) as [first Hfirst]; [lia|].
  rewrite Hfirst. cbn [defined bind]. rewrite (Hc _ _ Hfirst).
  replace (Z.of_nat h <=? mz)%Z with false by (symmetry; apply Z.leb_gt; lia).
  rewrite Hcell. cbn [defined bind].
  by destruct (north (walls cell) && _)%bool, (south (walls cell) && _)%bool,
    (west (walls cell) && _)%bool, (east (walls cell) && _)%bool.
Qed.

Lemma wallTests_nearWall cell p :
  wallTests cellSize cell p = true ↔ nearWall cell cellSize p.
Proof.
  unfold wallTests, nearWall.
  rewrite !orb_true_iff, !andb_true_iff, !lt_spec, !gt_spec. tauto.
Qed.

(** On a well-formed grid [checkCollision] returns, and it rejects a
    position exactly when the position is out of bounds or within the
    buffer of a wall of its cell. *)
Lemma checkCollision_spec p :
  ∃ b, checkCollision maze cellSize p = Ok b
       ∧ (b = true ↔
          ¬ inBounds w h cellSize p
          ∨ ∃ cell, deref maze (cellOf cellSize p) = Some cell
                    ∧ nearWall cell cellSize p).
Proof using Hwf.
  destruct (decide (inBounds w h cellSize p)) as [Hin|Hout].
  - destruct (deref_inside w h maze (cellOf cellSize p) Hwf) as [cell Hcell].
    { destruct Hin. unfold cellOf. split; simpl; lia. }
    exists (wallTests cellSize cell p). split; [by apply checkCollision_inside|].
    rewrite wallTests_nearWall. split; [eauto|].
    intros [?|(cell' & Hc' & ?)]; [done|]. congruence.
  - exists true. split; [by apply checkCollision_outside|]. split; [by left|done].
Qed.

(** An accepted position is in bounds, at least the buffer away from
    every wall of its cell. *)
Lemma checkCollision_accepts p :
  checkCollision maze cellSize p = Ok false →
  inBounds w h cellSize p
  ∧ ∃ cell, deref maze (cellOf cellSize p) = Some cell
            ∧ clearOfWalls cell cellSize p.
Proof using Hwf.
  intros Hp. destruct (checkCollision_spec p) as (b & Hb & Hiff).
  rewrite Hp in Hb. injection Hb as <-.
  assert (Hin : inBounds w h cellSize p).
  { destruct (decide (inBounds w h cellSize p)) as [|Hn]; [done|].
    assert (false = true) by (apply Hiff; by left). done. }
  split; [done|].
  destruct (deref_inside w h maze (cellOf cellSize p) Hwf) as [cell Hcell].
  { destruct Hin. unfold cellOf. split; simpl; lia. }
  exists cell. split; [done|].
  assert (Hnot : ¬ nearWall cell cellSize p).
  { intros Hn. assert (false = true) by (apply Hiff; right; eauto). done. }
  unfold nearWall, clearOfWalls in *.
  split_and!; intros Hwall; apply Qnot_lt_le; intros Hlt; apply Hnot.
  - left. split; [done|lra].
  - right; left. split; [done|lra].
  - right; right; left. split; [done|lra].
  - right; right; right. split; [done|lra].
Qed.

(** A frame on a well-formed grid: the door branch keeps the position;
    otherwise each axis is committed exactly when its own candidate is
    accepted, x first. *)
Lemma useFrame_spec (current velocity : Vector3) (doorAhead : bool) :
  ∃ hitX hitZ : bool,
    let newPosition := add current velocity in
    let current1 := if hitX then current else setX current (vx newPosition) in
    checkCollision maze cellSize (setX current (vx newPosition)) = Ok hitX
    ∧ checkCollision maze cellSize (setZ current1 (vz newPosition)) = Ok hitZ
    ∧ useFrame maze cellSize current velocity doorAhead
      = Ok (if moving velocity && doorAhead then current
            else if hitZ then current1 else setZ current1 (vz newPosition)).
Proof using Hwf.
  destruct (checkCollision_spec (setX current (vx (add current velocity))))
    as (hitX & HX & _).
  exists hitX.
  destruct (checkCollision_spec
    (setZ (if hitX then current else setX current (vx (add current velocity)))
       (vz (add current velocity)))) as (hitZ & HZ & _).
  exists hitZ. cbn zeta. split; [done|]. split; [done|].
  unfold useFrame. destruct (moving velocity && doorAhead); [done|].
  rewrite HX. cbn [bind]. rewrite HZ. done.
Qed.
End Collision.

(** ** Claims on movement and collision *)

(** The cell of the scenario of C4 sits at (2, 2); with cell size 4 the local
    offset (2.0, 0.1) is the world position (10, 8.1).  The step (0, -0.5)
    leads to z = 7.6, which maps to the cell (2, 1) at local offset 3.6,
    clear of the buffer of each of its edges: whatever walls that cell has,
    the z move is accepted.  The step (0, -0.05) stays in the cell (2, 2),
    inside the buffer of its north wall, and is rejected. *)
Lemma scenario_frames (w h : nat) (maze : Grid) (y : Q) (cell : MazeCell) :
  wellFormed w h maze →
  deref maze (2, 2) = Some cell → walls cell = scenarioWalls →
  useFrame maze 4 (mkVector3 10 y (81 # 10)) (mkVector3 0 0 (-5 # 10)) false
  = Ok (mkVector3 10 y ((81 # 10) + (-5 # 10))%Q)
  ∧ useFrame maze 4 (mkVector3 10 y (81 # 10)) (mkVector3 0 0 (-5 # 100)) false
    = Ok (mkVector3 10 y (81 # 10)).
Proof.
  intros Hwf Hcell Hwalls.
  pose proof (inside_deref _ _ _ _ _ Hwf Hcell) as [Hi Hj]. simpl in Hi, Hj.
  destruct (deref_inside w h maze (2, 1) Hwf) as [c1 Hc1]; [split; simpl; lia|].
  assert (HX : ∀ dz, checkCollision maze 4
                       (setX (mkVector3 10 y (81 # 10))
                          (vx (add (mkVector3 10 y (81 # 10)) (mkVector3 0 0 dz))))
                     = Ok true).
  { intros dz. rewrite (checkCollision_inside w h maze 4 Hwf _ cell).
    - unfold wallTests. rewrite Hwalls. done.
    - unfold inBounds. simpl. change (mazeCoord 4 (10 + 0)) with 2%Z.
      change (mazeCoord 4 (81 # 10)) with 2%Z. lia.
    - done. }
  split; unfold useFrame.
  - rewrite andb_false_r. rewrite HX. cbn [bind].
    rewrite (checkCollision_inside w h maze 4 Hwf _ c1).
    + unfold wallTests. by destruct (walls c1) as [[] [] [] []].
    + unfold inBounds. simpl. change (mazeCoord 4 10) with 2%Z.
      change (mazeCoord 4 ((81 # 10) + (-5 # 10))) with 1%Z. lia.
    + done.
  - rewrite andb_false_r. rewrite HX. cbn [bind].
    rewrite (checkCollision_inside w h maze 4 Hwf _ cell).
    + unfold wallTests. rewrite Hwalls. done.
    + unfold inBounds. simpl. change (mazeCoord 4 10) with 2%Z.
      change (mazeCoord 4 ((81 # 10) + (-5 # 100))) with 2%Z. lia.
    + done.
Qed.

(** C4, as the claim states it, fails.  In the 25 by 25 maze of seed 9 the
    cell (2, 2) has exactly the walls of the scenario; the player at local
    offset (2.0, 0.1) of that cell, world position (10, 8.1), stepping by
    (0, -0.5) ends at z = 7.6: the z move is accepted, through the north
    wall. *)
Lemma wall_blocking_scenario_accepted :
  ∃ final cell p,
    generate (constructor 25 25 (Some 9%Z) 0) = Ok final
    ∧ deref (grid final) (2, 2) = Some cell ∧ walls cell = scenarioWalls
    ∧ useFrame (grid final) 4 (mkVector3 10 (17 # 10) (81 # 10))
        (mkVector3 0 0 (-5 # 10)) false = Ok p
    ∧ vx p = 10%Q ∧ (vz p == 76 # 10)%Q ∧ ¬ (vz p == 81 # 10)%Q.
Proof.
  do 3 eexists. split; [vm_compute; reflexivity|].
  split; [vm_compute; reflexivity|]. split; [reflexivity|].
  split; [vm_compute; reflexivity|]. split; [reflexivity|]. split; [reflexivity|].
  intros H. vm_compute in H. discriminate H.
Qed.

(** C4, amended.  The test is made on the cell the candidate position maps
    to.  When that cell has its north wall and the local z offset of the
    candidate within it is below the buffer 0.3, the z move is rejected,
    while the x move, tested first and on its own, is committed when its
    candidate is accepted.  For a cell at (2, 2) with walls north and east,
    cell size 4 and the player at local offset (2.0, 0.1): the step
    (0, -0.05) keeps the candidate in that cell, inside the buffer, and is
    rejected; the step (0, -0.5) puts the candidate in the cell (2, 1), at
    local offset 3.6, and is accepted; x is unchanged in both. *)
Theorem wall_blocking (w h : nat) (maze : Grid) (cellSize : Q)
    (current velocity : Vector3) :
  wellFormed w h maze → (0 < cellSize)%Q →
  (∃ hitX : bool,
     checkCollision maze cellSize (setX current (vx current + vx velocity)%Q) = Ok hitX
     ∧ let current1 :=
         if hitX then current else setX current (vx current + vx velocity)%Q in
       let candidate := setZ current1 (vz current + vz velocity)%Q in
       ∀ cell,
         inBounds w h cellSize candidate →
         deref maze (cellOf cellSize candidate) = Some cell →
         north (walls cell) = true →
         (localCoord cellSize (vz candidate) < buffer)%Q →
         useFrame maze cellSize current velocity false = Ok current1)
  ∧ (∀ y cell,
       deref maze (2, 2) = Some cell → walls cell = scenarioWalls →
       useFrame maze 4 (mkVector3 10 y (81 # 10)) (mkVector3 0 0 (-5 # 100)) false
       = Ok (mkVector3 10 y (81 # 10))
       ∧ useFrame maze 4 (mkVector3 10 y (81 # 10)) (mkVector3 0 0 (-5 # 10)) false
         = Ok (mkVector3 10 y ((81 # 10) + (-5 # 10))%Q)).
Proof.
  intros Hwf Hcs. split.
  - destruct (useFrame_spec w h maze cellSize Hwf current velocity false)
      as (hitX & hitZ & HX & HZ & Hframe).
    exists hitX. split; [exact HX|]. intros current1 candidate cell Hin Hcell Hn Hlt.
    rewrite Hframe, andb_false_r.
    change (checkCollision maze cellSize candidate = Ok hitZ) in HZ.
    rewrite (checkCollision_inside w h maze cellSize Hwf candidate cell Hin Hcell) in HZ.
    injection HZ as <-.
    assert (Ht : wallTests cellSize cell candidate = true).
    { apply wallTests_nearWall. left. done. }
    by rewrite Ht.
  - intros y cell Hcell Hwalls.
    destruct (scenario_frames w h maze y cell Hwf Hcell Hwalls). done.
Qed.

Lemma wall_blocking_witness :
  ∃ final,
    generate (constructor 25 25 (Some 9%Z) 0) = Ok final
    ∧ ∀ y cell,
        deref (grid final) (2, 2) = Some cell → walls cell = scenarioWalls →
        useFrame (grid final) 4 (mkVector3 10 y (81 # 10))
          (mkVector3 0 0 (-5 # 100)) false
        = Ok (mkVector3 10 y (81 # 10))
        ∧ useFrame (grid final) 4 (mkVector3 10 y (81 # 10))
            (mkVector3 0 0 (-5 # 10)) false
          = Ok (mkVector3 10 y ((81 # 10) + (-5 # 10))%Q).
Proof.
  destruct (generate_final 25 25 (Some 9%Z) 0) as (s & E & I & _); [lia|lia|].
  exists (this s). split; [exact E|].
  apply (wall_blocking 25 25 (grid (this s)) 4
           (mkVector3 10 (17 # 10) (81 # 10)) (mkVector3 0 0 (-5 # 10)));
    [apply I|reflexivity].
Defined.

(** C8.  On a rectangular grid and with a positive cell size, a frame that
    starts from a position mapping to a cell of the grid returns a position
    that maps to a cell of the grid, for every velocity and whether or not a
    door is ahead. *)
Theorem movement_containment (w h : nat) (maze : Grid) (cellSize : Q)
    (current velocity : Vector3) (doorAhead : bool) :
  wellFormed w h maze → (0 < cellSize)%Q →
  inBounds w h cellSize current →
  ∃ p, useFrame maze cellSize current velocity doorAhead = Ok p
       ∧ inBounds w h cellSize p.
Proof.
  intros Hwf Hcs Hin.
  destruct (useFrame_spec w h maze cellSize Hwf current velocity doorAhead)
    as (hitX & hitZ & HX & HZ & Hframe).
  eexists. split; [exact Hframe|].
  destruct (moving velocity && doorAhead); [done|].
  assert (Hin1 : inBounds w h cellSize
            (if hitX then current else setX current (vx (add current velocity)))).
  { destruct hitX; [done|].
    by destruct (checkCollision_accepts w h maze cellSize Hwf _ HX). }
  destruct hitZ; [done|].
  by destruct (checkCollision_accepts w h maze cellSize Hwf _ HZ).
Qed.

Lemma movement_containment_witness :
  ∃ final,
    generate (constructor 25 25 (Some 9%Z) 0) = Ok final
    ∧ ∃ p, useFrame (grid final) 4 (mkVector3 10 (17 # 10) (81 # 10))
             (mkVector3 (-12) 0 (7 # 2)) false = Ok p
           ∧ inBounds 25 25 4 p.
Proof.
  destruct (generate_final 25 25 (Some 9%Z) 0) as (s & E & I & _); [lia|lia|].
  exists (this s). split; [exact E|].
  apply (movement_containment 25 25 (grid (this s)) 4); [apply I|reflexivity|].
  unfold inBounds. cbn [vx vz]. change (mazeCoord 4 10) with 2%Z.
  change (mazeCoord 4 (81 # 10)) with 2%Z. lia.
Defined.



(** ** Door placement *)

Section Doors.
Import DoorSpec.

Lemma doorKeys_app l1 l2 : doorKeys (l1 ++ l2) = doorKeys l1 ++ doorKeys l2.
Proof. unfold doorKeys. by rewrite filter_app, map_app. Qed.

Lemma scene_wall present d i j s t :
  sceneAgrees s t →
  sceneAgrees (Maze3D.wall present d i j s) (drawDoor doorChance present (i, j, d) t).
Proof.
  intros [Hr Hd]. unfold Maze3D.wall, drawDoor. destruct present; [|done].
  rewrite <- Hr. destruct (Prng.next s.1) as [r rnd].
  destruct (JS.lt r doorChance); split; simpl; try done;
    rewrite doorKeys_app, Hd; [done|]. by rewrite app_nil_r.
Qed.

Lemma view_wall present d i j s t :
  viewAgrees s t →
  viewAgrees (App.wall present d i j s) (drawDoor doorChance present (i, j, d) t).
Proof.
  intros [Hr Hd]. unfold App.wall, drawDoor. destruct present; [|done].
  rewrite <- Hr. destruct (Prng.next s.1) as [r rnd].
  destruct (JS.lt r doorChance); split; simpl; try done.
  intros k. unfold App.setAdd. rewrite elem_of_app, list_elem_of_singleton, <- Hd.
  case_decide; [|by rewrite elem_of_app, list_elem_of_singleton].
  split; [by left|]. intros [?| ->]; done.
Qed.

Lemma scene_column i col j s t :
  sceneAgrees s t →
  sceneAgrees (forEach (Maze3D.cellWalls i) col j s) (columnDoors doorChance i j col t).
Proof.
  revert j s t. induction col as [|cell col IH]; intros j s t H; simpl; [done|].
  apply IH. unfold Maze3D.cellWalls, cellDoors. by repeat apply scene_wall.
Qed.

Lemma view_column i col j s t :
  viewAgrees s t →
  viewAgrees (forEach (App.cellWalls i) col j s) (columnDoors doorChance i j col t).
Proof.
  revert j s t. induction col as [|cell col IH]; intros j s t H; simpl; [done|].
  apply IH. unfold App.cellWalls, cellDoors. by repeat apply view_wall.
Qed.

Lemma scene_grid (maze : Grid) i s t :
  sceneAgrees s t →
  sceneAgrees (forEach (fun row i s => forEach (Maze3D.cellWalls i) row 0 s) maze i s)
    (gridDoors doorChance i maze t).
Proof.
  revert i s t. induction maze as [|col maze IH]; intros i s t H; simpl; [done|].
  apply IH. by apply scene_column.
Qed.

Lemma view_grid (maze : Grid) i s t :
  viewAgrees s t →
  viewAgrees (forEach (fun row i s => forEach (App.cellWalls i) row 0 s) maze i s)
    (gridDoors doorChance i maze t).
Proof.
  revert i s t. induction maze as [|col maze IH]; intros i s t H; simpl; [done|].
  apply IH. by apply view_column.
Qed.

(** Against a draw of the generator, the literal 0.1 read as the decimal
    and read as the double decide alike. *)
Lemma doorChance_double (o : Z) :
  (0 ≤ o < 4294967296)%Z →
  JS.lt (Qmake o 4294967296) doorChance = JS.lt (Qmake o 4294967296) doubleTenth.
Proof.
  intros Ho. unfold JS.lt, doorChance, doubleTenth. f_equal.
  destruct (Qle_bool (1 # 10) (o # 4294967296)) eqn:E1,
    (Qle_bool (3602879701896397 # 36028797018963968) (o # 4294967296)) eqn:E2;
    try done.
  - apply Qle_bool_iff in E1. apply not_true_iff_false in E2.
    exfalso. apply E2. apply Qle_bool_iff. unfold Qle in *. simpl in *. lia.
  - apply Qle_bool_iff in E2. apply not_true_iff_false in E1.
    exfalso. apply E1. apply Qle_bool_iff. unfold Qle in *. simpl in *. lia.
Qed.
End Doors.

(** C3.  For every grid and seed, the scene builder and the debug view
    compute the same set of doors, the one of [computeDoors] with threshold
    0.1: each starts a fresh generator from the seed, goes through the
    columns by ascending x and the cells by ascending z, tests the walls in
    the order north, south, east, west, and for each wall that is present
    draws one value and places a door exactly when the value is below 0.1.
    Both end with the generator in the same state. *)
Theorem door_sets_agree (maze : Grid) (seed : Z) :
  Maze3D.doors maze seed = DoorSpec.computeDoors maze seed doorChance
  ∧ (∀ k, k ∈ App.doorMap maze seed ↔ k ∈ DoorSpec.computeDoors maze seed doorChance)
  ∧ (∀ k, k ∈ App.doorMap maze seed ↔ k ∈ Maze3D.doors maze seed)
  ∧ (forEach (fun row i s => forEach (Maze3D.cellWalls i) row 0 s) maze 0
       (Prng.seededRandom seed, [])).1
    = (forEach (fun row i s => forEach (App.cellWalls i) row 0 s) maze 0
         (Prng.seededRandom seed, [])).1.
Proof.
  pose proof (scene_grid maze 0 (Prng.seededRandom seed, [])
                (Prng.seededRandom seed, [])) as [Hs1 Hs2]; [done|].
  pose proof (view_grid maze 0 (Prng.seededRandom seed, [])
                (Prng.seededRandom seed, [])) as [Hv1 Hv2]; [done|].
  split; [exact Hs2|]. split; [exact Hv2|]. split.
  - intros k. unfold Maze3D.doors, Maze3D.wallElements.
    fold (DoorSpec.doorKeys (forEach (fun row i s => forEach (Maze3D.cellWalls i) row 0 s)
                      maze 0 (Prng.seededRandom seed, [])).2).
    rewrite Hs2. apply Hv2.
  - by rewrite Hs1, Hv1.
Qed.

(** * Further properties *)

Import StreamSpec RimSpec.

(** ** The stream of the generator *)

Section Stream.
Local Open Scope Z_scope.

Lemma toInt32_range (n : Z) : int32 (JS.toInt32 n).
Proof.
  unfold int32, JS.toInt32, JS.toUint32.
  pose proof (Z.mod_pos_bound n 4294967296 ltac:(lia)).
  case_match; lia.
Qed.

Lemma toInt32_period (n k : Z) : JS.toInt32 (n + 4294967296 * k) = JS.toInt32 n.
Proof.
  unfold JS.toInt32, JS.toUint32.
  by rewrite (Z.mul_comm 4294967296 k), Z_mod_plus_full.
Qed.

Lemma mix_range (k v : Z) : int32 (Prng.mix k v).
Proof. unfold Prng.mix, JS.and. apply toInt32_range. Qed.

Lemma mix_period (k v j : Z) : Prng.mix k (v + 4294967296 * j) = Prng.mix k v.
Proof. unfold Prng.mix, JS.and, JS.sar. by rewrite !toInt32_period. Qed.

Lemma advance_S (n : nat) (s : Prng.state) :
  advance (S n) s = (Prng.next (advance n s)).2.
Proof. done. Qed.

Lemma advance_next (n : nat) (s : Prng.state) :
  advance n (Prng.next s).2 = advance (S n) s.
Proof.
  induction n as [|n IH]; [done|]. by rewrite advance_S, IH.
Qed.

Lemma advance_add (n m : nat) (s : Prng.state) :
  advance n (advance m s) = advance (n + m) s.
Proof.
  induction n as [|n IH]; [done|]. change (S n + m)%nat with (S (n + m)).
  by rewrite !advance_S, IH.
Qed.

Lemma seededRandom_period (seed k : Z) :
  Prng.seededRandom (seed + 4294967296 * k) = Prng.seededRandom seed.
Proof. unfold Prng.seededRandom. by rewrite !mix_period. Qed.

Lemma seededRandom_multiple (k : Z) :
  Prng.seededRandom (4294967296 * k) = Prng.mkState 0 0.
Proof.
  replace (4294967296 * k) with (0 + 4294967296 * k) by lia.
  by rewrite seededRandom_period.
Qed.
End Stream.

(** X1.  Every call of the closure [seededRandom] returns a value in
    [[0, 1)], so scaled by the length of a non-empty array and floored it is
    an index of that array; after seeding and after every call both words of
    the closure fit a signed 32-bit integer. *)
Theorem random_unit_interval (s : Prng.state) (seed : Z) (n : nat) :
  (0 < n)%nat →
  (0 <= (Prng.next s).1)%Q ∧ ((Prng.next s).1 < 1)%Q
  ∧ (JS.floorIndex (Prng.next s).1 n < n)%nat
  ∧ wordsInRange (Prng.seededRandom seed)
  ∧ wordsInRange (Prng.next s).2.
Proof.
  intros Hn. pose proof (output_range
    {| Prng.m_z := Prng.mix 36969 (Prng.m_z s);
       Prng.m_w := Prng.mix 18000 (Prng.m_w s) |}) as Ho.
  split_and!.
  - unfold Prng.next, Qle. simpl. lia.
  - unfold Prng.next, Qlt. simpl. lia.
  - by apply floorIndex_next.
  - split; apply mix_range.
  - split; apply mix_range.
Qed.

Lemma random_unit_interval_witness :
  (0 <= (Prng.next (Prng.seededRandom 42)).1)%Q
  ∧ ((Prng.next (Prng.seededRandom 42)).1 < 1)%Q
  ∧ (JS.floorIndex (Prng.next (Prng.seededRandom 42)).1 4 < 4)%nat
  ∧ wordsInRange (Prng.seededRandom 42)
  ∧ wordsInRange (Prng.next (Prng.seededRandom 42)).2.
Proof. apply (random_unit_interval (Prng.seededRandom 42) 42 4). lia. Defined.

(** X2.  Only the low 32 bits of the seed reach the generator: seeds that
    differ by a multiple of [2^32] give the same closure.  A seed that is a
    multiple of [2^32], 0 among them, gives the closure whose every call
    returns 0. *)
Theorem seed_low_bits (seed k : Z) (n : nat) :
  Prng.seededRandom (seed + 4294967296 * k) = Prng.seededRandom seed
  ∧ draw n (Prng.seededRandom (4294967296 * k)) = Qmake 0 4294967296.
Proof.
  split; [apply seededRandom_period|].
  - rewrite seededRandom_multiple. unfold draw.
    assert (Hfix : ∀ m, advance m (Prng.mkState 0 0) = Prng.mkState 0 0).
    { induction m as [|m IH]; [done|]. by rewrite advance_S, IH. }
    by rewrite Hfix.
Qed.

(** ** More on [generate] *)

Section MoreGenerate.
Context (w h : nat).
Implicit Types (s : Loop) (P : Loop → Prop).

(** What the carving branch finds: the current cell, visited, with its wall
    towards the neighbour standing, and the neighbour with all its walls. *)
Lemma carve_premises s d nb n :
  Invariant w h s → move d (currentCell s) = Some nb →
  deref (grid (this s)) nb = Some n → visited n = false →
  ∃ c, deref (grid (this s)) (currentCell s) = Some c ∧ visited c = true
       ∧ wallOf d (walls c) = true ∧ walls n = allWalls.
Proof.
  intros I Hm Hn Hvn. destruct (inv_current _ _ _ I) as (c & Hc & Hv).
  pose proof (inv_closed _ _ _ I _ _ Hn Hvn) as Hwalls.
  exists c. split_and!; try done.
  rewrite (inv_symmetric _ _ _ I d _ _ _ _ Hm Hc Hn), Hwalls. by destruct d.
Qed.

(** A property kept by every iteration that continues holds of the state
    the loop breaks in. *)
Lemma loop_extra P :
  (∀ s s', Invariant w h s → P s → iteration s = Ok (inl s') → P s') →
  ∀ fuel s final,
    Invariant w h s → P s → loop fuel s = Ok final →
    ∃ s', Invariant w h s' ∧ P s' ∧ final = this s'
          ∧ iteration s' = Ok (inr final)
          ∧ ∀ r, inside w h r → visitedAt (grid (this s')) r.
Proof.
  intros Hstep fuel. induction fuel as [|fuel IH]; intros s final I HP; simpl; [done|].
  destruct (iteration_total w h s I) as [[s1|f] Hit]; rewrite Hit; simpl.
  - apply IH; [by destruct (iteration_continue w h s s1 I Hit)|by eapply Hstep].
  - intros [= <-]. destruct (iteration_break w h s f I Hit) as [-> Hall].
    exists s. by split_and!.
Qed.
End MoreGenerate.

Section MoreGenerate2.
Implicit Types (width height : Z) (seed : option Z) (mathRandom : Q).

(** The loop variables at entry. *)
Lemma enter_shape (this0 : t) s0 :
  enter this0 = Ok s0 →
  s0 = {| this := withGrid this0 (update (setVisited true) (0, 0) (grid this0));
          stack := []; currentCell := (0, 0) |}.
Proof.
  unfold enter. destruct (grid this0 !! 0); simpl; [|done].
  destruct (deref (grid this0) (0, 0)); simpl; [|done]. by intros [= <-].
Qed.

(** A result of [generate] is the instance of the state its loop breaks
    in; a property of the entry state kept by the iterations holds there. *)
Lemma generate_extra (P : Loop → Prop) width height seed mathRandom final :
  (∀ s s', Invariant (Z.to_nat width) (Z.to_nat height) s → P s →
           iteration s = Ok (inl s') → P s') →
  (∀ s0, enter (constructor width height seed mathRandom) = Ok s0 → P s0) →
  generate (constructor width height seed mathRandom) = Ok final →
  ∃ s', Invariant (Z.to_nat width) (Z.to_nat height) s' ∧ P s' ∧ final = this s'
        ∧ iteration s' = Ok (inr final)
        ∧ ∀ r, inside (Z.to_nat width) (Z.to_nat height) r →
               visitedAt (grid (this s')) r.
Proof.
  intros Hstep Hinit. unfold generate.
  destruct (enter (constructor width height seed mathRandom)) as [s0| |] eqn:E;
    simpl; try done.
  intros Hloop.
  assert (I0 : Invariant (Z.to_nat width) (Z.to_nat height) s0)
    by (eapply Reached_Invariant; by constructor).
  eapply loop_extra; eauto.
Qed.

Lemma visitedCount_enter width height seed mathRandom s0 :
  enter (constructor width height seed mathRandom) = Ok s0 →
  visitedCount (grid (this s0)) = 1.
Proof.
  intros E. pose proof (enter_shape _ _ E) as ->. simpl.
  unfold enter in E. simpl in E.
  destruct (initializeGrid width height !! 0) as [col|]; simpl in E; [|done].
  pose proof (deref_initializeGrid width height (0, 0)) as H00.
  case_decide; [|by rewrite H00 in E].
  pose proof (gridTotal_update (fun c => if visited c then 1 else 0)
                (setVisited true) (0, 0) _ _ H00) as Hvis.
  rewrite (gridTotal_initializeGrid _ _ _ 0) in Hvis by done.
  unfold visitedCount. simpl in Hvis. lia.
Qed.
End MoreGenerate2.

(** X3.  On a grid with at least one cell, [generate] calls the closure
    exactly [width * height - 1] times, once for every wall it removes, and
    leaves it in that state for [getStartPosition]; it keeps the seed, the
    width and the height of the instance, and every cell is left with its
    [visited] flag set. *)
Theorem generate_draw_count (width height : Z) (seed : option Z) (mathRandom : Q) :
  (1 ≤ width)%Z → (1 ≤ height)%Z →
  ∃ final,
    generate (constructor width height seed mathRandom) = Ok final
    ∧ MazeGenerator.seed final = chooseSeed seed mathRandom
    ∧ MazeGenerator.width final = width ∧ MazeGenerator.height final = height
    ∧ random final
      = advance (Z.to_nat width * Z.to_nat height - 1)
          (Prng.seededRandom (chooseSeed seed mathRandom))
    ∧ ∀ r c, deref (grid final) r = Some c → visited c = true.
Proof.
  intros Hw Hh.
  destruct (generate_final width height seed mathRandom Hw Hh) as (s1 & E & _).
  set (P := fun s : Loop =>
    MazeGenerator.seed (this s) = chooseSeed seed mathRandom
    ∧ random (this s)
      = advance (visitedCount (grid (this s)) - 1)
          (Prng.seededRandom (chooseSeed seed mathRandom))).
  destruct (generate_extra P width height seed mathRandom (this s1))
    as (s & I & [Hseed Hrand] & Hfinal & _ & Hall); [| |done|].
  - intros s s' I [Hseed Hrand] Hit.
    destruct (iteration_spec _ _ s I) as [(d & nb & n & Hm & Hn & Hv & Eit)|[_ Eit]];
      rewrite Eit in Hit.
    + injection Hit as <-. split; [done|]. simpl.
      destruct (carve_premises _ _ s d nb n I Hm Hn Hv) as (c & Hc & Hvc & Hwall & Hwalls).
      rewrite (visitedCount_carved _ d _ nb c n) by done.
      pose proof (inv_removed _ _ _ I).
      replace (visitedCount (grid (this s)) + 1 - 1)
        with (S (visitedCount (grid (this s)) - 1)) by lia.
      by rewrite advance_S, Hrand.
    + destruct (stack s); [done|]. by injection Hit as <-.
  - intros s0 Es0. split.
    + by rewrite (enter_shape _ _ Es0).
    + rewrite (visitedCount_enter _ _ _ _ _ Es0). by rewrite (enter_shape _ _ Es0).
  - exists (this s1). rewrite Hfinal in *. split; [done|]. split; [done|].
    pose proof (inv_width _ _ _ I). pose proof (inv_height _ _ _ I).
    split; [lia|]. split; [lia|]. split.
    + rewrite Hrand. f_equal. f_equal. unfold visitedCount.
      rewrite (gridTotal_const _ _ _ _ 1 (inv_wf _ _ _ I)); [lia|].
      intros r c Hc.
      destruct (Hall r (inside_deref _ _ _ _ _ (inv_wf _ _ _ I) Hc)) as (c' & Hc' & Hv).
      rewrite Hc in Hc'. injection Hc' as <-. by rewrite Hv.
    + intros r c Hc.
      destruct (Hall r (inside_deref _ _ _ _ _ (inv_wf _ _ _ I) Hc)) as (c' & Hc' & Hv).
      congruence.
Qed.

Lemma generate_draw_count_witness :
  ∃ final,
    generate (constructor 5 5 (Some 42%Z) 0) = Ok final
    ∧ MazeGenerator.seed final = 42%Z
    ∧ MazeGenerator.width final = 5%Z ∧ MazeGenerator.height final = 5%Z
    ∧ random final = advance 24 (Prng.seededRandom 42)
    ∧ ∀ r c, deref (grid final) r = Some c → visited c = true.
Proof. apply (generate_draw_count 5 5 (Some 42%Z) 0); lia. Defined.

Section Regenerate.
Context (w h : nat).

Lemma update_id (f : MazeCell → MazeCell) r (g : Grid) c :
  deref g r = Some c → f c = c → update f r g = g.
Proof.
  unfold deref, update. intros Hc Hf.
  destruct (g !! r.1) as [col|] eqn:E; [|done].
  apply list_eq. intros i. destruct (decide (i = r.1)) as [->|Hi].
  - rewrite list_lookup_alter_eq, E. simpl. f_equal.
    apply list_eq. intros j. destruct (decide (j = r.2)) as [->|Hj].
    + rewrite list_lookup_alter_eq, Hc. simpl. by rewrite Hf.
    + by rewrite list_lookup_alter_ne.
  - by rewrite list_lookup_alter_ne.
Qed.

(** The state a second call of [generate] enters its loop in. *)
Lemma Invariant_restart s :
  Invariant w h s → (∀ r, inside w h r → visitedAt (grid (this s)) r) →
  Invariant w h {| this := this s; stack := []; currentCell := (0, 0) |}.
Proof.
  intros I Hall. destruct I. constructor; simpl; try done.
  - intros r Hr. by apply elem_of_nil in Hr.
  - intros r Hr. right. right. intros d n c Hm Hc.
    destruct (Hall n (inside_deref _ _ _ _ _ inv_wf0 Hc)) as (c' & Hc' & Hv).
    congruence.
Qed.

Lemma generate_again s :
  Invariant w h s → (∀ r, inside w h r → visitedAt (grid (this s)) r) →
  generate (this s) = Ok (this s).
Proof.
  intros I Hall. pose proof (Invariant_restart s I Hall) as I'.
  destruct (inv_origin _ _ _ I) as (c & Hc & Hv).
  pose proof (inside_deref _ _ _ _ _ (inv_wf _ _ _ I) Hc) as [H1 H2]. simpl in H1, H2.
  unfold generate, enter. rewrite Hc.
  assert (Hcol : is_Some (grid (this s) !! 0)).
  { unfold deref in Hc. simpl in Hc. destruct (grid (this s) !! 0); [eauto|done]. }
  destruct Hcol as [col ->]. cbn [defined bind].
  rewrite (update_id _ _ _ c Hc) by (destruct c; simpl in *; by subst).
  replace (withGrid (this s) (grid (this s))) with (this s) by (by destruct (this s)).
  unfold fuelFor. rewrite (inv_width _ _ _ I), (inv_height _ _ _ I), !Nat2Z.id.
  destruct (2 * (w * h)) as [|fuel] eqn:Hf; [nia|]. simpl.
  destruct (iteration_spec _ _ _ I') as [(d & nb & n & Hm & Hn & Hvn & _)|[_ ->]];
    [|done].
  simpl in Hn. destruct (Hall nb (inside_deref _ _ _ _ _ (inv_wf _ _ _ I) Hn))
    as (c' & Hc' & Hv'). congruence.
Qed.

(** The walls that face the outside are never removed. *)
Lemma rimStands_iteration s s' :
  Invariant w h s → rimStands w h (grid (this s)) →
  iteration s = Ok (inl s') → rimStands w h (grid (this s')).
Proof.
  intros I Hrim Hit.
  destruct (iteration_spec _ _ s I) as [(d & nb & n & Hm & Hn & Hv & Eit)|[_ Eit]];
    rewrite Eit in Hit.
  - injection Hit as <-. simpl.
    destruct (inv_current _ _ _ I) as (c & Hc & _).
    pose proof (inside_deref _ _ _ _ _ (inv_wf _ _ _ I) Hc) as Hcur.
    pose proof (inside_deref _ _ _ _ _ (inv_wf _ _ _ I) Hn) as Hnb.
    intros r c' d0. rewrite (deref_carved _ d _ nb c n) by done.
    destruct (decide (r = nb)) as [->|Hr].
    + intros [= <-] Hout. simpl. rewrite wallOf_clear.
      destruct (decide (d0 = opposite d)) as [->|]; [|by eapply Hrim].
      unfold outward in Hout. by rewrite (move_opposite _ _ _ Hm) in Hout.
    + destruct (decide (r = currentCell s)) as [->|Hr']; [|by apply Hrim].
      intros [= <-] Hout. simpl. rewrite wallOf_clear.
      destruct (decide (d0 = d)) as [->|]; [|by eapply Hrim].
      unfold outward in Hout. by rewrite Hm in Hout.
  - destruct (stack s); [done|]. by injection Hit as <-.
Qed.
End Regenerate.

Lemma rimStands_enter width height seed mathRandom s0 :
  enter (constructor width height seed mathRandom) = Ok s0 →
  rimStands (Z.to_nat width) (Z.to_nat height) (grid (this s0)).
Proof.
  intros E. rewrite (enter_shape _ _ E). simpl. intros r c d.
  rewrite deref_update, deref_initializeGrid.
  repeat case_decide; simpl; intros [= <-] _; by destruct d.
Qed.

Lemma generate_rimStands width height seed mathRandom final :
  generate (constructor width height seed mathRandom) = Ok final →
  wellFormed (Z.to_nat width) (Z.to_nat height) (grid final)
  ∧ rimStands (Z.to_nat width) (Z.to_nat height) (grid final).
Proof.
  intros Hgen.
  destruct (generate_extra
              (fun s => rimStands (Z.to_nat width) (Z.to_nat height) (grid (this s)))
              width height seed mathRandom final)
    as (s & I & Hrim & -> & _); [| |done|].
  - intros s s'. apply rimStands_iteration.
  - apply rimStands_enter.
  - split; [apply (inv_wf _ _ _ I)|done].
Qed.

(** X4.  A second call of [generate] on an instance changes nothing: every
    cell is already visited, so the loop breaks in its first iteration,
    without a draw and without removing a wall; the instance (grid, seed and
    closure) is the one the first call left. *)
Theorem generate_twice (width height : Z) (seed : option Z) (mathRandom : Q) (final : t) :
  generate (constructor width height seed mathRandom) = Ok final →
  generate final = Ok final.
Proof.
  intros Hgen.
  destruct (generate_extra (fun _ => True) width height seed mathRandom final)
    as (s & I & _ & -> & _ & Hall); [done|done|done|].
  by eapply generate_again.
Qed.

Lemma generate_twice_witness :
  ∃ final, generate (constructor 2 2 (Some 1%Z) 0) = Ok final
           ∧ generate final = Ok final.
Proof.
  eexists. split; [vm_compute; reflexivity|].
  apply (generate_twice 2 2 (Some 1%Z) 0). vm_compute. reflexivity.
Defined.

(** X5.  In the grid [generate] returns, every wall on the outline of the
    maze stands: the west wall of the cells of column 0, the north wall of
    the cells of row 0, the east wall of the last column and the south wall
    of the last row. *)
Theorem outline_walls_stand (width height : Z) (seed : option Z) (mathRandom : Q)
    (final : t) (i j : nat) (c : MazeCell) :
  generate (constructor width height seed mathRandom) = Ok final →
  deref (grid final) (i, j) = Some c →
  (i = 0 → west (walls c) = true)
  ∧ (j = 0 → north (walls c) = true)
  ∧ (Z.of_nat i = (width - 1)%Z → east (walls c) = true)
  ∧ (Z.of_nat j = (height - 1)%Z → south (walls c) = true).
Proof.
  intros Hgen Hc. destruct (generate_rimStands _ _ _ _ _ Hgen) as [Hwf Hrim].
  split_and!; intros E.
  - apply (Hrim (i, j) c West Hc). unfold outward. simpl. by rewrite E.
  - apply (Hrim (i, j) c North Hc). unfold outward. simpl. by rewrite E.
  - apply (Hrim (i, j) c East Hc). unfold outward, inside. simpl. lia.
  - apply (Hrim (i, j) c South Hc). unfold outward, inside. simpl. lia.
Qed.

Lemma outline_walls_stand_witness :
  ∃ final c,
    generate (constructor 2 2 (Some 1%Z) 0) = Ok final
    ∧ deref (grid final) (1, 0) = Some c
    ∧ ((1 = 0 → west (walls c) = true)
       ∧ (0 = 0 → north (walls c) = true)
       ∧ (Z.of_nat 1 = (2 - 1)%Z → east (walls c) = true)
       ∧ (Z.of_nat 0 = (2 - 1)%Z → south (walls c) = true)).
Proof.
  eexists. eexists. split; [vm_compute; reflexivity|]. split; [vm_compute; reflexivity|].
  eapply (outline_walls_stand 2 2 (Some 1%Z) 0);
    [vm_compute; reflexivity|vm_compute; reflexivity].
Defined.

(** ** The player and the outline of the maze *)

Section Outline.
Import FirstPersonController CollisionSpec.
Local Open Scope Q_scope.

(** One axis: a coordinate that maps to one of [n] cells and keeps the
    buffer to the outer wall of the first and of the last cell is at least
    the buffer inside the whole extent. *)
Lemma axis_within (cellSize v : Q) (n : Z) (lo hi : bool) :
  buffer <= cellSize →
  (0 ≤ mazeCoord cellSize v < n)%Z →
  (mazeCoord cellSize v = 0%Z → lo = true) →
  (mazeCoord cellSize v = (n - 1)%Z → hi = true) →
  (lo = true → buffer <= localCoord cellSize v) →
  (hi = true → buffer <= cellSize - localCoord cellSize v) →
  buffer <= v ∧ v <= inject_Z n * cellSize - buffer.
Proof.
  intros Hb [H0 Hn] Hlo Hhi Clo Chi.
  assert (Hcs : 0 < cellSize) by (unfold buffer in Hb; lra).
  destruct (localCoord_range cellSize v Hcs) as [L0 L1].
  unfold localCoord in *. set (k := mazeCoord cellSize v) in *.
  assert (K0 : inject_Z 0 <= inject_Z k) by (rewrite <- Zle_Qle; lia).
  change (inject_Z 0) with 0 in K0.
  assert (Hsub : ∀ a b, inject_Z (a - b) == inject_Z a - inject_Z b).
  { intros a b. unfold Z.sub. rewrite inject_Z_plus, inject_Z_opp. ring. }
  assert (Kn : inject_Z k <= inject_Z (n - 1)) by (rewrite <- Zle_Qle; lia).
  pose proof (Hsub n 1%Z) as S1. change (inject_Z 1) with 1 in S1.
  unfold buffer in *. split.
  - destruct (decide (k = 0%Z)) as [E|E].
    + specialize (Clo (Hlo E)). rewrite E in Clo.
      change (inject_Z 0) with 0 in Clo. lra.
    + assert (K1 : inject_Z 1 <= inject_Z k) by (rewrite <- Zle_Qle; lia).
      change (inject_Z 1) with 1 in K1. nra.
  - destruct (decide (k = (n - 1)%Z)) as [E|E].
    + specialize (Chi (Hhi E)). rewrite E in *. nra.
    + assert (K2 : inject_Z k <= inject_Z (n - 2)) by (rewrite <- Zle_Qle; lia).
      pose proof (Hsub n 2%Z) as S2. change (inject_Z 2) with 2 in S2. nra.
Qed.
End Outline.

(** In a generated maze whose cells are at least as wide as the buffer,
    every position that [checkCollision] accepts keeps the buffer to the
    outline of the maze on both axes. *)
Lemma accepted_inside_outline (width height : Z) (seed : option Z) (mathRandom : Q)
    (final : t) (cellSize : Q) (p : FirstPersonController.Vector3) :
  generate (constructor width height seed mathRandom) = Ok final →
  (FirstPersonController.buffer <= cellSize)%Q →
  FirstPersonController.checkCollision (grid final) cellSize p = Ok false →
  Walk.withinOutline width height cellSize p.
Proof.
  intros Hgen Hb Hacc.
  destruct (generate_rimStands _ _ _ _ _ Hgen) as [Hwf Hrim].
  destruct (checkCollision_accepts _ _ _ cellSize Hwf p Hacc)
    as [[Hx Hz] (cell & Hcell & Cn & Cs & Cw & Ce)].
  unfold CollisionSpec.cellOf in Hcell.
  rewrite Z2Nat.id in Hx, Hz by lia.
  assert (X : (FirstPersonController.buffer <= FirstPersonController.vx p
               ∧ FirstPersonController.vx p
                 <= inject_Z width * cellSize - FirstPersonController.buffer)%Q).
  { apply (axis_within cellSize _ width (west (walls cell)) (east (walls cell)));
      try done.
    - intros E. apply (Hrim _ cell West Hcell). unfold outward. simpl. by rewrite E.
    - intros E. apply (Hrim _ cell East Hcell). unfold outward, inside. simpl. lia. }
  assert (Z : (FirstPersonController.buffer <= FirstPersonController.vz p
               ∧ FirstPersonController.vz p
                 <= inject_Z height * cellSize - FirstPersonController.buffer)%Q).
  { apply (axis_within cellSize _ height (north (walls cell)) (south (walls cell)));
      try done.
    - intros E. apply (Hrim _ cell North Hcell). unfold outward. simpl. by rewrite E.
    - intros E. apply (Hrim _ cell South Hcell). unfold outward, inside. simpl. lia. }
  unfold Walk.withinOutline. tauto.
Qed.

(** X6.  The player cannot leave a generated maze, nor come closer than
    the buffer of 0.3 to its outline: with cells at least as wide as the
    buffer, every position [checkCollision] accepts is at least the buffer
    inside the outline on both axes, and from a position that is, every
    sequence of frames, whatever the velocities and the doors ahead, runs
    without an error and ends in such a position, at the height it started
    from. *)
Theorem player_stays_inside_outline (width height : Z) (seed : option Z)
    (mathRandom : Q) (final : t) (cellSize : Q)
    (p : FirstPersonController.Vector3)
    (inputs : list (FirstPersonController.Vector3 * bool)) :
  generate (constructor width height seed mathRandom) = Ok final →
  (FirstPersonController.buffer <= cellSize)%Q →
  Walk.withinOutline width height cellSize p →
  (∀ q, FirstPersonController.checkCollision (grid final) cellSize q = Ok false →
        Walk.withinOutline width height cellSize q)
  ∧ ∃ p', Walk.frames (grid final) cellSize p inputs = Ok p'
          ∧ Walk.withinOutline width height cellSize p'
          ∧ FirstPersonController.vy p' = FirstPersonController.vy p.
Proof.
  intros Hgen Hb Hp.
  assert (Hacc : ∀ q, FirstPersonController.checkCollision (grid final) cellSize q
                      = Ok false → Walk.withinOutline width height cellSize q)
    by (intros q; by eapply accepted_inside_outline).
  split; [done|].
  destruct (generate_rimStands _ _ _ _ _ Hgen) as [Hwf _].
  revert p Hp. induction inputs as [|[velocity doorAhead] inputs IH]; intros p Hp.
  - by exists p.
  - cbn [Walk.frames fst snd].
    destruct (useFrame_spec _ _ _ cellSize Hwf p velocity doorAhead)
      as (hitX & hitZ & HX & HZ & ->).
    cbn [bind].
    set (p1 := if moving velocity && doorAhead then p
               else if hitZ
                    then (if hitX then p
                          else setX p (FirstPersonController.vx (add p velocity)))
                    else setZ (if hitX then p
                               else setX p (FirstPersonController.vx (add p velocity)))
                           (FirstPersonController.vz (add p velocity))).
    assert (H1 : Walk.withinOutline width height cellSize p1
                 ∧ FirstPersonController.vy p1 = FirstPersonController.vy p).
    { unfold p1. destruct (moving velocity && doorAhead); [done|].
      destruct Hp as (X1 & X2 & Z1 & Z2).
      destruct hitX.
      - destruct hitZ; [done|]. destruct (Hacc _ HZ) as (_ & _ & ? & ?). done.
      - destruct (Hacc _ HX) as (? & ? & _ & _).
        destruct hitZ; [done|]. destruct (Hacc _ HZ) as (_ & _ & ? & ?). done. }
    destruct H1 as [H1 Hy]. destruct (IH p1 H1) as (p' & -> & ? & Hy').
    exists p'. split_and!; [done|done|congruence].
Qed.

Lemma player_stays_inside_outline_witness :
  ∃ final,
    generate (constructor 2 2 (Some 1%Z) 0) = Ok final
    ∧ ∃ p',
        Walk.frames (grid final) 4 (FirstPersonController.mkVector3 2 (17 # 10) 2)
          [(FirstPersonController.mkVector3 (-3) 0 0, false);
           (FirstPersonController.mkVector3 0 0 1, false)] = Ok p'
        ∧ Walk.withinOutline 2 2 4 p'.
Proof.
  eexists. split; [vm_compute; reflexivity|].
  match goal with
  | |- ∃ p', Walk.frames (grid ?f) _ _ _ = _ ∧ _ =>
      destruct (player_stays_inside_outline 2 2 (Some 1%Z) 0 f 4
                  (FirstPersonController.mkVector3 2 (17 # 10) 2)
                  [(FirstPersonController.mkVector3 (-3) 0 0, false);
                   (FirstPersonController.mkVector3 0 0 1, false)])
        as [_ (p' & E & Hin & _)]
  end.
  - vm_compute. reflexivity.
  - vm_compute. discriminate.
  - unfold Walk.withinOutline. vm_compute. split_and!; discriminate.
  - exists p'. split; [exact E|exact Hin].
Defined.

(** ** Doors *)

Section Doors.
Import DoorScan.

Lemma scene_items_column i col j s :
  forEach (Maze3D.cellWalls i) col j s = foldl sceneStep s (columnItems i j col).
Proof.
  revert j s. induction col as [|cell col IH]; intros j s; simpl; [done|].
  by rewrite IH.
Qed.

Lemma scene_items (maze : Grid) i s :
  forEach (fun row i s => forEach (Maze3D.cellWalls i) row 0 s) maze i s
  = foldl sceneStep s (gridItems i maze).
Proof.
  revert i s. induction maze as [|col maze IH]; intros i s; simpl; [done|].
  by rewrite IH, foldl_app, scene_items_column.
Qed.

Lemma view_items_column i col j s :
  forEach (App.cellWalls i) col j s = foldl viewStep s (columnItems i j col).
Proof.
  revert j s. induction col as [|cell col IH]; intros j s; simpl; [done|].
  by rewrite IH.
Qed.

Lemma view_items (maze : Grid) i s :
  forEach (fun row i s => forEach (App.cellWalls i) row 0 s) maze i s
  = foldl viewStep s (gridItems i maze).
Proof.
  revert i s. induction maze as [|col maze IH]; intros i s; simpl; [done|].
  by rewrite IH, foldl_app, view_items_column.
Qed.

Lemma present_cons (it : Item) items :
  present (it :: items) = (if it.1 then [it.2] else []) ++ present items.
Proof.
  unfold present. rewrite filter_cons. by destruct it as [[] k].
Qed.

Lemma present_app l1 l2 : present (l1 ++ l2) = present l1 ++ present l2.
Proof. unfold present. by rewrite filter_app, map_app. Qed.

Lemma present_sublist items : present items `sublist_of` map snd items.
Proof.
  induction items as [|it items IH]; [done|]. rewrite present_cons. simpl.
  destruct it.1; simpl; by constructor.
Qed.

Lemma elem_of_present k items : k ∈ present items ↔ (true, k) ∈ items.
Proof.
  unfold present. rewrite list_elem_of_fmap. split.
  - intros ([p k'] & -> & [Hp ?]%list_elem_of_filter). simpl in Hp. by subst.
  - intros H. exists (true, k). split; [done|]. by apply list_elem_of_filter.
Qed.

Lemma pick_sublist threshold s sides : pick threshold s sides `sublist_of` sides.
Proof.
  revert s. induction sides as [|k sides IH]; intros s; simpl; [done|].
  destruct (JS.lt _ _); simpl; by constructor.
Qed.

Lemma sceneStep_present k s ms :
  ∃ new,
    sceneStep (s, ms) (true, k) = ((Prng.next s).2, ms ++ new)
    ∧ DoorSpec.doorKeys new = (if JS.lt (Prng.next s).1 doorChance then [k] else [])
    ∧ length new
      = 1 + 3 * length (if JS.lt (Prng.next s).1 doorChance then [k] else []).
Proof.
  destruct k as [[i j] d]. unfold sceneStep, Maze3D.wall. cbn [fst snd].
  destruct (Prng.next s) as [r rnd]. cbn [fst snd].
  destruct (JS.lt r doorChance); eexists; split_and!; done.
Qed.

Lemma viewStep_present k s acc :
  k ∉ acc →
  viewStep (s, acc) (true, k)
  = ((Prng.next s).2,
     acc ++ (if JS.lt (Prng.next s).1 doorChance then [k] else [])).
Proof.
  intros Hk. destruct k as [[i j] d]. unfold viewStep, App.wall. cbn [fst snd].
  destruct (Prng.next s) as [r rnd]. cbn [fst snd].
  destruct (JS.lt r doorChance); [|by rewrite app_nil_r].
  unfold App.setAdd. by rewrite decide_False.
Qed.

(** The scene builder over the items: one draw for every present wall; the
    doors are the picked walls; a plain wall is one mesh and a door four. *)
Lemma scene_fold items s ms :
  (foldl sceneStep (s, ms) items).1 = advance (length (present items)) s
  ∧ DoorSpec.doorKeys (foldl sceneStep (s, ms) items).2
    = DoorSpec.doorKeys ms ++ pick doorChance s (present items)
  ∧ length (foldl sceneStep (s, ms) items).2
    = length ms + length (present items)
      + 3 * length (pick doorChance s (present items)).
Proof.
  revert s ms. induction items as [|[p k] items IH]; intros s ms.
  - simpl. rewrite app_nil_r. split_and!; [done|done|lia].
  - cbn [foldl]. rewrite present_cons. cbn [fst snd]. destruct p.
    + destruct (sceneStep_present k s ms) as (new & -> & Hk & Hl).
      destruct (IH (Prng.next s).2 (ms ++ new)) as (A1 & A2 & A3).
      rewrite A1, A2, A3. cbn [app length pick].
      rewrite advance_next, doorKeys_app, Hk, !length_app, Hl, <- app_assoc.
      split_and!; [done|done|lia].
    + assert (sceneStep (s, ms) (false, k) = (s, ms)) as -> by (by destruct k as [[] ?]).
      cbn [app]. apply IH.
Qed.

(** The debug view over the items: as no key comes twice, the set never
    holds the key it is given. *)
Lemma view_fold items s acc :
  NoDup (map snd items) → (∀ k, k ∈ acc → k ∉ map snd items) →
  foldl viewStep (s, acc) items
  = (advance (length (present items)) s, acc ++ pick doorChance s (present items)).
Proof.
  revert s acc. induction items as [|[p k] items IH]; intros s acc Hnd Hacc.
  - simpl. by rewrite app_nil_r.
  - cbn [map snd] in Hnd, Hacc. apply NoDup_cons in Hnd as [Hk Hnd].
    cbn [foldl]. rewrite present_cons. cbn [fst snd]. destruct p.
    + rewrite viewStep_present.
      2:{ intros Hin. apply (Hacc _ Hin). left. }
      rewrite IH; [|done|].
      * cbn [app length pick]. by rewrite advance_next, <- app_assoc.
      * intros k' [Hin|Hin]%elem_of_app Hk'.
        -- apply (Hacc _ Hin). by right.
        -- destruct (JS.lt _ _); [|by apply elem_of_nil in Hin].
           apply list_elem_of_singleton in Hin. by subst.
    + assert (viewStep (s, acc) (false, k) = (s, acc)) as -> by (by destruct k as [[] ?]).
      cbn [app]. apply IH; [done|]. intros k' Hin Hk'. apply (Hacc _ Hin). by right.
Qed.

Lemma elem_of_columnItems p i j d i0 j0 col :
  (p, (i, j, d)) ∈ columnItems i0 j0 col
  ↔ i = i0 ∧ j0 ≤ j ∧ ∃ cell, col !! (j - j0) = Some cell ∧ p = wallOf d (walls cell).
Proof.
  revert j0. induction col as [|cell col IH]; intros j0; cbn [columnItems].
  - split; [by intros ?%elem_of_nil|]. by intros (_ & _ & ? & ? & _).
  - rewrite elem_of_app, IH. unfold cellItems. split.
    + intros [H|(-> & Hj & cell' & Hc & ->)].
      * assert (i = i0 ∧ j = j0 ∧ p = wallOf d (walls cell)) as (-> & -> & ->).
        { repeat (apply elem_of_cons in H as [H|H]; [by simplify_eq/=|]).
          by apply elem_of_nil in H. }
        split_and!; [done|done|]. exists cell. by rewrite Nat.sub_diag.
      * split_and!; [done|lia|]. exists cell'. split; [|done].
        replace (j - j0) with (S (j - S j0)) by lia. done.
    + intros (-> & Hj & cell' & Hc & ->).
      destruct (decide (j = j0)) as [->|Hne].
      * left. rewrite Nat.sub_diag in Hc. simpl in Hc. injection Hc as <-.
        destruct d; simpl; set_solver.
      * right. split_and!; [done|lia|]. exists cell'. split; [|done].
        replace (j - j0) with (S (j - S j0)) in Hc by lia. done.
Qed.

Lemma elem_of_gridItems p i j d i0 (g : Grid) :
  (p, (i, j, d)) ∈ gridItems i0 g
  ↔ i0 ≤ i ∧ ∃ cell, deref g (i - i0, j) = Some cell ∧ p = wallOf d (walls cell).
Proof.
  revert i0. induction g as [|col g IH]; intros i0; simpl.
  - split; [by intros ?%elem_of_nil|]. by intros (_ & ? & ? & _).
  - rewrite elem_of_app, IH, elem_of_columnItems. unfold deref. simpl. split.
    + intros [(-> & _ & cell & Hc & ->)|(Hi & cell & Hc & ->)].
      * split; [done|]. exists cell. rewrite Nat.sub_diag. simpl.
        by rewrite Nat.sub_0_r in Hc.
      * split; [lia|]. exists cell. split; [|done].
        replace (i - i0) with (S (i - S i0)) by lia. done.
    + intros (Hi & cell & Hc & ->). destruct (decide (i = i0)) as [->|Hne].
      * left. split_and!; [done|lia|]. exists cell. rewrite Nat.sub_diag in Hc.
        simpl in Hc. by rewrite Nat.sub_0_r.
      * right. split; [lia|]. exists cell. split; [|done].
        replace (i - i0) with (S (i - S i0)) in Hc by lia. done.
Qed.

Lemma NoDup_columnItems i j col : NoDup (map snd (columnItems i j col)).
Proof.
  revert j. induction col as [|cell col IH]; intros j; simpl; [constructor|].
  assert (Hlater : ∀ d, (i, j, d) ∉ map snd (columnItems i (S j) col)).
  { intros d ([p k] & E & Hin)%list_elem_of_fmap. simpl in E. subst k.
    apply elem_of_columnItems in Hin. lia. }
  repeat (apply NoDup_cons; split;
          [rewrite ?not_elem_of_cons; split_and?; try done; apply Hlater|]).
  apply IH.
Qed.

Lemma NoDup_gridItems i (g : Grid) : NoDup (map snd (gridItems i g)).
Proof.
  revert i. induction g as [|col g IH]; intros i; simpl; [constructor|].
  rewrite map_app. apply NoDup_app. split_and!; [apply NoDup_columnItems| |apply IH].
  intros [[a b] d] ([p k] & E & Hin)%list_elem_of_fmap ([q k'] & E' & Hin')%list_elem_of_fmap.
  simpl in E, E'. subst k k'.
  apply elem_of_columnItems in Hin. apply elem_of_gridItems in Hin'. lia.
Qed.

Lemma length_present_column i j col :
  length (present (columnItems i j col)) = total wallCountOf col.
Proof.
  revert j. induction col as [|cell col IH]; intros j; [done|].
  cbn [columnItems total foldr]. rewrite present_app, length_app, IH. f_equal.
  unfold wallCountOf, present, cellItems.
  by destruct (north (walls cell)), (south (walls cell)), (east (walls cell)),
    (west (walls cell)).
Qed.

Lemma length_presentSides (g : Grid) : length (presentSides g) = presentWalls g.
Proof.
  unfold presentSides, presentWalls, gridTotal. generalize 0.
  induction g as [|col g IH]; intros i; simpl; [done|].
  by rewrite present_app, length_app, IH, length_present_column.
Qed.

(** With a stream that stays in one state, a draw below the threshold picks
    every wall. *)
Lemma pick_fixed threshold s sides :
  (Prng.next s).2 = s → JS.lt (Prng.next s).1 threshold = true →
  pick threshold s sides = sides.
Proof.
  intros Hs Hlt. induction sides as [|k sides IH]; [done|].
  cbn [pick]. by rewrite Hlt, Hs, IH.
Qed.
End Doors.

(** X7.  Doors only replace walls that are present: every door of the
    scene sits on a wall its cell has, no wall gets two doors, and the set of
    the debug view holds the same doors in the same order, its membership
    test never finding a key.  The generator of the doors is called once for
    every present wall, and the scene holds one mesh for every plain wall and
    four (three frame parts and the door) for every wall with a door. *)
Theorem doors_on_present_walls (maze : Grid) (seed : Z) :
  (∀ i j d, (i, j, d) ∈ Maze3D.doors maze seed →
            ∃ cell, deref maze (i, j) = Some cell ∧ wallOf d (walls cell) = true)
  ∧ NoDup (Maze3D.doors maze seed)
  ∧ App.doorMap maze seed = Maze3D.doors maze seed
  ∧ (forEach (fun row i s => forEach (Maze3D.cellWalls i) row 0 s) maze 0
       (Prng.seededRandom seed, [])).1
    = advance (presentWalls maze) (Prng.seededRandom seed)
  ∧ length (Maze3D.wallElements maze seed)
    = presentWalls maze + 3 * length (Maze3D.doors maze seed).
Proof.
  destruct (scene_fold (DoorScan.gridItems 0 maze) (Prng.seededRandom seed) [])
    as (H1 & H2 & H3).
  rewrite <- scene_items in H1, H2, H3.
  fold (DoorScan.presentSides maze) in H1, H2, H3.
  rewrite length_presentSides in H1, H3.
  change (DoorSpec.doorKeys ?l) with
    (map (fun m => (Maze3D.mx m, Maze3D.mz m, Maze3D.side m))
       (filter (fun m => Maze3D.isDoor m = true) l)) in H2.
  fold (Maze3D.wallElements maze seed) in H2, H3.
  fold (Maze3D.doors maze seed) in H2. simpl in H2, H3.
  rewrite <- H2 in H3. split_and!; [| | |done|done].
  - intros i j d Hin. rewrite H2 in Hin.
    pose proof (elem_of_sublist _ _ _ Hin (pick_sublist _ _ _)) as Hp.
    apply elem_of_present, elem_of_gridItems in Hp as (_ & cell & Hc & Hw).
    rewrite Nat.sub_0_r in Hc. eauto.
  - rewrite H2. eapply sublist_NoDup; [|apply pick_sublist].
    eapply sublist_NoDup; [apply NoDup_gridItems|apply present_sublist].
  - unfold App.doorMap. rewrite view_items, view_fold;
      [by rewrite H2|apply NoDup_gridItems|by intros k ?%elem_of_nil].
Qed.

Section Meshes.
Import DoorScan.

Lemma scene_meshes items s ms :
  (foldl sceneStep (s, ms) items).2 = ms ++ meshes doorChance s (present items).
Proof.
  revert s ms. induction items as [|[p k] items IH]; intros s ms.
  - simpl. by rewrite app_nil_r.
  - cbn [foldl]. rewrite present_cons. cbn [fst snd]. destruct p.
    + assert (sceneStep (s, ms) (true, k)
              = ((Prng.next s).2,
                 ms ++ (if JS.lt (Prng.next s).1 doorChance then frame k else plain k)))
        as ->.
      { destruct k as [[i j] d]. unfold sceneStep, Maze3D.wall. cbn [fst snd].
        destruct (Prng.next s) as [r rnd]. cbn [fst snd].
        by destruct (JS.lt r doorChance). }
      rewrite IH. cbn [app meshes]. by rewrite <- app_assoc.
    + assert (sceneStep (s, ms) (false, k) = (s, ms)) as -> by (by destruct k as [[] ?]).
      cbn [app]. apply IH.
Qed.

Lemma elem_of_meshes threshold s sides m :
  m ∈ meshes threshold s sides →
  keyOf m ∈ sides
  ∧ (Maze3D.isDoor m = true ↔ Maze3D.piece m = Maze3D.Door)
  ∧ (NoDup sides →
     (Maze3D.piece m ≠ Maze3D.Plain ↔ keyOf m ∈ pick threshold s sides)).
Proof.
  revert s. induction sides as [|k sides IH]; intros s; cbn [meshes pick];
    [by intros ?%elem_of_nil|].
  intros [Hm|Hm]%elem_of_app.
  - assert (Hk : keyOf m = k).
    { destruct k as [[i j] d].
      destruct (JS.lt _ _); unfold frame, plain in Hm;
        repeat (apply elem_of_cons in Hm as [->|Hm]; [done|]);
        by apply elem_of_nil in Hm. }
    split; [rewrite Hk; left|]. split.
    + destruct (JS.lt _ _); unfold frame, plain in Hm;
        repeat (apply elem_of_cons in Hm as [->|Hm]; [done|]);
        by apply elem_of_nil in Hm.
    + intros [Hn Hnd]%NoDup_cons. rewrite Hk.
      destruct (JS.lt (Prng.next s).1 threshold).
      * split; [intros _; left|intros _].
        unfold frame in Hm.
        repeat (apply elem_of_cons in Hm as [->|Hm]; [done|]).
        by apply elem_of_nil in Hm.
      * cbn [app]. split.
        -- unfold plain in Hm. apply list_elem_of_singleton in Hm as ->. done.
        -- intros Hin. destruct Hn.
           by apply (elem_of_sublist _ _ _ Hin), pick_sublist.
  - destruct (IH _ Hm) as (Hin & Hdoor & Hplain).
    split; [by right|]. split; [done|].
    intros [Hn Hnd]%NoDup_cons. rewrite (Hplain Hnd), elem_of_app.
    split; [by right|]. intros [Hk|?]; [|done].
    destruct (JS.lt _ _); [|by apply elem_of_nil in Hk].
    apply list_elem_of_singleton in Hk. by rewrite Hk in Hin.
Qed.

Lemma NoDup_meshes threshold s sides : NoDup sides → NoDup (meshes threshold s sides).
Proof.
  revert s. induction sides as [|k sides IH]; intros s; cbn [meshes]; [constructor|].
  intros [Hn Hnd]%NoDup_cons. apply NoDup_app. split_and!.
  - destruct (JS.lt _ _); unfold frame, plain;
      repeat (apply NoDup_cons; split;
              [rewrite ?not_elem_of_cons; split_and?; try done; by intros ?%elem_of_nil|]);
      constructor.
  - intros m Hm Hm'. apply elem_of_meshes in Hm' as [Hin _].
    assert (keyOf m = k); [|congruence].
    destruct k as [[i j] d].
    destruct (JS.lt _ _); unfold frame, plain in Hm;
      repeat (apply elem_of_cons in Hm as [->|Hm]; [done|]);
      by apply elem_of_nil in Hm.
  - by apply IH.
Qed.
End Meshes.

(** X8.  No two meshes of the scene have the same key: a wall is either
    one plain mesh or the three parts of a frame and a door, and no wall is
    built twice.  Every mesh stands on a wall that its cell has, only the
    door itself is flagged [isDoor], and a wall has a plain mesh exactly when
    it has no door. *)
Theorem scene_keys_unique (maze : Grid) (seed : Z) :
  NoDup (Maze3D.wallElements maze seed)
  ∧ ∀ m, m ∈ Maze3D.wallElements maze seed →
         (∃ cell, deref maze (Maze3D.mx m, Maze3D.mz m) = Some cell
                  ∧ wallOf (Maze3D.side m) (walls cell) = true)
         ∧ (Maze3D.isDoor m = true ↔ Maze3D.piece m = Maze3D.Door)
         ∧ (Maze3D.piece m ≠ Maze3D.Plain
            ↔ (Maze3D.mx m, Maze3D.mz m, Maze3D.side m) ∈ Maze3D.doors maze seed).
Proof.
  assert (Hnd : NoDup (DoorScan.present (DoorScan.gridItems 0 maze))).
  { eapply sublist_NoDup; [apply NoDup_gridItems|apply present_sublist]. }
  assert (Hdoors : Maze3D.doors maze seed
                   = DoorScan.pick doorChance (Prng.seededRandom seed)
                       (DoorScan.present (DoorScan.gridItems 0 maze))).
  { destruct (scene_fold (DoorScan.gridItems 0 maze) (Prng.seededRandom seed) [])
      as (_ & H2 & _).
    rewrite <- scene_items in H2. exact H2. }
  unfold Maze3D.wallElements in *. rewrite scene_items, scene_meshes. cbn [app].
  split; [by apply NoDup_meshes|].
  intros m Hm. apply elem_of_meshes in Hm as (Hin & Hdoor & Hplain).
  split_and!; [|done|].
  - apply elem_of_present, elem_of_gridItems in Hin as (_ & cell & Hc & Hw).
    rewrite Nat.sub_0_r in Hc. eauto.
  - rewrite (Hplain Hnd), Hdoors. done.
Qed.

(** X9.  With a seed that is a multiple of [2^32], 0 among them, every
    draw of the door generator is 0, which is below 0.1: every wall that is
    present bears a door, in the scene and in the debug view. *)
Theorem seed_zero_doors_everywhere (maze : Grid) (k : Z) :
  Maze3D.doors maze (4294967296 * k) = DoorScan.presentSides maze
  ∧ App.doorMap maze (4294967296 * k) = DoorScan.presentSides maze
  ∧ ∀ i j d cell, deref maze (i, j) = Some cell → wallOf d (walls cell) = true →
                  (i, j, d) ∈ Maze3D.doors maze (4294967296 * k).
Proof.
  assert (Hscene : Maze3D.doors maze (4294967296 * k) = DoorScan.presentSides maze).
  { destruct (scene_fold (DoorScan.gridItems 0 maze)
                (Prng.seededRandom (4294967296 * k)) []) as (_ & H2 & _).
    rewrite <- scene_items in H2. unfold Maze3D.doors, Maze3D.wallElements.
    unfold DoorSpec.doorKeys in H2. rewrite H2. simpl.
    rewrite seededRandom_multiple. by apply pick_fixed. }
  split_and!; [done| |].
  - unfold App.doorMap. rewrite view_items, view_fold;
      [|apply NoDup_gridItems|by intros ? ?%elem_of_nil]. simpl.
    rewrite seededRandom_multiple. by apply pick_fixed.
  - intros i j d cell Hc Hw. rewrite Hscene. apply elem_of_present, elem_of_gridItems.
    split; [lia|]. exists cell. by rewrite Nat.sub_0_r.
Qed.

(** ** Ceiling lights *)

Section Gapped.
Import LightSpec.






End Gapped.

Section LightLoops.
Import LightSpec.
Context {R : Type} (random : R → Q * R).
Context (w h : nat) (maze : Grid) (first : list MazeCell).
Hypothesis Hwf : wellFormed w h maze.
Hypothesis Hfirst : maze !! 0 = Some first.







End LightLoops.

Section LightPlacement.
Import LightSpec.





End LightPlacement.





(** ** The generated maze seen by the scene and by the player *)

Section Generated.

Lemma gridTotal_add (f g : MazeCell → nat) (m : Grid) :
  gridTotal (fun c => f c + g c) m = gridTotal f m + gridTotal g m.
Proof.
  unfold gridTotal. induction m as [|col m IH]; [done|].
  cbn [total foldr]. fold (total (total (fun c => f c + g c)) m).
  fold (total (total f) m). fold (total (total g) m). rewrite IH.
  assert (total (fun c => f c + g c) col = total f col + total g col) as ->; [|lia].
  induction col as [|c col IHc]; [done|]. cbn [total foldr].
  fold (total (fun c => f c + g c) col). fold (total f col). fold (total g col). lia.
Qed.

(** Of the four flags of every cell, those that are on and those that are
    off. *)
Lemma presentWalls_openFlags w h (g : Grid) :
  wellFormed w h g → presentWalls g + openFlags g = 4 * (w * h).
Proof.
  intros Hwf. unfold presentWalls, openFlags. rewrite <- gridTotal_add.
  rewrite (gridTotal_const w h _ _ 4 Hwf); [lia|].
  intros r c _. unfold wallCountOf.
  by destruct (north (walls c)), (south (walls c)), (east (walls c)), (west (walls c)).
Qed.

Lemma visitedCount_all w h (g : Grid) :
  wellFormed w h g → (∀ r, inside w h r → visitedAt g r) → visitedCount g = w * h.
Proof.
  intros Hwf Hall. unfold visitedCount.
  rewrite (gridTotal_const _ _ _ _ 1 Hwf); [lia|].
  intros r c Hc. destruct (Hall r (inside_deref _ _ _ _ _ Hwf Hc)) as (c' & Hc' & Hv).
  rewrite Hc in Hc'. injection Hc' as <-. by rewrite Hv.
Qed.

(** A cell with a passage has a side without wall. *)
Lemma passage_wallCount (g : Grid) a b c :
  passage g a b → deref g a = Some c → wallCountOf c ≤ 3.
Proof.
  intros (d & ca & _ & Hca & _ & Hw) Hc. assert (ca = c) as -> by congruence.
  unfold wallCountOf. destruct d; simpl in Hw; rewrite Hw;
    destruct (north (walls c)), (south (walls c)), (east (walls c)), (west (walls c));
    simpl; lia.
Qed.

Lemma Qfloor_unique (q : Q) (n : Z) :
  (inject_Z n <= q)%Q → (q < inject_Z (n + 1))%Q → Qfloor q = n.
Proof.
  intros H1 H2. pose proof (Qfloor_le q) as F1. pose proof (Qlt_floor q) as F2.
  assert (n < Qfloor q + 1)%Z by (rewrite Zlt_Qlt; eapply Qle_lt_trans; eauto).
  assert (Qfloor q < n + 1)%Z by (rewrite Zlt_Qlt; eapply Qle_lt_trans; eauto).
  lia.
Qed.

(** The centre of the cell [i] on one axis, for the cell size 4. *)
Lemma centre_coords (i : nat) :
  FirstPersonController.mazeCoord 4 (inject_Z (Z.of_nat i * 4 + 2)) = Z.of_nat i
  ∧ (FirstPersonController.localCoord 4 (inject_Z (Z.of_nat i * 4 + 2)) == 2)%Q.
Proof.
  assert (E : FirstPersonController.mazeCoord 4 (inject_Z (Z.of_nat i * 4 + 2))
              = Z.of_nat i).
  { unfold FirstPersonController.mazeCoord. apply Qfloor_unique;
      rewrite ?inject_Z_plus, ?inject_Z_mult;
      change (inject_Z 4) with 4%Q; change (inject_Z 2) with 2%Q;
      change (inject_Z 1) with 1%Q; set (q := inject_Z (Z.of_nat i)).
    - apply Qle_shift_div_l; [reflexivity|]. lra.
    - apply Qlt_shift_div_r; [reflexivity|]. lra. }
  split; [done|]. unfold FirstPersonController.localCoord. rewrite E.
  rewrite inject_Z_plus, inject_Z_mult. change (inject_Z 4) with 4%Q.
  change (inject_Z 2) with 2%Q. ring.
Qed.

(** The centre of a cell of the grid is accepted, whatever walls the cell
    has. *)
Lemma centre_accepted w h (maze : Grid) (i j : nat) (y : Q) :
  wellFormed w h maze → inside w h (i, j) →
  FirstPersonController.checkCollision maze 4
    (FirstPersonController.mkVector3 (inject_Z (Z.of_nat i * 4 + 2)) y
       (inject_Z (Z.of_nat j * 4 + 2)))
  = Ok false.
Proof.
  intros Hwf [Hi Hj]. simpl in Hi, Hj.
  destruct (centre_coords i) as [Ei Li]. destruct (centre_coords j) as [Ej Lj].
  destruct (deref_inside w h maze (i, j) Hwf) as [cell Hcell]; [done|].
  set (p := FirstPersonController.mkVector3 _ _ _).
  rewrite (checkCollision_inside w h maze 4 Hwf p cell).
  - f_equal. apply not_true_is_false. rewrite wallTests_nearWall.
    unfold CollisionSpec.nearWall, p, FirstPersonController.buffer. simpl.
    rewrite Li, Lj. intros [[_ H]|[[_ H]|[[_ H]|[_ H]]]]; lra.
  - unfold CollisionSpec.inBounds, p. simpl. rewrite Ei, Ej. lia.
  - unfold CollisionSpec.cellOf, p. simpl. by rewrite Ei, Ej, !Nat2Z.id.
Qed.
End Generated.

(** X12.  The maze [generate] returns has [2 * width * height + 2] walls
    that stand, counted per cell; with more than one cell no cell is sealed
    (each has at most three walls).  The scene builder therefore calls its
    door generator [2 * width * height + 2] times, whatever the seed of the
    doors. *)
Theorem generated_wall_total (width height : Z) (seed : option Z) (mathRandom : Q)
    (final : t) (doorSeed : Z) :
  generate (constructor width height seed mathRandom) = Ok final →
  presentWalls (grid final) = 2 * (Z.to_nat width * Z.to_nat height) + 2
  ∧ (2 ≤ Z.to_nat width * Z.to_nat height →
     ∀ r c, deref (grid final) r = Some c → wallCountOf c ≤ 3)
  ∧ (forEach (fun row i s => forEach (Maze3D.cellWalls i) row 0 s) (grid final) 0
       (Prng.seededRandom doorSeed, [])).1
    = advance (2 * (Z.to_nat width * Z.to_nat height) + 2)
        (Prng.seededRandom doorSeed).
Proof.
  intros Hgen.
  destruct (generate_extra (fun _ => True) width height seed mathRandom final)
    as (s & I & _ & -> & _ & Hall); [done|done|done|].
  pose proof (inv_wf _ _ _ I) as Hwf.
  assert (Htotal : presentWalls (grid (this s))
                   = 2 * (Z.to_nat width * Z.to_nat height) + 2).
  { pose proof (presentWalls_openFlags _ _ _ Hwf).
    pose proof (inv_flags _ _ _ I) as Hf.
    rewrite (visitedCount_all _ _ _ Hwf Hall) in Hf. lia. }
  split_and!; [done| |].
  - intros Hcells r c Hc.
    pose proof (inside_deref _ _ _ _ _ Hwf Hc) as Hr.
    assert (∃ r', inside (Z.to_nat width) (Z.to_nat height) r' ∧ r' ≠ r) as (r' & Hr' & Hne).
    { destruct r as [i j]. destruct Hr as [Hi Hj]. simpl in Hi, Hj.
      destruct (decide (2 ≤ Z.to_nat width)).
      - exists ((if decide (i = 0) then 1 else 0), j). unfold inside. simpl.
        case_decide; split; try lia; intros [= ?]; lia.
      - exists (i, (if decide (j = 0) then 1 else 0)). unfold inside. simpl.
        case_decide; split; try nia; intros [= ?]; lia. }
    assert (Hreach : reachable (grid (this s)) r r').
    { etrans.
      - apply reachable_symmetric; [apply I|]. by apply (inv_connected _ _ _ I), Hall.
      - by apply (inv_connected _ _ _ I), Hall. }
    apply rtc_inv in Hreach as [?|(b & Hp & _)]; [done|].
    by eapply passage_wallCount.
  - destruct (scene_fold (DoorScan.gridItems 0 (grid (this s)))
                (Prng.seededRandom doorSeed) []) as (H1 & _ & _).
    rewrite <- scene_items in H1. rewrite H1. f_equal.
    fold (DoorScan.presentSides (grid (this s))). by rewrite length_presentSides.
Qed.

Lemma generated_wall_total_witness :
  ∃ final,
    generate (constructor 2 2 (Some 1%Z) 0) = Ok final
    ∧ presentWalls (grid final) = 2 * (2 * 2) + 2.
Proof.
  eexists. split; [vm_compute; reflexivity|].
  eapply (generated_wall_total 2 2 (Some 1%Z) 0 _ 7). vm_compute. reflexivity.
Defined.

(** X13.  The player never starts inside a wall.  The application takes
    the start position from one instance of the generator and the maze from
    another of the same size: the position [getStartPosition] returns, the
    centre of a candidate or the fallback (2, 2), is accepted by
    [checkCollision] with the cell size 4 of the application in the maze of
    any instance of that size, whatever the seeds, at any height. *)
Theorem start_position_accepted (width height : Z) (seed seed' : option Z)
    (mathRandom mathRandom' : Q) (final final' shown : t) (p : Z * Z) (y : Q) :
  generate (constructor width height seed mathRandom) = Ok final →
  getStartPosition final = Ok (p, final') →
  generate (constructor width height seed' mathRandom') = Ok shown →
  FirstPersonController.checkCollision (grid shown) 4
    (FirstPersonController.mkVector3 (inject_Z p.1) y (inject_Z p.2))
  = Ok false.
Proof.
  intros Hgen Hstart Hshown.
  destruct (generate_extra (fun _ => True) width height seed mathRandom final)
    as (s & I & _ & -> & _ & Hall); [done|done|done|].
  destruct (generate_rimStands _ _ _ _ _ Hshown) as [Hwf' _].
  pose proof (inv_wf _ _ _ I) as Hwf.
  destruct (scanColumns_spec (grid (this s)) (interior (MazeGenerator.width (this s)))
              (interior (MazeGenerator.height (this s))) []) as (cands & Hscan & Hc).
  { intros i j [_ Hi]%elem_of_interior [_ Hj]%elem_of_interior.
    rewrite (inv_width _ _ _ I) in Hi. rewrite (inv_height _ _ _ I) in Hj.
    apply (deref_inside _ _ _ _ Hwf). split; simpl; lia. }
  pose proof (getStartPosition_spec (this s) cands Hscan) as Hspec.
  destruct cands as [|c0 cands'].
  - rewrite Hspec in Hstart. injection Hstart as <- _.
    destruct (inv_origin _ _ _ I) as (c & Hc0 & _).
    apply (centre_accepted _ _ _ 0 0 y Hwf'). by eapply inside_deref.
  - destruct Hspec as (chosen & top & Hget & Hin & _).
    rewrite Hget in Hstart. injection Hstart as <- _.
    apply Hc in Hin as [Hin|(i & j & cell & _ & _ & Hcell & _ & ->)];
      [by apply elem_of_nil in Hin|].
    apply (centre_accepted _ _ _ i j y Hwf'). by eapply inside_deref.
Qed.

Lemma start_position_accepted_witness :
  ∃ final p final' shown,
    generate (constructor 2 2 (Some 1%Z) 0) = Ok final
    ∧ getStartPosition final = Ok (p, final')
    ∧ generate (constructor 2 2 (Some 2%Z) 0) = Ok shown
    ∧ FirstPersonController.checkCollision (grid shown) 4
        (FirstPersonController.mkVector3 (inject_Z p.1) (17 # 10) (inject_Z p.2))
      = Ok false.
Proof.
  do 4 eexists. split; [vm_compute; reflexivity|]. split; [vm_compute; reflexivity|].
  split; [vm_compute; reflexivity|].
  eapply (start_position_accepted 2 2 (Some 1%Z) (Some 2%Z) 0 0 _ _ _ _ (17 # 10));
    [vm_compute; reflexivity|vm_compute; reflexivity|vm_compute; reflexivity].
Defined.

(** ** Keys *)

Section Keys.
Import Keyboard KeySpec.

(** A flag that a press of one of its keys sets, a release of one of them
    clears and no other event touches is on exactly when the last event on
    its keys was a press. *)
Lemma held_fold {S : Type} (step : S → KeyEvent → S) (get : S → bool)
    (labels : list String.string) (init : S) :
  get init = false →
  (∀ s e, get (step s e)
          = if oneOf (codeOf e) labels
            then match e with KeyDown _ => true | KeyUp _ => false end
            else get s) →
  ∀ events, get (foldl step init events) = true ↔ held labels events.
Proof.
  intros Hinit Hstep events. induction events as [|e l IH] using rev_ind.
  - simpl. rewrite Hinit. split; [done|].
    intros (before & code & later & E & _). by destruct before.
  - rewrite foldl_app. simpl. rewrite Hstep.
    assert (Hsplit : ∀ before code later,
              l ++ [e] = before ++ KeyDown code :: later →
              (later = [] ∧ before = l ∧ e = KeyDown code)
              ∨ ∃ later', later = later' ++ [e] ∧ l = before ++ KeyDown code :: later').
    { intros before code later E.
      destruct later as [|x later' _] using rev_ind.
      - left. apply app_inj_tail in E as [-> ->]. done.
      - right. exists later'.
        change (l ++ [e] = before ++ (KeyDown code :: later') ++ [x]) in E.
        rewrite app_assoc in E. apply app_inj_tail in E as [-> ->]. done. }
    destruct (oneOf (codeOf e) labels) eqn:Hone.
    + destruct e as [c|c]; simpl in Hone.
      * split; [|done]. intros _. exists l, c, []. split_and!; [done|done|].
        by intros ? ?%elem_of_nil.
      * split; [done|]. intros (before & code & later & E & Hc & Hl).
        apply Hsplit in E as [(_ & _ & ?)|(later' & -> & _)]; [done|].
        specialize (Hl (KeyUp c)). simpl in Hl. rewrite Hl in Hone; [done|].
        apply elem_of_app. right. by apply list_elem_of_singleton.
    + rewrite IH. split.
      * intros (before & code & later & -> & Hc & Hl).
        exists before, code, (later ++ [e]). split_and!; [|done|].
        -- by rewrite <- app_assoc.
        -- intros e' [?| ->%list_elem_of_singleton]%elem_of_app; [by apply Hl|done].
      * intros (before & code & later & E & Hc & Hl).
        apply Hsplit in E as [(_ & _ & ->)|(later' & -> & ->)].
        -- simpl in Hone. congruence.
        -- exists before, code, later'. split_and!; [done|done|].
           intros e' He'. apply Hl, elem_of_app. by left.
Qed.

Lemma dispatch1_flags (m : MoveState) (e : KeyEvent) :
  let pressed := match e with KeyDown _ => true | KeyUp _ => false end in
  forward (dispatch1 m e)
  = (if oneOf (codeOf e) ["KeyW"%string; "ArrowUp"%string] then pressed else forward m)
  ∧ backward (dispatch1 m e)
    = (if oneOf (codeOf e) ["KeyS"%string; "ArrowDown"%string] then pressed
       else backward m)
  ∧ left (dispatch1 m e)
    = (if oneOf (codeOf e) ["KeyA"%string; "ArrowLeft"%string] then pressed else left m)
  ∧ right (dispatch1 m e)
    = (if oneOf (codeOf e) ["KeyD"%string; "ArrowRight"%string] then pressed
       else right m).
Proof.
  destruct e as [c|c]; cbn [dispatch1 codeOf]; unfold handleKeyDown1, handleKeyUp1;
    split_and!; which_key c.
Qed.

Lemma dispatch_flags (s : MoveState * RotationState) (e : KeyEvent) :
  let pressed := match e with KeyDown _ => true | KeyUp _ => false end in
  forward (dispatch s e).1
  = (if oneOf (codeOf e) ["KeyW"%string; "ArrowUp"%string] then pressed
     else forward s.1)
  ∧ backward (dispatch s e).1
    = (if oneOf (codeOf e) ["KeyS"%string; "ArrowDown"%string] then pressed
       else backward s.1)
  ∧ left (dispatch s e).1
    = (if oneOf (codeOf e) ["KeyA"%string] then pressed else left s.1)
  ∧ right (dispatch s e).1
    = (if oneOf (codeOf e) ["KeyD"%string] then pressed else right s.1)
  ∧ rotateLeft (dispatch s e).2
    = (if oneOf (codeOf e) ["ArrowLeft"%string] then pressed else rotateLeft s.2)
  ∧ rotateRight (dispatch s e).2
    = (if oneOf (codeOf e) ["ArrowRight"%string] then pressed else rotateRight s.2).
Proof.
  destruct s as [m r].
  destruct e as [c|c]; cbn [dispatch codeOf]; unfold handleKeyDown, handleKeyUp;
    split_and!; which_key c.
Qed.
End Keys.

(** X14.  After any sequence of key events each flag of the controller is
    on exactly when the last event on one of the keys bound to it was a
    press; events on other keys do not touch it.  Two keys bound to one flag
    are not counted: releasing one clears the flag while the other is still
    down.  In the first version of the component the left and right arrows
    strafe like A and D; in the second they set the rotation flags and A and
    D alone strafe. *)
Theorem keys_follow_last_event (events : list Keyboard.KeyEvent) :
  (Keyboard.forward (Keyboard.after1 events) = true
   ↔ KeySpec.held ["KeyW"%string; "ArrowUp"%string] events)
  ∧ (Keyboard.backward (Keyboard.after1 events) = true
     ↔ KeySpec.held ["KeyS"%string; "ArrowDown"%string] events)
  ∧ (Keyboard.left (Keyboard.after1 events) = true
     ↔ KeySpec.held ["KeyA"%string; "ArrowLeft"%string] events)
  ∧ (Keyboard.right (Keyboard.after1 events) = true
     ↔ KeySpec.held ["KeyD"%string; "ArrowRight"%string] events)
  ∧ (Keyboard.forward (Keyboard.after events).1 = true
     ↔ KeySpec.held ["KeyW"%string; "ArrowUp"%string] events)
  ∧ (Keyboard.backward (Keyboard.after events).1 = true
     ↔ KeySpec.held ["KeyS"%string; "ArrowDown"%string] events)
  ∧ (Keyboard.left (Keyboard.after events).1 = true
     ↔ KeySpec.held ["KeyA"%string] events)
  ∧ (Keyboard.right (Keyboard.after events).1 = true
     ↔ KeySpec.held ["KeyD"%string] events)
  ∧ (Keyboard.rotateLeft (Keyboard.after events).2 = true
     ↔ KeySpec.held ["ArrowLeft"%string] events)
  ∧ (Keyboard.rotateRight (Keyboard.after events).2 = true
     ↔ KeySpec.held ["ArrowRight"%string] events).
Proof.
  unfold Keyboard.after1, Keyboard.after. split_and!.
  - apply (held_fold Keyboard.dispatch1 Keyboard.forward); [done|].
    intros s e. apply (dispatch1_flags s e).
  - apply (held_fold Keyboard.dispatch1 Keyboard.backward); [done|].
    intros s e. apply (dispatch1_flags s e).
  - apply (held_fold Keyboard.dispatch1 Keyboard.left); [done|].
    intros s e. apply (dispatch1_flags s e).
  - apply (held_fold Keyboard.dispatch1 Keyboard.right); [done|].
    intros s e. apply (dispatch1_flags s e).
  - apply (held_fold Keyboard.dispatch (fun s => Keyboard.forward s.1)); [done|].
    intros s e. apply (dispatch_flags s e).
  - apply (held_fold Keyboard.dispatch (fun s => Keyboard.backward s.1)); [done|].
    intros s e. apply (dispatch_flags s e).
  - apply (held_fold Keyboard.dispatch (fun s => Keyboard.left s.1)); [done|].
    intros s e. apply (dispatch_flags s e).
  - apply (held_fold Keyboard.dispatch (fun s => Keyboard.right s.1)); [done|].
    intros s e. apply (dispatch_flags s e).
  - apply (held_fold Keyboard.dispatch (fun s => Keyboard.rotateLeft s.2)); [done|].
    intros s e. apply (dispatch_flags s e).
  - apply (held_fold Keyboard.dispatch (fun s => Keyboard.rotateRight s.2)); [done|].
    intros s e. apply (dispatch_flags s e).
Qed.

(** ** Orientation *)

Section Orientation.
Import Keyboard Look LookSpec.
Local Open Scope Q_scope.

Lemma min_spec (a b : Q) :
  (a <= b ∧ JSMath.min a b = a) ∨ (b < a ∧ JSMath.min a b = b).
Proof.
  unfold JSMath.min. destruct (Qle_bool a b) eqn:E.
  - left. split; [by apply Qle_bool_iff|done].
  - right. split; [|done]. apply Qnot_le_lt. rewrite <- Qle_bool_iff. congruence.
Qed.

Lemma max_spec (a b : Q) :
  (a <= b ∧ JSMath.max a b = b) ∨ (b < a ∧ JSMath.max a b = a).
Proof.
  unfold JSMath.max. destruct (Qle_bool a b) eqn:E.
  - left. split; [by apply Qle_bool_iff|done].
  - right. split; [|done]. apply Qnot_le_lt. rewrite <- Qle_bool_iff. congruence.
Qed.

Lemma abs_spec (a : Q) :
  (0 <= a ∧ JSMath.abs a = a) ∨ (a < 0 ∧ JSMath.abs a = - a).
Proof.
  unfold JSMath.abs. destruct (Qle_bool 0 a) eqn:E.
  - left. split; [by apply Qle_bool_iff|done].
  - right. split; [|done]. apply Qnot_le_lt. rewrite <- Qle_bool_iff. congruence.
Qed.

Lemma lt_cases (a b : Q) :
  (a < b ∧ JS.lt a b = true) ∨ (b <= a ∧ JS.lt a b = false).
Proof.
  destruct (JS.lt a b) eqn:E.
  - left. split; [by apply lt_spec|done].
  - right. split; [|done]. apply Qnot_lt_le. rewrite <- lt_spec. congruence.
Qed.

Lemma sign_spec (a : Q) :
  (0 < a ∧ JSMath.sign a = 1) ∨ (a < 0 ∧ JSMath.sign a = - (1))
  ∨ (a == 0 ∧ JSMath.sign a = 0).
Proof.
  unfold JSMath.sign.
  destruct (lt_cases 0 a) as [[? ->]|[? ->]]; [by left|].
  destruct (lt_cases a 0) as [[? ->]|[? ->]]; [right; by left|].
  right. right. split; [lra|done].
Qed.

Lemma PI_positive : 0 < JSMath.PI / 2 ∧ - JSMath.PI / 2 == - (JSMath.PI / 2).
Proof. split; reflexivity. Qed.

(** A leveling frame that does not snap: the pitch moves towards the
    horizon by the smaller of its distance and [2 * delta]. *)
Lemma turn_leveling (delta : Q) (r : RotationState) (s : State) :
  isLeveling s = true → targetX s == 0 → 0 <= delta →
  let s' := turn delta r s in
  yaw s' = yaw s ∧ targetX s' = targetX s ∧ isPointerLocked s' = isPointerLocked s
  ∧ ((JSMath.abs (pitch s) < 1 # 100 ∧ isLeveling s' = false ∧ pitch s' == 0)
     ∨ (1 # 100 <= JSMath.abs (pitch s) ∧ isLeveling s' = true
        ∧ JSMath.abs (pitch s')
          == JSMath.abs (pitch s)
             - JSMath.min (JSMath.abs (pitch s)) (2 * delta)
        ∧ 0 <= pitch s * pitch s')).
Proof.
  intros Hlev Htarget Hdelta. unfold turn. rewrite Hlev.
  set (x := pitch s) in *. set (t := targetX s) in *.
  assert (Habs : JSMath.abs (t - x) == JSMath.abs x).
  { destruct (abs_spec (t - x)) as [[? ->]|[? ->]], (abs_spec x) as [[? ->]|[? ->]]; lra. }
  destruct (lt_cases (JSMath.abs (t - x)) (1 # 100)) as [[Hlt ->]|[Hge ->]]; cbn.
  - split_and!; try done. left. split_and!; [lra|done|done].
  - split_and!; try done. right. split; [lra|]. split; [done|].
    unfold levelingSpeed.
    destruct (min_spec (JSMath.abs (t - x)) (2 * delta)) as [[? ->]|[? ->]],
      (min_spec (JSMath.abs x) (2 * delta)) as [[? ->]|[? ->]],
      (sign_spec (t - x)) as [[? ->]|[[? ->]|[? ->]]],
      (abs_spec (t - x)) as [[? Ea]|[? Ea]], (abs_spec x) as [[? Ex]|[? Ex]];
      rewrite ?Ea, ?Ex in *;
      match goal with
      | |- JSMath.abs ?e == _ ∧ _ =>
          destruct (abs_spec e) as [[? ->]|[? ->]]; split; nra
      end.
Qed.

(** Without leveling a frame leaves the pitch alone. *)
Lemma turn_level (delta : Q) (r : RotationState) (s : State) :
  isLeveling s = false →
  pitch (turn delta r s) = pitch s ∧ isLeveling (turn delta r s) = false
  ∧ targetX (turn delta r s) = targetX s.
Proof.
  intros Hlev. unfold turn. rewrite Hlev.
  by destruct (rotateLeft r || rotateRight r).
Qed.

Lemma step_inRange (s : State) (e : Event) :
  inRange s → forward e → inRange (step s e).
Proof.
  intros (Hlo & Hhi & Ht) He. pose proof PI_positive as [HP HN].
  destruct e as [mx my|locked|delta r]; cbn [step].
  - unfold handleMouseMove. destruct (isPointerLocked s); cbn [negb]; [|done].
    unfold inRange. cbn [pitch targetX]. split_and!; [| |done].
    + destruct (max_spec (- JSMath.PI / 2)
                  (JSMath.min (JSMath.PI / 2) (pitch s - my * sensitivity)))
        as [[? ->]|[? ->]]; [done|lra].
    + destruct (max_spec (- JSMath.PI / 2)
                  (JSMath.min (JSMath.PI / 2) (pitch s - my * sensitivity)))
        as [[? ->]|[? ->]]; [|lra].
      destruct (min_spec (JSMath.PI / 2) (pitch s - my * sensitivity))
        as [[? ->]|[? ->]]; lra.
  - unfold handlePointerLockChange.
    by destruct (isPointerLocked s && negb locked).
  - simpl in He. destruct (isLeveling s) eqn:Hlev.
    + destruct (turn_leveling delta r s Hlev Ht He) as (_ & Et & _ & Hcase).
      unfold inRange. rewrite Et.
      destruct Hcase as [(_ & _ & E0)|(_ & _ & Eabs & Hsign)]; [split_and!; lra|].
      destruct (abs_spec (pitch (turn delta r s))) as [[? Ea]|[? Ea]],
        (abs_spec (pitch s)) as [[? Ex]|[? Ex]],
        (min_spec (JSMath.abs (pitch s)) (2 * delta)) as [[? Em]|[? Em]];
        rewrite ?Em, ?Ea, ?Ex in *; split_and!; try done; nra.
    + destruct (turn_level delta r s Hlev) as (Ep & _ & Et).
      unfold inRange. by rewrite Ep, Et.
Qed.

Lemma run_level (frames : list Event) (s : State) :
  (∀ e, e ∈ frames → ∃ delta r, e = Frame delta r) →
  isLeveling s = false →
  pitch (run frames s) = pitch s ∧ isLeveling (run frames s) = false.
Proof.
  revert s. induction frames as [|e frames IH]; intros s Hf Hlev; [done|].
  destruct (Hf e ltac:(left)) as (delta & r & ->). cbn [run foldl step].
  destruct (turn_level delta r s Hlev) as (Ep & El & _).
  destruct (IH (turn delta r s)) as [E1 E2]; [|done|].
  - intros e He. apply Hf. by right.
  - unfold run in E1, E2. by rewrite E1, E2.
Qed.

Lemma run_leveling (d : Q) (frames : list Event) (n : nat) (s : State) :
  0 < d → (∀ e, e ∈ frames → frameOf d e) → (S n ≤ length frames)%nat →
  isLeveling s = true → targetX s == 0 →
  JSMath.abs (pitch s) < (1 # 100) + 2 * d * inject_Z (Z.of_nat n) →
  isLeveling (run frames s) = false ∧ pitch (run frames s) == 0.
Proof.
  intros Hd. revert n s. induction frames as [|e frames IH];
    intros n s Hf Hlen Hlev Ht Hx; [simpl in Hlen; lia|].
  assert (Hrest : ∀ e', e' ∈ frames → ∃ delta r, e' = Frame delta r).
  { intros e' He'. specialize (Hf e' ltac:(by right)). destruct e'; try done. eauto. }
  pose proof (Hf e ltac:(left)) as He. destruct e as [| |delta r]; try done.
  simpl in He. cbn [run foldl step].
  destruct (turn_leveling delta r s Hlev Ht ltac:(lra)) as (_ & Et & _ & Hcase).
  destruct Hcase as [(_ & El & E0)|(Hge & El & Eabs & _)].
  - destruct (run_level frames (turn delta r s) Hrest El) as [E1 E2].
    unfold run in E1, E2. by rewrite E1, E2.
  - destruct n as [|n].
    { change (inject_Z (Z.of_nat 0)) with 0 in Hx. lra. }
    apply (IH n).
    + intros e' He'. apply Hf. by right.
    + simpl in Hlen. lia.
    + done.
    + by rewrite Et.
    + rewrite Eabs. rewrite Nat2Z.inj_succ, <- Z.add_1_r, inject_Z_plus in Hx.
      change (inject_Z 1) with 1 in Hx.
      set (k := inject_Z (Z.of_nat n)) in *.
      destruct (min_spec (JSMath.abs (pitch s)) (2 * delta)) as [[? ->]|[? ->]]; [|nra].
      assert (0 <= k) by (unfold k; rewrite <- (Zle_Qle 0); lia). nra.
Qed.
End Orientation.

(** X15.  The pitch of the camera never leaves the range from a quarter
    turn down to a quarter turn up ([-Math.PI / 2] to [Math.PI / 2]),
    whatever mouse moves, pointer lock changes and frames reach the
    component, as long as no frame has a negative duration; the target of
    leveling stays the horizon. *)
Theorem pitch_stays_in_range (events : list Look.Event) :
  (∀ e, e ∈ events → LookSpec.forward e) →
  LookSpec.inRange (Look.run events Look.initial).
Proof.
  assert (H : ∀ s, LookSpec.inRange s → (∀ e, e ∈ events → LookSpec.forward e) →
                   LookSpec.inRange (Look.run events s)).
  { induction events as [|e events IH]; intros s Hs Hev; [done|].
    cbn [Look.run foldl]. apply IH.
    - apply step_inRange; [done|]. apply Hev. left.
    - intros e' He'. apply Hev. by right. }
  apply H. unfold LookSpec.inRange. simpl. split_and!; [done|done|reflexivity].
Qed.

Lemma pitch_stays_in_range_witness :
  LookSpec.inRange
    (Look.run [Look.PointerLockChange true; Look.MouseMove 10 (-2000);
               Look.PointerLockChange false;
               Look.Frame (1 # 60) Keyboard.initialRotation]
       Look.initial).
Proof.
  apply pitch_stays_in_range.
  intros e He. repeat (apply elem_of_cons in He as [->|He]; [by simpl|]).
  by apply elem_of_nil in He.
Defined.

(** X16.  Leveling brings the camera back to the horizon and ends.  While
    it runs, a frame leaves the yaw alone, whatever arrow key is down, and
    moves the pitch towards 0 by [2 * delta], without passing it; below 0.01
    the pitch is set to 0 and leveling stops.  With frames of at least [d]
    seconds, a pitch below [0.01 + 2 * d * n] is level after [n + 1]
    frames. *)
Theorem leveling_reaches_horizon (s : Look.State) (d : Q) (n : nat)
    (frames : list Look.Event) :
  Look.isLeveling s = true → (Look.targetX s == 0)%Q → (0 < d)%Q →
  (∀ e, e ∈ frames → LookSpec.frameOf d e) → S n ≤ length frames →
  (JSMath.abs (Look.pitch s) < (1 # 100) + 2 * d * inject_Z (Z.of_nat n))%Q →
  (∀ delta r, (0 <= delta)%Q →
     Look.yaw (Look.turn delta r s) = Look.yaw s
     ∧ (JSMath.abs (Look.pitch (Look.turn delta r s)) <= JSMath.abs (Look.pitch s))%Q
     ∧ (0 <= Look.pitch s * Look.pitch (Look.turn delta r s))%Q)
  ∧ Look.isLeveling (Look.run frames s) = false
  ∧ (Look.pitch (Look.run frames s) == 0)%Q.
Proof.
  intros Hlev Ht Hd Hf Hlen Hx. split; [|by eapply run_leveling].
  intros delta r Hdelta.
  destruct (turn_leveling delta r s Hlev Ht Hdelta) as (Ey & _ & _ & Hcase).
  split; [done|].
  destruct Hcase as [(_ & _ & E0)|(_ & _ & Eabs & Hsign)].
  - destruct (abs_spec (Look.pitch s)) as [[? ->]|[? ->]],
      (abs_spec (Look.pitch (Look.turn delta r s))) as [[? ->]|[? ->]]; split; nra.
  - split; [|done]. rewrite Eabs.
    destruct (min_spec (JSMath.abs (Look.pitch s)) (2 * delta)) as [[? ->]|[? ->]];
      destruct (abs_spec (Look.pitch s)) as [[? ->]|[? ->]]; lra.
Qed.

Lemma leveling_reaches_horizon_witness :
  Look.isLeveling
    (Look.run [Look.Frame (1 # 10) Keyboard.initialRotation;
               Look.Frame (1 # 10) Keyboard.initialRotation;
               Look.Frame (1 # 10) Keyboard.initialRotation]
       (Look.mkState (3 # 10) 0 false true 0)) = false.
Proof.
  apply (leveling_reaches_horizon (Look.mkState (3 # 10) 0 false true 0) (1 # 10) 2);
    try reflexivity.
  intros e He. repeat (apply elem_of_cons in He as [->|He]; [by simpl|]).
  by apply elem_of_nil in He.
Defined.

(** ** Door hashes *)

Section Hash.
Import DoorUtils HashSpec.
Local Open Scope Z_scope.

Lemma toInt32_eqm (a : Z) : ∃ k, JS.toInt32 a = a + 4294967296 * k.
Proof.
  unfold JS.toInt32, JS.toUint32.
  pose proof (Z.div_mod a 4294967296 ltac:(lia)) as E.
  case_match.
  - exists (- (a / 4294967296) - 1). lia.
  - exists (- (a / 4294967296)). lia.
Qed.

Lemma toInt32_idem (a : Z) : JS.toInt32 (JS.toInt32 a) = JS.toInt32 a.
Proof. destruct (toInt32_eqm a) as [k E]. rewrite E at 1. apply toInt32_period. Qed.

(** One pass of the loop multiplies by 31 and adds the code, modulo
    [2^32]. *)
Lemma hashStep_spec (h c : Z) : hashStep h c = JS.toInt32 (31 * h + c).
Proof.
  unfold hashStep, JS.and, JS.shl. rewrite Z.land_diag, toInt32_idem.
  rewrite Z.shiftl_mul_pow2 by lia. change (2 ^ 5) with 32.
  destruct (toInt32_eqm h) as [k1 ->].
  destruct (toInt32_eqm ((h + 4294967296 * k1) * 32)) as [k2 ->].
  replace ((h + 4294967296 * k1) * 32 + 4294967296 * k2 - h + c)
    with (31 * h + c + 4294967296 * (32 * k1 + k2)) by lia.
  apply toInt32_period.
Qed.

Lemma hash_fold (a : Z) (codes : list Z) :
  foldl hashStep (JS.toInt32 a) codes
  = JS.toInt32 (foldl (fun h c => 31 * h + c) a codes).
Proof.
  revert a. induction codes as [|c codes IH]; intros a; [done|].
  cbn [foldl]. rewrite hashStep_spec, <- IH. f_equal.
  destruct (toInt32_eqm a) as [k ->].
  replace (31 * (a + 4294967296 * k) + c) with (31 * a + c + 4294967296 * (31 * k)) by lia.
  apply toInt32_period.
Qed.
End Hash.

(** X17.  The hash of a door is the polynomial hash with multiplier 31 of
    the text [X,Y,Z] of its coordinates in hundredths, reduced to a signed
    32-bit integer, printed in base 16 without its sign: the value printed is
    between 0 and [2^31], and two positions that round to the same
    hundredths have the same hash. *)
Theorem hash_is_polynomial (x y z x' y' z' : Q) :
  DoorUtils.hashString (DoorUtils.coordinateString x y z)
  = JS.toInt32
      (HashSpec.poly31 (DoorUtils.charCodes (DoorUtils.coordinateString x y z)))
  ∧ (0 ≤ Z.abs (DoorUtils.hashString (DoorUtils.coordinateString x y z))
     ≤ 2147483648)%Z
  ∧ DoorUtils.hashCoordinates x y z
    = DoorUtils.toString16
        (Z.abs (JS.toInt32
           (HashSpec.poly31
              (DoorUtils.charCodes (DoorUtils.coordinateString x y z)))))
  ∧ (JSMath.round (x * 100) = JSMath.round (x' * 100) →
     JSMath.round (y * 100) = JSMath.round (y' * 100) →
     JSMath.round (z * 100) = JSMath.round (z' * 100) →
     DoorUtils.hashCoordinates x y z = DoorUtils.hashCoordinates x' y' z').
Proof.
  assert (E : ∀ str, DoorUtils.hashString str
                     = JS.toInt32 (HashSpec.poly31 (DoorUtils.charCodes str))).
  { intros str. unfold DoorUtils.hashString, HashSpec.poly31.
    by rewrite <- hash_fold. }
  split; [|split; [|split]].
  - apply E.
  - rewrite E. pose proof (toInt32_range
      (HashSpec.poly31 (DoorUtils.charCodes (DoorUtils.coordinateString x y z)))) as H.
    unfold int32 in H. lia.
  - unfold DoorUtils.hashCoordinates. by rewrite E.
  - intros Hx Hy Hz. unfold DoorUtils.hashCoordinates, DoorUtils.coordinateString.
    by rewrite Hx, Hy, Hz.
Qed.

Lemma hash_is_polynomial_witness :
  DoorUtils.hashCoordinates 1 (3 # 2) (-2) = DoorUtils.hashCoordinates (1001 # 1000) (3 # 2) (-2).
Proof. apply (hash_is_polynomial 1 (3 # 2) (-2) (1001 # 1000) (3 # 2) (-2)); reflexivity. Defined.

(** ** The state in the URL hash *)

Section HashStates.
Import HashState HashStateSpec.






End HashStates.



(** ** Where the doors are *)

Section DoorPlaces.
Import DoorPlace.
Local Open Scope Q_scope.

Lemma doorPosition_halfCells (cellSize wallHeight : Q) (k : DoorKey) :
  samePoint (doorPosition cellSize wallHeight k)
    (inject_Z (halfCells k).1 * (cellSize / 2), wallHeight / 2,
     inject_Z (halfCells k).2 * (cellSize / 2)).
Proof.
  destruct k as [[i j] d]. unfold samePoint, doorPosition, halfCells.
  destruct d; cbn [fst snd]; rewrite ?inject_Z_plus, ?inject_Z_mult;
    change (inject_Z 2) with 2; change (inject_Z 1) with 1;
    split_and!; field.
Qed.

Lemma halfCells_cancel (cellSize : Q) (a b : Z) :
  0 < cellSize → inject_Z a * (cellSize / 2) == inject_Z b * (cellSize / 2) ↔ a = b.
Proof.
  intros Hcs. split; [|by intros ->].
  intros E. apply inject_Z_injective.
  assert (H0 : (inject_Z a - inject_Z b) * cellSize
               == 2 * (inject_Z a * (cellSize / 2) - inject_Z b * (cellSize / 2)))
    by field.
  rewrite E in H0.
  assert (H : (inject_Z a - inject_Z b) * cellSize == 0) by (rewrite H0; ring).
  apply Qmult_integral in H as [H|H]; lra.
Qed.

Lemma samePoint_halfCells (cellSize wallHeight : Q) (k k' : DoorKey) :
  0 < cellSize →
  samePoint (doorPosition cellSize wallHeight k) (doorPosition cellSize wallHeight k')
  ↔ halfCells k = halfCells k'.
Proof.
  intros Hcs.
  destruct (doorPosition_halfCells cellSize wallHeight k) as (X & Y & Z).
  destruct (doorPosition_halfCells cellSize wallHeight k') as (X' & Y' & Z').
  cbn [fst snd] in *. unfold samePoint. rewrite X, Y, Z, X', Y', Z'.
  rewrite !halfCells_cancel by done.
  destruct (halfCells k) as [a b], (halfCells k') as [a' b']. cbn [fst snd].
  split; [by intros (-> & _ & ->)|]. by intros [= -> ->].
Qed.

Lemma round_comp (a b : Q) : a == b → JSMath.round (a * 100) = JSMath.round (b * 100).
Proof. intros E. unfold JSMath.round. by rewrite E. Qed.
End DoorPlaces.

(** X19.  Two doors are at the same point exactly when they are the same
    door or the two doors of one wall, one seen from each of the cells it
    separates; those two are handed to the door service with the same hash. *)
Theorem doors_of_one_wall (cellSize wallHeight : Q) (k k' : DoorKey) :
  (0 < cellSize)%Q →
  (DoorPlace.samePoint (DoorPlace.doorPosition cellSize wallHeight k)
     (DoorPlace.doorPosition cellSize wallHeight k')
   ↔ k = k' ∨ (move k.2 k.1 = Some k'.1 ∧ k'.2 = opposite k.2))
  ∧ (move k.2 k.1 = Some k'.1 → k'.2 = opposite k.2 →
     DoorPlace.doorHash cellSize wallHeight k
     = DoorPlace.doorHash cellSize wallHeight k').
Proof.
  intros Hcs.
  assert (Hiff : DoorPlace.halfCells k = DoorPlace.halfCells k'
                 ↔ k = k' ∨ (move k.2 k.1 = Some k'.1 ∧ k'.2 = opposite k.2)).
  { destruct k as [[i j] d], k' as [[i' j'] d']. unfold DoorPlace.halfCells, move.
    cbn [fst snd]. split.
    - intros E. destruct d, d'; injection E as H1 H2; try lia.
      all: try (left; assert (i = i') by lia; assert (j = j') by lia; by subst).
      all: right; cbn [opposite]; (split; [|done]).
      all: repeat case_match; try lia; repeat f_equal; lia.
    - intros [E|[Hm Ho]]; [by simplify_eq|].
      destruct d, d'; cbn [opposite] in Ho; try done.
      all: repeat case_match; simplify_eq; f_equal; lia. }
  split; [by rewrite samePoint_halfCells|].
  intros Hm Ho.
  assert (Hsame : DoorPlace.samePoint (DoorPlace.doorPosition cellSize wallHeight k)
                    (DoorPlace.doorPosition cellSize wallHeight k')).
  { apply samePoint_halfCells; [done|]. apply Hiff. by right. }
  destruct Hsame as (X & Y & Z).
  unfold DoorPlace.doorHash, DoorUtils.hashCoordinates, DoorUtils.coordinateString.
  cbv zeta. by rewrite (round_comp _ _ X), (round_comp _ _ Y), (round_comp _ _ Z).
Qed.

Lemma doors_of_one_wall_witness :
  DoorPlace.doorHash 4 3 (2, 5, South)%nat = DoorPlace.doorHash 4 3 (2, 6, North)%nat.
Proof. apply (doors_of_one_wall 4 3 (2, 5, South)%nat (2, 6, North)%nat); reflexivity. Defined.

(** ** Walls are solid *)

Section Solid.
Import FirstPersonController CollisionSpec Walk.
Local Open Scope Q_scope.

(** One axis: a step shorter than twice the buffer, between two
    coordinates that keep the buffer to the walls of their cells, stays in
    the cell or enters a cell next to it, and then not both sides of the
    boundary crossed carry a wall. *)
Lemma axis_step (cellSize v v' : Q) (lo hi lo' hi' : bool) :
  2 * buffer <= cellSize → - (2 * buffer) < v' - v → v' - v < 2 * buffer →
  (lo = true → buffer <= localCoord cellSize v) →
  (hi = true → buffer <= cellSize - localCoord cellSize v) →
  (lo' = true → buffer <= localCoord cellSize v') →
  (hi' = true → buffer <= cellSize - localCoord cellSize v') →
  mazeCoord cellSize v' = mazeCoord cellSize v
  ∨ (mazeCoord cellSize v' = (mazeCoord cellSize v + 1)%Z ∧ ¬ (hi = true ∧ lo' = true))
  ∨ (mazeCoord cellSize v' = (mazeCoord cellSize v - 1)%Z ∧ ¬ (lo = true ∧ hi' = true)).
Proof.
  intros Hcs Hd1 Hd2 Hlo Hhi Hlo' Hhi'.
  assert (Hpos : 0 < cellSize) by (unfold buffer in Hcs; lra).
  destruct (localCoord_range cellSize v Hpos) as [L0 L1].
  destruct (localCoord_range cellSize v' Hpos) as [L0' L1'].
  unfold localCoord in *.
  set (k := mazeCoord cellSize v) in *. set (k' := mazeCoord cellSize v') in *.
  assert (Hinj : ∀ a b : Z, inject_Z (a + b) = inject_Z a + inject_Z b)
    by (intros; apply inject_Z_plus).
  assert (Hup : (k' < k + 2)%Z).
  { destruct (Z_lt_le_dec k' (k + 2)) as [|Hge]; [done|].
    rewrite Zle_Qle, Hinj in Hge. change (inject_Z 2) with 2 in Hge. nra. }
  assert (Hdown : (k - 2 < k')%Z).
  { destruct (Z_lt_le_dec (k - 2) k') as [|Hge]; [done|].
    rewrite Zle_Qle in Hge. replace (k - 2)%Z with (k + -2)%Z in Hge by lia.
    rewrite Hinj in Hge. change (inject_Z (-2)) with (-2 # 1) in Hge. nra. }
  destruct (decide (k' = k)) as [|Hne]; [by left|].
  destruct (decide (k' = k + 1)%Z) as [E|Hne'].
  - right. left. split; [done|]. intros [Hh Hl].
    specialize (Hhi Hh). specialize (Hlo' Hl). rewrite E, Hinj in Hlo'.
    change (inject_Z 1) with 1 in Hlo'. unfold buffer in *. lra.
  - right. right. assert (E : k' = (k + -1)%Z) by lia. split; [lia|]. intros [Hl Hh].
    specialize (Hlo Hl). specialize (Hhi' Hh). rewrite E, Hinj in Hhi'.
    change (inject_Z (-1)) with (-1 # 1) in Hhi'. unfold buffer in *. lra.
Qed.

Context (w h : nat) (maze : MazeGenerator.Grid) (cellSize : Q).
Hypothesis Hwf : wellFormed w h maze.
Hypothesis Hsym : symmetric maze.
Hypothesis Hcs : 2 * buffer <= cellSize.

(** A committed move along x goes through no wall. *)
Lemma step_x (p : Vector3) (x' : Q) :
  checkCollision maze cellSize p = Ok false →
  checkCollision maze cellSize (setX p x') = Ok false →
  - (2 * buffer) < x' - vx p → x' - vx p < 2 * buffer →
  through maze (cellOf cellSize p) (cellOf cellSize (setX p x')).
Proof using Hwf Hsym Hcs.
  intros Hp Hq Hd1 Hd2.
  destruct (checkCollision_accepts w h maze cellSize Hwf p Hp)
    as [[Hx Hz] (cell & Hcell & _ & _ & Cw & Ce)].
  destruct (checkCollision_accepts w h maze cellSize Hwf _ Hq)
    as [[Hx' Hz'] (cell' & Hcell' & _ & _ & Cw' & Ce')].
  unfold cellOf in *. cbn [vx vz setX] in *.
  destruct (axis_step cellSize (vx p) x' (west (walls cell)) (east (walls cell))
              (west (walls cell')) (east (walls cell')))
    as [E|[[E Hno]|[E Hno]]]; try done.
  - left. by rewrite E.
  - right. exists East, cell. rewrite E in Hcell' |- *.
    replace (Z.to_nat (mazeCoord cellSize (vx p) + 1))
      with (S (Z.to_nat (mazeCoord cellSize (vx p)))) in * by lia.
    split_and!; [done|done|by eapply mk_is_Some|].
    pose proof (Hsym East _ _ _ _ eq_refl Hcell Hcell') as Hs. cbn in Hs.
    cbn [wallOf]. destruct (east (walls cell)); [|done]. destruct Hno. by split.
  - right. exists West, cell. rewrite E in Hcell', Hx' |- *.
    assert (Hk : Z.to_nat (mazeCoord cellSize (vx p))
                 = S (Z.to_nat (mazeCoord cellSize (vx p) - 1))) by lia.
    rewrite Hk in Hcell |- *.
    split_and!; [done|done|by eapply mk_is_Some|].
    pose proof (Hsym East _ _ _ _ eq_refl Hcell' Hcell) as Hs. cbn in Hs.
    cbn [wallOf]. destruct (west (walls cell)); [|done]. destruct Hno. by split.
Qed.

(** A committed move along z goes through no wall. *)
Lemma step_z (p : Vector3) (z' : Q) :
  checkCollision maze cellSize p = Ok false →
  checkCollision maze cellSize (setZ p z') = Ok false →
  - (2 * buffer) < z' - vz p → z' - vz p < 2 * buffer →
  through maze (cellOf cellSize p) (cellOf cellSize (setZ p z')).
Proof using Hwf Hsym Hcs.
  intros Hp Hq Hd1 Hd2.
  destruct (checkCollision_accepts w h maze cellSize Hwf p Hp)
    as [[Hx Hz] (cell & Hcell & Cn & Cs & _ & _)].
  destruct (checkCollision_accepts w h maze cellSize Hwf _ Hq)
    as [[Hx' Hz'] (cell' & Hcell' & Cn' & Cs' & _ & _)].
  unfold cellOf in *. cbn [vx vz setZ] in *.
  destruct (axis_step cellSize (vz p) z' (north (walls cell)) (south (walls cell))
              (north (walls cell')) (south (walls cell')))
    as [E|[[E Hno]|[E Hno]]]; try done.
  - left. by rewrite E.
  - right. exists South, cell. rewrite E in Hcell' |- *.
    replace (Z.to_nat (mazeCoord cellSize (vz p) + 1))
      with (S (Z.to_nat (mazeCoord cellSize (vz p)))) in * by lia.
    split_and!; [done|done|by eapply mk_is_Some|].
    pose proof (Hsym South _ _ _ _ eq_refl Hcell Hcell') as Hs. cbn in Hs.
    cbn [wallOf]. destruct (south (walls cell)); [|done]. destruct Hno. by split.
  - right. exists North, cell. rewrite E in Hcell', Hz' |- *.
    assert (Hk : Z.to_nat (mazeCoord cellSize (vz p))
                 = S (Z.to_nat (mazeCoord cellSize (vz p) - 1))) by lia.
    rewrite Hk in Hcell |- *.
    split_and!; [done|done|by eapply mk_is_Some|].
    pose proof (Hsym South _ _ _ _ eq_refl Hcell' Hcell) as Hs. cbn in Hs.
    cbn [wallOf]. destruct (north (walls cell)); [|done]. destruct Hno. by split.
Qed.

(** A frame from an accepted position, at a slow velocity. *)
Lemma frame_solid (p velocity : Vector3) (doorAhead : bool) :
  checkCollision maze cellSize p = Ok false → slow velocity →
  ∃ p' mid,
    useFrame maze cellSize p velocity doorAhead = Ok p'
    ∧ checkCollision maze cellSize p' = Ok false
    ∧ through maze (cellOf cellSize p) mid
    ∧ through maze mid (cellOf cellSize p').
Proof using Hwf Hsym Hcs.
  intros Hp (X1 & X2 & Z1 & Z2).
  destruct (useFrame_spec w h maze cellSize Hwf p velocity doorAhead)
    as (hitX & hitZ & HX & HZ & ->).
  destruct (moving velocity && doorAhead).
  { exists p, (cellOf cellSize p). split_and!; [done|done|by left|by left]. }
  set (p1 := if hitX then p else setX p (vx (add p velocity))) in *.
  assert (H1 : checkCollision maze cellSize p1 = Ok false
               ∧ through maze (cellOf cellSize p) (cellOf cellSize p1)).
  { unfold p1. destruct hitX; [split; [done|by left]|]. split; [done|].
    apply step_x; try done; cbn [add vx]; lra. }
  destruct H1 as [Hp1 T1].
  exists (if hitZ then p1 else setZ p1 (vz (add p velocity))), (cellOf cellSize p1).
  split; [done|]. destruct hitZ; [split_and!; [done|done|by left]|].
  split_and!; [done|done|].
  apply step_z; try done.
  - assert (vz p1 = vz p) as -> by (unfold p1; by destruct hitX). cbn [add vz]. lra.
  - assert (vz p1 = vz p) as -> by (unfold p1; by destruct hitX). cbn [add vz]. lra.
Qed.
End Solid.

(** X20.  Walls are solid at walking speed.  In a generated maze with
    cells at least twice the buffer wide, a frame that starts from an
    accepted position and whose velocity is below twice the buffer (0.6) on
    both axes runs without an error and ends in an accepted position; the
    move along x and then the move along z each stay in the cell or enter
    the cell next to it through a side that has no wall. *)
Theorem walls_are_solid (width height : Z) (seed : option Z) (mathRandom : Q)
    (final : t) (cellSize : Q) (p velocity : FirstPersonController.Vector3)
    (doorAhead : bool) :
  generate (constructor width height seed mathRandom) = Ok final →
  (2 * FirstPersonController.buffer <= cellSize)%Q →
  FirstPersonController.checkCollision (grid final) cellSize p = Ok false →
  Walk.slow velocity →
  ∃ p' mid,
    FirstPersonController.useFrame (grid final) cellSize p velocity doorAhead = Ok p'
    ∧ FirstPersonController.checkCollision (grid final) cellSize p' = Ok false
    ∧ Walk.through (grid final) (CollisionSpec.cellOf cellSize p) mid
    ∧ Walk.through (grid final) mid (CollisionSpec.cellOf cellSize p').
Proof.
  intros Hgen Hcs Hp Hslow.
  destruct (generate_extra (fun _ => True) width height seed mathRandom final)
    as (s & I & _ & -> & _ & _); [done|done|done|].
  by apply (frame_solid _ _ _ _ (inv_wf _ _ _ I) (inv_symmetric _ _ _ I)).
Qed.

Lemma walls_are_solid_witness :
  ∃ final,
    generate (constructor 2 2 (Some 1%Z) 0) = Ok final
    ∧ ∃ p' mid,
        FirstPersonController.useFrame (grid final) 4
          (FirstPersonController.mkVector3 2 (17 # 10) 2)
          (FirstPersonController.mkVector3 (1 # 2) 0 (1 # 2)) false = Ok p'
        ∧ FirstPersonController.checkCollision (grid final) 4 p' = Ok false
        ∧ Walk.through (grid final)
            (CollisionSpec.cellOf 4 (FirstPersonController.mkVector3 2 (17 # 10) 2)) mid
        ∧ Walk.through (grid final) mid (CollisionSpec.cellOf 4 p').
Proof.
  eexists. split; [vm_compute; reflexivity|].
  match goal with
  | |- ∃ p' mid, FirstPersonController.useFrame (grid ?f) _ _ _ _ = _ ∧ _ =>
      apply (walls_are_solid 2 2 (Some 1%Z) 0 f 4
               (FirstPersonController.mkVector3 2 (17 # 10) 2)
               (FirstPersonController.mkVector3 (1 # 2) 0 (1 # 2)) false)
  end.
  - vm_compute. reflexivity.
  - vm_compute. discriminate.
  - vm_compute. reflexivity.
  - unfold Walk.slow. vm_compute. split_and!; reflexivity.
Defined.
